(** * Bank reconciliation tool: the matching core, embedded and verified

    A shallow embedding of the reconciliation core of the repository:
    the column mapper ([detectMapping]), the amount parser ([parseAmount])
    and the amount part of the normalizer, the matching engine
    ([reconcileSmart] with [descriptionScore], [tokenize], [daysBetween],
    [summarize]) and the advisory fuzzy suggestions ([runAISuggestions]).

    Conventions of the embedding.
    - A JavaScript [number] is an exact rational ([Q]); [NaN] is [None] of an
      [option] where the code can produce it.  The rounding of binary
      floating point is outside the model: an amount with two decimals
      stands for the double nearest to it, the statements about amounts are
      made where the double computation is exact or lands on that double,
      and a double operation whose rounding decides a result is a parameter
      ([Number_minus] in the suggestions).  The concrete inputs of the
      examples are ones on which the code computes the values shown.
    - A JavaScript string is a [string] of characters with codes below 128;
      [toLowerCase] acts on the letters A-Z.
    - Objects used as string-keyed maps are [gmap string _], a [Set] of
      indexes is a [gset nat], arrays are lists; a loop is a [foldl] of its
      body over the indexes or the elements it visits.
    - What belongs to the host is a parameter: the date parsing policy behind
      [normalizeRows], the free-form [new Date(s)] and the clock and random
      numbers behind the identifiers of the suggestions.  The sorting
      algorithm is the host's too: [js_sort] is one stable sort and
      [host_sorts] is what the language asks of every one. *)

From Stdlib Require Import ZArith QArith Qround Qabs Lia Lqa Bool Ascii String.
From stdpp Require Import base decidable option list sets gmap strings pretty sorting.


(** ** JavaScript numbers and [Math] *)

Module JS.

Definition number := Q.

(** [Math.round]: nearest integer, a tie goes toward plus infinity. *)
Definition Math_round (x : Q) : Z := Qfloor (x + (1 # 2))%Q.

(** [Math.round(x * 100) / 100], the idiom used all over the source. *)
Definition round2 (x : Q) : Q := (inject_Z (Math_round (x * 100)) / 100)%Q.

Definition Math_abs (x : Q) : Q := Qabs x.

Definition leb (x y : Q) : bool := Qle_bool x y.
Definition ltb (x y : Q) : bool := negb (Qle_bool y x).
Definition eqb (x y : Q) : bool := Qeq_bool x y.

End JS.

(** ** Strings *)

Definition char_code (c : ascii) : nat := nat_of_ascii c.

Definition is_digit (c : ascii) : bool :=
  (48 <=? char_code c)%nat && (char_code c <=? 57)%nat.
Definition is_upper (c : ascii) : bool :=
  (65 <=? char_code c)%nat && (char_code c <=? 90)%nat.
Definition is_lower (c : ascii) : bool :=
  (97 <=? char_code c)%nat && (char_code c <=? 122)%nat.
(** [\s] on the modelled alphabet: tab, LF, VT, FF, CR, space. *)
Definition is_space (c : ascii) : bool :=
  ((9 <=? char_code c)%nat && (char_code c <=? 13)%nat) || (char_code c =? 32)%nat.

Definition lower_char (c : ascii) : ascii :=
  if is_upper c then ascii_of_nat (char_code c + 32) else c.

Fixpoint toLowerCase (s : string) : string :=
  match s with
  | EmptyString => EmptyString
  | String c s' => String (lower_char c) (toLowerCase s')
  end.

(** [s.includes(c)]: [c] occurs in [s] as a substring. *)
Fixpoint includes (s c : string) : bool :=
  String.prefix c s ||
  match s with
  | EmptyString => false
  | String _ s' => includes s' c
  end.

Fixpoint filter_chars (p : ascii -> bool) (s : string) : string :=
  match s with
  | EmptyString => EmptyString
  | String c s' => if p c then String c (filter_chars p s') else filter_chars p s'
  end.

Fixpoint map_chars (f : ascii -> ascii) (s : string) : string :=
  match s with
  | EmptyString => EmptyString
  | String c s' => String (f c) (map_chars f s')
  end.

Fixpoint existsb_char (p : ascii -> bool) (s : string) : bool :=
  match s with
  | EmptyString => false
  | String c s' => p c || existsb_char p s'
  end.

Fixpoint trimStart (s : string) : string :=
  match s with
  | String c s' => if is_space c then trimStart s' else s
  | EmptyString => EmptyString
  end.

Definition trim (s : string) : string :=
  String.rev (trimStart (String.rev (trimStart s))).

(** [s.replace(",", ".")] with a string pattern: the first occurrence only. *)
Fixpoint replace_first (a b : ascii) (s : string) : string :=
  match s with
  | EmptyString => EmptyString
  | String c s' => if Ascii.eqb c a then String b s' else String c (replace_first a b s')
  end.

(** ** Column mapper *)

Inductive Mode := ModeAmount | ModeDebitCredit.
Inductive SignConvention := CreditPositive | DebitPositive.

(** The optional fields are strings, absent being the empty string: the
    code only tests them for truthiness. *)
Module Mapping.
Record t := mk {
  mode : Mode;
  date : string;
  amount : string;
  debit : string;
  credit : string;
  description : string;
  signConvention : SignConvention
}.
End Mapping.

(** A string is truthy when it is not empty. *)
Definition truthy (s : string) : bool :=
  match s with EmptyString => false | _ => true end.

(** [a || b] on strings. *)
Definition or_else (a b : string) : string := if truthy a then a else b.

(** [lowered.findIndex((h) => h.includes(c))]; [None] is the code's [-1]. *)
Fixpoint findIndex {A} (p : A -> bool) (l : list A) : option nat :=
  match l with
  | [] => None
  | x :: l' => if p x then Some 0%nat else S <$> findIndex p l'
  end.

Section DetectMapping.
Variable headers : list string.

Definition lowered : list string := map (fun h => toLowerCase (or_else h "")) headers.

(** [headers[i]], [undefined] being falsy like the empty string. *)
Definition header_at (i : nat) : string := default "" (headers !! i).

Fixpoint pick_from (cands : list string) : option string :=
  match cands with
  | [] => None
  | c :: cands' =>
      match findIndex (fun h => includes h c) lowered with
      | Some idx => Some (header_at idx)
      | None => pick_from cands'
      end
  end.

Definition pick (cands : list string) (fallback : string) : string :=
  match pick_from cands with
  | Some h => h
  | None => or_else fallback (or_else (header_at 0) "")
  end.

Definition detectMapping : Mapping.t :=
  let date := pick ["date"; "posted"; "txn date"; "transaction date"; "value date"] "" in
  let amount := pick ["amount"; "amt"; "value"] "" in
  let debit := pick ["debit"; "withdrawal"; "dr"] "" in
  let credit := pick ["credit"; "deposit"; "cr"] "" in
  let description :=
    pick ["description"; "details"; "narration"; "memo"; "payee"; "particulars"] "" in
  let mode := if truthy amount then ModeAmount else ModeDebitCredit in
  Mapping.mk mode date amount debit credit description CreditPositive.
End DetectMapping.

(** ** Amount parsing *)

(** Leading decimal digits of a string: their value, their number, the rest. *)
Fixpoint take_digits (s : string) (acc : Z) (n : nat) : Z * nat * string :=
  match s with
  | String c s' =>
      if is_digit c
      then take_digits s' (acc * 10 + Z.of_nat (char_code c - 48)) (S n)
      else (acc, n, s)
  | EmptyString => (acc, n, s)
  end.

(** [parseFloat] on the strings [parseAmount] hands it: leading white space,
    an optional sign, digits with an optional fraction; the longest such
    prefix is read, [None] is [NaN].  (Exponents and [Infinity] need letters,
    which [parseAmount] has removed.) *)
Definition parseFloat (s : string) : option Q :=
  let s0 := trimStart s in
  let '(neg, s1) :=
    match s0 with
    | String "-" r => (true, r)
    | String "+" r => (false, r)
    | _ => (false, s0)
    end in
  let '(ip, ni, s2) := take_digits s1 0 0 in
  let '(fp, nf, _) :=
    match s2 with
    | String "." r => take_digits r 0 0
    | _ => (0%Z, 0%nat, s2)
    end in
  if (ni + nf =? 0)%nat then None
  else
    let den := Pos.pow 10 (Pos.of_succ_nat nf) in
    let v := Qmake (ip * Z.pos den + fp * 10) den in
    Some (if neg then Qopp v else v).

(** A cell of a raw row: [string | number | null | undefined]. *)
Inductive Cell := Undefined | Null | Num (x : Q) | Str (s : string).

Definition keep_amount_char (c : ascii) : bool :=
  is_digit c || Ascii.eqb c "-" || Ascii.eqb c "." || Ascii.eqb c ",".

Definition has_char (a : ascii) (s : string) : bool := existsb_char (Ascii.eqb a) s.

(** The string handed to [parseFloat]. *)
Definition normalizeAmountString (s : string) : string :=
  let cleaned := filter_chars keep_amount_char s in
  if has_char "," cleaned && has_char "." cleaned then
    filter_chars (fun c => negb (Ascii.eqb c ",")) cleaned
  else if has_char "," cleaned && negb (has_char "." cleaned) then
    replace_first "," "." (filter_chars (fun c => negb (Ascii.eqb c ".")) cleaned)
  else cleaned.

Definition parseAmount (raw : Cell) : option Q :=
  match raw with
  | Null | Undefined => None
  | Num x => Some (JS.round2 x)
  | Str raw =>
      let s := trim raw in
      if negb (truthy s) then None
      else
        match parseFloat (normalizeAmountString s) with
        | None => None
        | Some n => Some (JS.round2 n)
        end
  end.

(** ** Normalizer: the amount of a row *)

Definition RawRow := gmap string Cell.

(** [r[k]]: a missing key reads as [undefined]. *)
Definition row_get (r : RawRow) (k : string) : Cell := default Undefined (r !! k).

(** [parseAmount(...) || 0]: [null] and [0] both give [0]. *)
Definition or_zero (o : option Q) : Q := default 0%Q o.

(** The amount computed by [normalizeRows] for one row; [None] is the
    [amount === null] that drops the row. *)
Definition rowAmount (r : RawRow) (map : Mapping.t) : option Q :=
  match Mapping.mode map with
  | ModeAmount =>
      if truthy (Mapping.amount map) then parseAmount (row_get r (Mapping.amount map))
      else None
  | ModeDebitCredit =>
      if truthy (Mapping.debit map) || truthy (Mapping.credit map) then
        let debit := or_zero (parseAmount (row_get r (or_else (Mapping.debit map) ""))) in
        let credit := or_zero (parseAmount (row_get r (or_else (Mapping.credit map) ""))) in
        let amount :=
          match Mapping.signConvention map with
          | CreditPositive => (credit - debit)%Q
          | DebitPositive => (debit - credit)%Q
          end in
        Some (JS.round2 amount)
      else None
  end.

(** ** Dates *)

Definition is_leap (y : Z) : bool :=
  ((y mod 4 =? 0) && negb (y mod 100 =? 0) || (y mod 400 =? 0))%Z.

Definition days_in_month (y m : Z) : Z :=
  (if m =? 2 then (if is_leap y then 29 else 28)
   else if (m =? 4) || (m =? 6) || (m =? 9) || (m =? 11) then 30 else 31)%Z.

(** Days from 1970-01-01 to the given day of the proleptic Gregorian calendar. *)
Definition days_from_civil (y m d : Z) : Z :=
  (let y' := if m <=? 2 then y - 1 else y in
   let era := y' / 400 in
   let yoe := y' - era * 400 in
   let mp := (m + 9) mod 12 in
   let doy := (153 * mp + 2) / 5 + d - 1 in
   let doe := yoe * 365 + yoe / 4 - yoe / 100 + doy in
   era * 146097 + doe - 719468)%Z.

Definition digit_val (c : ascii) : option Z :=
  if is_digit c then Some (Z.of_nat (char_code c - 48)) else None.

Fixpoint digits_val (cs : list ascii) (acc : Z) : option Z :=
  match cs with
  | [] => Some acc
  | c :: cs' => match digit_val c with
                | Some v => digits_val cs' (acc * 10 + v)%Z
                | None => None
                end
  end.

(** [new Date(iso + "T00:00:00Z").getTime()] for a date in the ECMAScript
    date-time format [YYYY-MM-DD]: milliseconds since the epoch; [None] is the
    [NaN] of an invalid date (anything that is not such a calendar date). *)
Definition utc_midnight (iso : string) : option Z :=
  match list_ascii_of_string iso with
  | [y1; y2; y3; y4; "-"%char; m1; m2; "-"%char; d1; d2] =>
      match digits_val [y1; y2; y3; y4] 0, digits_val [m1; m2] 0, digits_val [d1; d2] 0 with
      | Some y, Some m, Some d =>
          if ((1 <=? m) && (m <=? 12) && (1 <=? d) && (d <=? days_in_month y m))%Z
          then Some (days_from_civil y m d * 86400000)%Z
          else None
      | _, _, _ => None
      end
  | _ => None
  end.

Definition daysBetween (iso1 iso2 : string) : option Z :=
  match utc_midnight iso1, utc_midnight iso2 with
  | Some a, Some b =>
      Some (JS.Math_round (JS.Math_abs (inject_Z (a - b)) / 86400000)%Q)
  | _, _ => None
  end.

(** ** Description score *)

(** [s.split(/\s+/)], empty pieces included. *)
Fixpoint split_ws (skipping : bool) (cur : string) (s : string) : list string :=
  match s with
  | EmptyString => [cur]
  | String c s' =>
      if is_space c then
        if skipping then split_ws true cur s' else cur :: split_ws true "" s'
      else split_ws false (cur +:+ String c "") s'
  end.

Definition keep_or_blank (c : ascii) : ascii :=
  if is_lower c || is_digit c || is_space c then c else " "%char.

Definition tokens (s : string) : list string :=
  filter (fun t => truthy t = true)
         (split_ws false "" (map_chars keep_or_blank (toLowerCase (or_else s "")))).

Definition tokenize (s : string) : gset string := list_to_set (tokens s).

Definition descriptionScore (a b : string) : Z :=
  let ta := tokenize a in
  let tb := tokenize b in
  if ((size ta =? 0) || (size tb =? 0))%nat then 50%Z
  else
    let common := size (filter (fun t => t ∈ tb) ta) in
    let union := (size ta + size tb - common)%nat in
    let jaccard : Q :=
      if (union =? 0)%nat then 0%Q
      else (inject_Z (Z.of_nat common) / inject_Z (Z.of_nat union))%Q in
    JS.Math_round ((1 - jaccard) * 50)%Q.

(** ** Transactions and pairs *)

Inductive Source := Bank | Cashbook.

Definition source_name (s : Source) : string :=
  match s with Bank => "bank" | Cashbook => "cashbook" end.

Module MappedRow.
Record t := mk {
  id : string;
  source : Source;
  index : nat;
  dateStr : string;
  dateISO : string;
  amount : Q;
  description : string;
  raw : RawRow
}.
End MappedRow.

Module MatchPair.
Record t := mk {
  id : string;
  bank : option MappedRow.t;
  cashbook : option MappedRow.t;
  matched : bool;
  amountDiff : Q;
  dateDiffDays : Z
}.
End MatchPair.

Inductive Strategy := Strict | Smart.
Inductive DateFormat := FmtAuto | FmtYMD | FmtDMY | FmtMDY.

Module ReconcileSettings.
Record t := mk {
  amountTolerance : Q;
  dateWindowDays : Q;
  dateFormat : DateFormat;
  currency : string;
  strategy : Strategy
}.
End ReconcileSettings.

Definition DEFAULT_SETTINGS : ReconcileSettings.t :=
  ReconcileSettings.mk 0 0 FmtAuto "USD" Smart.

(** ** Normalizer: the rows *)

Section Normalizer.
(** The date parsing policy [toISODate], which ends in the host's
    free-form [new Date(s)]: the ISO date and the display date, or [None]
    for [null]. *)
Variable toISODate : string -> DateFormat -> option (string * string).
(** [x.toString()] for a numeric cell. *)
Variable Number_toString : Q -> string.

(** [(cell ?? "").toString()] *)
Definition cell_text (c : Cell) : string :=
  match c with
  | Undefined | Null => ""
  | Num x => Number_toString x
  | Str s => s
  end.

(** The body of the loop of [normalizeRows]: a row is dropped when its
    date or its amount does not parse. *)
Definition normalizeRow (rows : list RawRow) (map : Mapping.t) (src : Source)
           (settings : ReconcileSettings.t) (out : list MappedRow.t) (i : nat)
  : list MappedRow.t :=
  let r := default ∅ (rows !! i) in
  let dateVal := cell_text (row_get r (Mapping.date map)) in
  let descVal := cell_text (row_get r (or_else (Mapping.description map) "")) in
  match toISODate dateVal (ReconcileSettings.dateFormat settings) with
  | None => out
  | Some (iso, dateStr) =>
      match rowAmount r map with
      | None => out
      | Some amount =>
          out ++ [MappedRow.mk (source_name src +:+ "-" +:+ pretty i) src i
                               dateStr iso amount (or_else descVal "") r]
      end
  end.

Definition normalizeRows (rows : list RawRow) (map : Mapping.t) (src : Source)
           (settings : ReconcileSettings.t) : list MappedRow.t :=
  foldl (normalizeRow rows map src settings) [] (seq 0 (length rows)).
End Normalizer.

(** ** [Array.prototype.sort] with a comparator

    The sort is stable; for a comparator that is a consistent ordering its
    result is the one of this insertion sort ([x] goes before the first [y]
    with [cmp x y <= 0]). *)
Section Sort.
Context {A : Type} (cmp : A -> A -> Q).

Fixpoint sort_insert (x : A) (l : list A) : list A :=
  match l with
  | [] => [x]
  | y :: l' => if JS.leb (cmp x y) 0 then x :: y :: l' else y :: sort_insert x l'
  end.

Definition js_sort (l : list A) : list A := foldr sort_insert [] l.
End Sort.

(** [a.localeCompare(b)] on ISO dates (digits and hyphens), where the
    collation order is the order of the character codes. *)
Definition localeCompare (a b : string) : Q :=
  match String.compare a b with
  | Lt => (-1)%Q
  | Eq => 0%Q
  | Gt => 1%Q
  end.

Definition compareRows (a b : MappedRow.t) : Q :=
  if String.eqb (MappedRow.dateISO a) (MappedRow.dateISO b)
  then (MappedRow.amount a - MappedRow.amount b)%Q
  else localeCompare (MappedRow.dateISO a) (MappedRow.dateISO b).

(** [p.bank?.dateISO || p.cashbook?.dateISO || ""] *)
Definition pairDate (p : MatchPair.t) : string :=
  or_else (from_option MappedRow.dateISO "" (MatchPair.bank p))
          (or_else (from_option MappedRow.dateISO "" (MatchPair.cashbook p)) "").

(** [p.bank?.amount ?? p.cashbook?.amount ?? 0] *)
Definition pairAmount (p : MatchPair.t) : Q :=
  match MatchPair.bank p, MatchPair.cashbook p with
  | Some b, _ => MappedRow.amount b
  | None, Some c => MappedRow.amount c
  | None, None => 0%Q
  end.

Definition comparePairs (p1 p2 : MatchPair.t) : Q :=
  let d1 := pairDate p1 in
  let d2 := pairDate p2 in
  if negb (String.eqb d1 d2) then localeCompare d1 d2
  else (pairAmount p1 - pairAmount p2)%Q.

(** ** Summary *)

Module Totals.
Record t := mk {
  bankCount : nat;
  cashbookCount : nat;
  matchedPairs : nat;
  unmatchedBank : nat;
  unmatchedCash : nat;
  totalBank : Q;
  totalCash : Q;
  netDiff : Q;
  unmatchedBankAmount : Q;
  unmatchedCashAmount : Q
}.
End Totals.

Definition is_matched (p : MatchPair.t) : bool := MatchPair.matched p.
Definition is_bank_only (p : MatchPair.t) : bool :=
  negb (MatchPair.matched p) && bool_decide (is_Some (MatchPair.bank p))
  && negb (bool_decide (is_Some (MatchPair.cashbook p))).
Definition is_cash_only (p : MatchPair.t) : bool :=
  negb (MatchPair.matched p) && bool_decide (is_Some (MatchPair.cashbook p))
  && negb (bool_decide (is_Some (MatchPair.bank p))).

Definition sum_amounts {A} (f : A -> Q) (l : list A) : Q :=
  foldl (fun sum r => (sum + f r)%Q) 0%Q l.

Definition summarize (bank cashbook : list MappedRow.t) (pairs : list MatchPair.t)
  : Totals.t :=
  let matchedPairs := length (filter (fun p => is_matched p = true) pairs) in
  let unmatchedBank := length (filter (fun p => is_bank_only p = true) pairs) in
  let unmatchedCash := length (filter (fun p => is_cash_only p = true) pairs) in
  let totalBank := JS.round2 (sum_amounts MappedRow.amount bank) in
  let totalCash := JS.round2 (sum_amounts MappedRow.amount cashbook) in
  let netDiff := JS.round2 (totalBank - totalCash) in
  let unmatchedBankAmount :=
    JS.round2 (sum_amounts (fun p => from_option MappedRow.amount 0%Q (MatchPair.bank p))
                           (filter (fun p => is_bank_only p = true) pairs)) in
  let unmatchedCashAmount :=
    JS.round2 (sum_amounts (fun p => from_option MappedRow.amount 0%Q (MatchPair.cashbook p))
                           (filter (fun p => is_cash_only p = true) pairs)) in
  Totals.mk (length bank) (length cashbook) matchedPairs unmatchedBank unmatchedCash
            totalBank totalCash netDiff unmatchedBankAmount unmatchedCashAmount.

(** ** The matching engine *)

(** The four [best*] variables of the scan; [bestJ = -1] means no candidate
    yet and [bestScore = None] is [Number.POSITIVE_INFINITY]. *)
Record Best := mkBest {
  bestJ : Z;
  bestScore : option Q;
  bestAmountDiff : Q;
  bestDateDiff : Z
}.

Definition best_init : Best := mkBest (-1) None 0 0.

(** [score < bestScore] *)
Definition score_lt (score : Q) (bestScore : option Q) : bool :=
  match bestScore with
  | None => true
  | Some s => JS.ltb score s
  end.

Section Scan.
Variables (cashSorted : list MappedRow.t) (tol window : Q).

(** The body of the inner [for (j ...)] loop.  A [NaN] day distance fails
    the comparison with the window. *)
Definition consider (usedCash : gset nat) (b : MappedRow.t) (best : Best) (j : nat) : Best :=
  if bool_decide (j ∈ usedCash) then best
  else
    match cashSorted !! j with
    | None => best
    | Some c =>
        let amountDiff := JS.round2 (MappedRow.amount b - MappedRow.amount c) in
        match daysBetween (MappedRow.dateISO b) (MappedRow.dateISO c) with
        | None => best
        | Some dateDiff =>
            if JS.leb (JS.Math_abs amountDiff) tol && JS.leb (inject_Z dateDiff) window then
              let descScore :=
                descriptionScore (MappedRow.description b) (MappedRow.description c) in
              let score :=
                (inject_Z dateDiff * 1000 + JS.Math_abs amountDiff * 100
                 + inject_Z descScore)%Q in
              if score_lt score (bestScore best)
              then mkBest (Z.of_nat j) (Some score) amountDiff dateDiff
              else best
            else best
        end
    end.

Definition scan (usedCash : gset nat) (b : MappedRow.t) : Best :=
  foldl (consider usedCash b) best_init (seq 0 (length cashSorted)).

(** The body of the outer [for (i ...)] loop: the state is [usedCash] and
    the [pairs] pushed so far.  ([bestJ] is an index of [cashSorted] whenever
    it is not [-1], see [scan_ok]: the lookup does not fail.) *)
Definition matchBank (st : gset nat * list MatchPair.t) (b : MappedRow.t)
  : gset nat * list MatchPair.t :=
  let '(usedCash, pairs) := st in
  let best := scan usedCash b in
  if negb (bestJ best =? -1)%Z then
    match cashSorted !! Z.to_nat (bestJ best) with
    | Some c =>
        ({[ Z.to_nat (bestJ best) ]} ∪ usedCash,
         pairs ++ [MatchPair.mk ("pair-" +:+ MappedRow.id b +:+ "-" +:+ MappedRow.id c)
                                (Some b) (Some c) true
                                (bestAmountDiff best) (bestDateDiff best)])
    | None => st
    end
  else
    (usedCash,
     pairs ++ [MatchPair.mk ("pair-" +:+ MappedRow.id b +:+ "-none")
                            (Some b) None false (MappedRow.amount b) 0]).

(** The body of the loop over the cashbook rows that were never used. *)
Definition leftover (usedCash : gset nat) (pairs : list MatchPair.t) (j : nat)
  : list MatchPair.t :=
  if negb (bool_decide (j ∈ usedCash)) then
    match cashSorted !! j with
    | Some c =>
        pairs ++ [MatchPair.mk ("pair-none-" +:+ MappedRow.id c)
                               None (Some c) false (- MappedRow.amount c)%Q 0]
    | None => pairs
    end
  else pairs.
End Scan.

(** The pairs before the final sort. *)
Definition matchAll (bankSorted cashSorted : list MappedRow.t) (tol window : Q)
  : list MatchPair.t :=
  let '(usedCash, pairs) := foldl (matchBank cashSorted tol window) (∅, []) bankSorted in
  foldl (leftover cashSorted usedCash) pairs (seq 0 (length cashSorted)).

Module Result.
Record t := mk { pairs : list MatchPair.t; stats : Totals.t }.
End Result.

Definition reconcileSmart (bank cash : list MappedRow.t) (settings : ReconcileSettings.t)
  : Result.t :=
  let bankSorted := js_sort compareRows bank in
  let cashSorted := js_sort compareRows cash in
  let tol := ReconcileSettings.amountTolerance settings in
  let window := ReconcileSettings.dateWindowDays settings in
  let pairs := js_sort comparePairs (matchAll bankSorted cashSorted tol window) in
  let stats := summarize bankSorted cashSorted pairs in
  Result.mk pairs stats.

(** The matching step of [runReconcile]: the normalized rows go to
    [reconcileSmart] with the settings as they are; [strategy] is not read. *)
Definition reconcile (bn cn : list MappedRow.t) (settings : ReconcileSettings.t)
  : Result.t :=
  reconcileSmart bn cn settings.

(** [runReconcile]: nothing happens unless [canReconcile]; otherwise both
    sides are normalized and reconciled. *)
Definition runReconcile (toISODate : string -> DateFormat -> option (string * string))
           (Number_toString : Q -> string) (canReconcile : bool)
           (bankRows cashRows : list RawRow) (bankMap cashMap : Mapping.t)
           (settings : ReconcileSettings.t) : option Result.t :=
  if negb canReconcile then None
  else
    let bn := normalizeRows toISODate Number_toString bankRows bankMap Bank settings in
    let cn := normalizeRows toISODate Number_toString cashRows cashMap Cashbook settings in
    Some (reconcile bn cn settings).

(** * The advisory suggestions (reconciliation workspace) *)

(** ** Regular expressions of [extractDocNumbers]

    A pattern is a sequence of greedy bounded repetitions of a character
    class, literal characters and word boundaries; matching backtracks as
    the engine of the language does. *)
Inductive atom :=
| Class (p : ascii -> bool) (lo : nat) (hi : option nat)
| Lit (c : ascii)
| WordBoundary.

Definition is_word (c : ascii) : bool :=
  is_upper c || is_lower c || is_digit c || Ascii.eqb c "_".

Definition is_word_opt (o : option ascii) : bool := from_option is_word false o.

Definition head_char (s : string) : option ascii :=
  match s with String c _ => Some c | EmptyString => None end.

Definition below (n : nat) (hi : option nat) : bool :=
  match hi with None => true | Some h => n <? h end.

(** The match of [re] that starts at the head of [s], [prev] being the
    character before it. *)
Fixpoint match_here (re : list atom) (prev : option ascii) (s : string) : option string :=
  match re with
  | [] => Some ""
  | WordBoundary :: re' =>
      if xorb (is_word_opt prev) (is_word_opt (head_char s)) then match_here re' prev s else None
  | Lit c :: re' =>
      match s with
      | String d s' => if Ascii.eqb c d then String d <$> match_here re' (Some d) s' else None
      | EmptyString => None
      end
  | Class p lo hi :: re' =>
      (fix rep (prev : option ascii) (s : string) (n : nat) : option string :=
         let stop := if lo <=? n then match_here re' prev s else None in
         match s with
         | String d s' =>
             if p d && below n hi then
               match rep (Some d) s' (S n) with
               | Some m => Some (String d m)
               | None => stop
               end
             else stop
         | EmptyString => stop
         end) prev s 0
  end.

(** [s.match(re)] with the [g] flag: all matches from left to right, the
    search resuming where the last match ended. *)
Fixpoint match_all (re : list atom) (prev : option ascii) (s : string) (skip : nat)
  : list string :=
  match s with
  | EmptyString =>
      match skip, match_here re prev s with
      | 0, Some m => [m]
      | _, _ => []
      end
  | String c s' =>
      match skip with
      | S k => match_all re (Some c) s' k
      | 0 =>
          match match_here re prev s with
          | Some m => m :: match_all re (Some c) s' (String.length m - 1)
          | None => match_all re (Some c) s' 0
          end
      end
  end.

Definition docPatterns : list (list atom) :=
  [ [Class is_upper 2 (Some 3); Lit "-"; Class is_digit 4 None];
    [Class is_upper 2 (Some 3); Class is_digit 4 None];
    [Class is_digit 4 None; Lit "/"; Class is_digit 2 None];
    [WordBoundary; Class is_digit 5 None; WordBoundary] ].

(** [Array.from(new Set(found))]: first occurrences, in order. *)
Fixpoint dedup_first (seen : list string) (l : list string) : list string :=
  match l with
  | [] => []
  | x :: l' => if bool_decide (x ∈ seen) then dedup_first seen l'
               else x :: dedup_first (x :: seen) l'
  end.

Definition extractDocNumbers (description : string) : list string :=
  let found := flat_map (fun p => match_all p None description 0) docPatterns in
  dedup_first [] found.

(** ** Edit distance *)

(** [costs[j] = v]: an array grows by one when written at its length. *)
Definition array_set (costs : list nat) (j v : nat) : list nat :=
  if j <? length costs then <[j := v]> costs else costs ++ [v].

Definition array_get (costs : list nat) (j : nat) : nat := default 0 (costs !! j).

Definition charAt (s : list ascii) (i : nat) : option ascii := s !! i.

Section EditDistance.
Variables (s1 s2 : list ascii).

(** The body of the inner loop; the state is [costs] and [lastValue]. *)
Definition editInner (i : nat) (st : list nat * nat) (j : nat) : list nat * nat :=
  let '(costs, lastValue) := st in
  if i =? 0 then (array_set costs j j, lastValue)
  else if 0 <? j then
    let newValue := array_get costs (j - 1) in
    let newValue :=
      if negb (bool_decide (charAt s1 (i - 1) = charAt s2 (j - 1)))
      then Nat.min (Nat.min newValue lastValue) (array_get costs j) + 1
      else newValue in
    (array_set costs (j - 1) lastValue, newValue)
  else st.

Definition editOuter (costs : list nat) (i : nat) : list nat :=
  let '(costs, lastValue) := foldl (editInner i) (costs, i) (seq 0 (S (length s2))) in
  if 0 <? i then array_set costs (length s2) lastValue else costs.

Definition editCosts : list nat := foldl editOuter [] (seq 0 (S (length s1))).
End EditDistance.

Definition editDistance (s1 s2 : string) : nat :=
  let s1 := list_ascii_of_string (toLowerCase s1) in
  let s2 := list_ascii_of_string (toLowerCase s2) in
  array_get (editCosts s1 s2) (length s2).

Definition calculateStringSimilarity (s1 s2 : string) : Q :=
  let longer := if String.length s2 <? String.length s1 then s1 else s2 in
  let shorter := if String.length s2 <? String.length s1 then s2 else s1 in
  if String.length longer =? 0 then 1%Q
  else (inject_Z (Z.of_nat (String.length longer) - Z.of_nat (editDistance longer shorter))
        / inject_Z (Z.of_nat (String.length longer)))%Q.

(** ** Records and suggestions *)

Inductive RecordStatus := StMatched | StUnmatched | StPending | StException | StSuggested.

(** The fields of a financial record that the suggestions read. *)
Module FinancialRecord.
Record t := mk {
  id : string;
  source : Source;
  date : string;
  amount : Q;
  description : string;
  reference : option string;
  status : RecordStatus
}.
End FinancialRecord.

Module Suggestion.
Record t := mk {
  id : string;
  bank : FinancialRecord.t;
  cash : FinancialRecord.t;
  confidence : Z;
  reasons : list string
}.
End Suggestion.


(** [l.join(", ")] *)
Fixpoint join (sep : string) (l : list string) : string :=
  match l with
  | [] => ""
  | [x] => x
  | x :: l' => x +:+ sep +:+ join sep l'
  end.

Section Suggestions.
(** [new Date(s).getTime()] in milliseconds, [None] for an invalid date:
    the parser of free-form dates belongs to the host. *)
Variable Date_getTime : string -> option Z.
(** The identifier made from [Date.now()] and [Math.random()] for the
    suggestion pushed after [n] others. *)
Variable suggest_id : nat -> string.
(** [x - y] on two amounts as the double subtraction gives it: for 100 and
    100.1 it is -0.09999999999999432, not a tenth. *)
Variable Number_minus : Q -> Q -> Q.

(** [Math.abs(t1 - t2) / (1000 * 3600 * 24)], [None] being [NaN]. *)
Definition dateDiffOf (bank cash : FinancialRecord.t) : option Q :=
  match Date_getTime (FinancialRecord.date bank), Date_getTime (FinancialRecord.date cash) with
  | Some t1, Some t2 => Some (JS.Math_abs (inject_Z (t1 - t2)) / 86400000)%Q
  | _, _ => None
  end.











End Suggestions.

(** A date-only ISO string is read as midnight UTC by every host; the
    amounts of the sample records are equal, and their difference is 0 in
    doubles as in [Qminus]. *)
Definition isoDate_getTime (s : string) : option Z := utc_midnight s.

Definition mkRecord (id : string) (src : Source) (d : string) (a : Q) (desc : string)
  : FinancialRecord.t :=
  FinancialRecord.mk id src d a desc None StUnmatched.


(** * Predicates used by the statements *)

(** ** The three shapes of a pair *)

Definition matchedPair (b c : MappedRow.t) (amountDiff : Q) (dateDiff : Z) : MatchPair.t :=
  MatchPair.mk ("pair-" +:+ MappedRow.id b +:+ "-" +:+ MappedRow.id c)
               (Some b) (Some c) true amountDiff dateDiff.
Definition bankOnlyPair (b : MappedRow.t) : MatchPair.t :=
  MatchPair.mk ("pair-" +:+ MappedRow.id b +:+ "-none") (Some b) None false (MappedRow.amount b) 0.
Definition cashOnlyPair (c : MappedRow.t) : MatchPair.t :=
  MatchPair.mk ("pair-none-" +:+ MappedRow.id c) None (Some c) false (- MappedRow.amount c)%Q 0.

(** What the engine can push: a candidate within tolerance and window, or a
    lone bank row, or a lone cashbook row. *)
Inductive produced (tol window : Q) : MatchPair.t -> Prop :=
| produced_match b c dd :
    daysBetween (MappedRow.dateISO b) (MappedRow.dateISO c) = Some dd ->
    (Qabs (JS.round2 (MappedRow.amount b - MappedRow.amount c)) <= tol)%Q ->
    (inject_Z dd <= window)%Q ->
    produced tol window
      (matchedPair b c (JS.round2 (MappedRow.amount b - MappedRow.amount c)) dd)
| produced_bank b : produced tol window (bankOnlyPair b)
| produced_cash c : produced tol window (cashOnlyPair c).

(** ** Invariants of the two loops *)

Section EngineInvariants.
Variables (cashSorted : list MappedRow.t) (tol window : Q).

(** Invariant of the inner scan: the best candidate so far, if any, is an
    unused row inside the tolerance and the window. *)
Definition best_ok (usedCash : gset nat) (b : MappedRow.t) (best : Best) : Prop :=
  bestJ best = (-1)%Z ∨
  (∃ j c, bestJ best = Z.of_nat j ∧ cashSorted !! j = Some c ∧ (j ∉ usedCash) ∧
          daysBetween (MappedRow.dateISO b) (MappedRow.dateISO c) = Some (bestDateDiff best) ∧
          bestAmountDiff best = JS.round2 (MappedRow.amount b - MappedRow.amount c) ∧
          (Qabs (bestAmountDiff best) <= tol)%Q ∧
          (inject_Z (bestDateDiff best) <= window)%Q).

(** Invariant of the outer loop; [js] lists the consumed indexes in the
    order of consumption. *)
Definition loop_inv (processed : list MappedRow.t) (st : gset nat * list MatchPair.t) : Prop :=
  ∃ js : list nat,
    NoDup js ∧ st.1 = list_to_set js ∧
    Forall (fun j => j < length cashSorted) js ∧
    omap MatchPair.bank st.2 = processed ∧
    omap MatchPair.cashbook st.2 = omap (fun j => cashSorted !! j) js ∧
    Forall (produced tol window) st.2.
End EngineInvariants.

(** ** The invariant of a pair *)

(** Both sides present, flagged matched, inside tolerance and window. *)
Definition matched_within (tol window : Q) (p : MatchPair.t) : Prop :=
  is_Some (MatchPair.bank p) ∧ is_Some (MatchPair.cashbook p) ∧
  MatchPair.matched p = true ∧
  (Qabs (MatchPair.amountDiff p) <= tol)%Q ∧
  (inject_Z (MatchPair.dateDiffDays p) <= window)%Q.

(** Exactly one side present, flagged unmatched. *)
Definition one_sided (p : MatchPair.t) : Prop :=
  ((is_Some (MatchPair.bank p) ∧ MatchPair.cashbook p = None) ∨
   (MatchPair.bank p = None ∧ is_Some (MatchPair.cashbook p))) ∧
  MatchPair.matched p = false.

(** An amount with at most two decimals. *)
Definition is_cents (x : Q) : Prop := ∃ k : Z, (x == inject_Z k / 100)%Q.

(** ** The amount difference of a pair *)

(** The amount difference as the data model words it: bank minus cashbook,
    or the lone side's amount with its sign. *)
Definition amountDiff_as_specified (p : MatchPair.t) : Prop :=
  match MatchPair.bank p, MatchPair.cashbook p with
  | Some b, Some c => (MatchPair.amountDiff p == MappedRow.amount b - MappedRow.amount c)%Q
  | Some b, None => (MatchPair.amountDiff p == MappedRow.amount b)%Q
  | None, Some c => (MatchPair.amountDiff p == MappedRow.amount c)%Q
  | None, None => True
  end.

(** The amount difference as the engine computes it: bank minus cashbook
    rounded to two decimals (the difference itself for amounts with two
    decimals), where an absent side counts as nothing. *)
Definition amountDiff_as_computed (p : MatchPair.t) : Prop :=
  match MatchPair.bank p, MatchPair.cashbook p with
  | Some b, Some c =>
      MatchPair.amountDiff p = JS.round2 (MappedRow.amount b - MappedRow.amount c) ∧
      (is_cents (MappedRow.amount b) -> is_cents (MappedRow.amount c) ->
       (MatchPair.amountDiff p == MappedRow.amount b - MappedRow.amount c)%Q)
  | Some b, None => MatchPair.amountDiff p = MappedRow.amount b
  | None, Some c => MatchPair.amountDiff p = (- MappedRow.amount c)%Q
  | None, None => False
  end.

Definition cash100 : MappedRow.t :=
  MappedRow.mk "cashbook-0" Cashbook 0 "05/01/2024" "2024-01-05" 100 "Rent" ∅.

(** The identifier of a pair is a function of its two sides. *)
Definition pairId (p : MatchPair.t) : string :=
  "pair-" +:+ from_option MappedRow.id "none" (MatchPair.bank p) +:+
  match MatchPair.bank p, MatchPair.cashbook p with
  | Some _, Some c => "-" +:+ MappedRow.id c
  | Some _, None => "-none"
  | None, Some c => "-" +:+ MappedRow.id c
  | None, None => ""
  end.

(** ** What the language asks of a sort

    The algorithm behind [Array.prototype.sort] is the host's.  For a
    comparator that is a consistent ordering the result [l'] of sorting [l]
    is a permutation of [l] in the comparator's order, in which the elements
    that compare equal to one another keep the order they have in [l]. *)
Definition consistent {A} (cmp : A -> A -> Q) : Prop :=
  (∀ x y, (cmp x y <= 0)%Q ∨ (cmp y x <= 0)%Q) ∧
  (∀ x y z, (cmp x y <= 0)%Q -> (cmp y z <= 0)%Q -> (cmp x z <= 0)%Q) ∧
  (∀ x y, (cmp x y <= 0)%Q -> (cmp y x <= 0)%Q -> (cmp x y == 0)%Q) ∧
  (∀ x y, (cmp x y == 0)%Q -> (cmp y x <= 0)%Q).

Definition host_sorts {A} (cmp : A -> A -> Q) (l l' : list A) : Prop :=
  l' ≡ₚ l ∧
  StronglySorted (fun x y => (cmp x y <= 0)%Q) l' ∧
  ∀ x, filter (fun y => JS.eqb (cmp x y) 0 = true) l'
       = filter (fun y => JS.eqb (cmp x y) 0 = true) l.

(** A run of [reconcileSmart] on some host: each of its three sorts is any
    sort the language allows; the loops between them are the code's. *)
Inductive reconcileSmart_on_host (bank cash : list MappedRow.t)
          (settings : ReconcileSettings.t) : Result.t -> Prop :=
| host_run bankSorted cashSorted pairs :
    host_sorts compareRows bank bankSorted ->
    host_sorts compareRows cash cashSorted ->
    host_sorts comparePairs
      (matchAll bankSorted cashSorted (ReconcileSettings.amountTolerance settings)
                (ReconcileSettings.dateWindowDays settings)) pairs ->
    reconcileSmart_on_host bank cash settings
      (Result.mk pairs (summarize bankSorted cashSorted pairs)).

(** ** The strategy setting *)

(** The settings with tolerance and window forced to zero. *)
Definition exact_settings (s : ReconcileSettings.t) : ReconcileSettings.t :=
  ReconcileSettings.mk 0 0 (ReconcileSettings.dateFormat s) (ReconcileSettings.currency s)
                       (ReconcileSettings.strategy s).

Definition bankJan5 : MappedRow.t :=
  MappedRow.mk "bank-0" Bank 0 "05/01/2024" "2024-01-05" 100 "Invoice 123" ∅.
Definition cashJan8 : MappedRow.t :=
  MappedRow.mk "cashbook-0" Cashbook 0 "08/01/2024" "2024-01-08" 100 "INV 123 payment" ∅.
Definition strictWindow3 : ReconcileSettings.t :=
  ReconcileSettings.mk 0 3 FmtAuto "USD" Strict.
Definition strictExact : ReconcileSettings.t :=
  ReconcileSettings.mk 0 0 FmtAuto "USD" Strict.

(** [parseAmount raw] is the number [v]. *)
Definition parses_to (raw : string) (v : Q) : Prop :=
  ∃ q, parseAmount (Str raw) = Some q ∧ (q == v)%Q.






(** ** What the suggestions are *)


Section SuggestionSpec.
Variable Date_getTime : string -> option Z.
Variable Number_minus : Q -> Q -> Q.



End SuggestionSpec.

(** * Further parts of the program

    Beyond the matching core the development embeds the validator
    ([validateDataset]), the date parser ([toISODate] with its [fromParts]),
    the pagination ([usePagination]), the gate of [runReconcile]
    ([canReconcile]), the store of records and matches ([createMatch],
    [removeMatch], [logAction]) with the handlers of the workspace
    ([handleAutoMatch], [handleManualMatch], [handleUnmatch]) and the
    permissions ([hasPermission], [login]).  Again what belongs to the host
    is a parameter: the floating point comparison behind the rate warnings
    of the validator, the free-form [new Date(s)] that [toISODate] falls back
    to, and the clock and random numbers behind the ids of the matches. *)

(** ** Statements about the engine *)

(** The score of [c] as a candidate for [b]; [None] when [c] is outside the
    tolerance or the window. *)
Definition candidateScore (tol window : Q) (b c : MappedRow.t) : option Q :=
  match daysBetween (MappedRow.dateISO b) (MappedRow.dateISO c) with
  | None => None
  | Some dateDiff =>
      let amountDiff := JS.round2 (MappedRow.amount b - MappedRow.amount c) in
      if JS.leb (JS.Math_abs amountDiff) tol && JS.leb (inject_Z dateDiff) window
      then Some (inject_Z dateDiff * 1000 + JS.Math_abs amountDiff * 100
                 + inject_Z (descriptionScore (MappedRow.description b)
                                              (MappedRow.description c)))%Q
      else None
  end.

(** The display order: by date, then by amount. *)
Definition pair_le (p q : MatchPair.t) : Prop :=
  String.compare (pairDate p) (pairDate q) = Lt ∨
  (pairDate p = pairDate q ∧ (pairAmount p <= pairAmount q)%Q).

Section GreedyInvariant.
Variables (cashSorted : list MappedRow.t) (tol window : Q).

(** Invariant of the scan after the indexes below [k], the scores being
    taken exactly: the best candidate is the first one of least score among
    the unused rows. *)
Definition best_min (usedCash : gset nat) (b : MappedRow.t) (k : nat) (best : Best) : Prop :=
  (bestJ best = (-1)%Z ∧ bestScore best = None ∧
   ∀ j c, j < k -> cashSorted !! j = Some c -> j ∉ usedCash ->
          candidateScore tol window b c = None) ∨
  (∃ j c s, bestJ best = Z.of_nat j ∧ bestScore best = Some s ∧ j < k ∧
            cashSorted !! j = Some c ∧ (j ∉ usedCash) ∧
            candidateScore tol window b c = Some s ∧
            ∀ j' c' s', j' < k -> cashSorted !! j' = Some c' -> j' ∉ usedCash ->
                        candidateScore tol window b c' = Some s' ->
                        (s <= s')%Q ∧ (j' < j -> (s < s')%Q)).

(** Invariant of the outer loop: a bank row recorded alone has no candidate
    among the rows still unused. *)
Definition alone_inv (st : gset nat * list MatchPair.t) : Prop :=
  Forall (fun p => is_Some (MatchPair.bank p)) st.2 ∧
  ∀ p b, p ∈ st.2 -> MatchPair.bank p = Some b -> MatchPair.cashbook p = None ->
         ∀ j c, cashSorted !! j = Some c -> j ∉ st.1 ->
                candidateScore tol window b c = None.
End GreedyInvariant.

(** * Validation (part_001, [validateDataset]) *)

Module ParseResult.
Record t := mk { headers : list string; rows : list RawRow }.
End ParseResult.

Inductive IssueType := IssueError | IssueWarning.

Module ValidationIssue.
Record t := mk { type : IssueType; message : string }.
End ValidationIssue.

Module ValidationStats.
Record t := mk { totalRows : nat; invalidDate : nat; invalidAmount : nat; emptyRows : nat }.
End ValidationStats.

Module ValidationReport.
Record t := mk { ok : bool; issues : list ValidationIssue.t; stats : ValidationStats.t }.
End ValidationReport.

(** [(mapping as any)[key]] for the three keys the validator asks for. *)
Inductive RequiredKey := KeyDate | KeyAmount | KeyDebit | KeyCredit.

Definition key_name (k : RequiredKey) : string :=
  match k with
  | KeyDate => "date" | KeyAmount => "amount" | KeyDebit => "debit" | KeyCredit => "credit"
  end.

Definition mapping_get (m : Mapping.t) (k : RequiredKey) : string :=
  match k with
  | KeyDate => Mapping.date m
  | KeyAmount => Mapping.amount m
  | KeyDebit => Mapping.debit m
  | KeyCredit => Mapping.credit m
  end.

Definition is_blank_cell (v : Cell) : bool :=
  match v with
  | Str "" | Null | Undefined => true
  | _ => false
  end.

Section Validator.
Variable toISODate : string -> DateFormat -> option (string * string).
Variable Number_toString : Q -> string.
(** [(n / totalRows) * 100 > 10] in the host's floating point arithmetic. *)
Variable rate_high : nat -> nat -> bool.

Definition requiredKeys (mapping : Mapping.t) : list RequiredKey :=
  [KeyDate] ++ match Mapping.mode mapping with
               | ModeAmount => [KeyAmount]
               | ModeDebitCredit => [KeyDebit; KeyCredit]
               end.

(** [!col || !parsed.headers.includes(col)] *)
Definition is_missing (parsed : ParseResult.t) (mapping : Mapping.t) (k : RequiredKey) : bool :=
  let col := mapping_get mapping k in
  negb (truthy col) || negb (bool_decide (col ∈ ParseResult.headers parsed)).

Definition missingKeys (parsed : ParseResult.t) (mapping : Mapping.t) : list RequiredKey :=
  filter (fun k => is_missing parsed mapping k = true) (requiredKeys mapping).

Definition dateOk (mapping : Mapping.t) (settings : ReconcileSettings.t) (r : RawRow) : bool :=
  let dv := cell_text Number_toString (row_get r (Mapping.date mapping)) in
  bool_decide (is_Some (toISODate dv (ReconcileSettings.dateFormat settings))).

Definition amountOk (mapping : Mapping.t) (r : RawRow) : bool :=
  match Mapping.mode mapping with
  | ModeAmount =>
      if truthy (Mapping.amount mapping)
      then bool_decide (is_Some (parseAmount (row_get r (Mapping.amount mapping))))
      else false
  | ModeDebitCredit =>
      let d := parseAmount (row_get r (or_else (Mapping.debit mapping) "")) in
      let c := parseAmount (row_get r (or_else (Mapping.credit mapping) "")) in
      bool_decide (is_Some d) || bool_decide (is_Some c)
  end.

(** [!dv && Object.values(r).every(...)] *)
Definition emptyRow (mapping : Mapping.t) (r : RawRow) : bool :=
  let dv := cell_text Number_toString (row_get r (Mapping.date mapping)) in
  negb (truthy dv) && forallb is_blank_cell (snd <$> map_to_list r).

(** The body of the loop over the sample; the state is the three counters. *)
Definition countRow (mapping : Mapping.t) (settings : ReconcileSettings.t)
           (st : nat * nat * nat) (r : RawRow) : nat * nat * nat :=
  let '(invalidDate, invalidAmount, emptyRows) := st in
  let invalidDate := if dateOk mapping settings r then invalidDate else S invalidDate in
  let invalidAmount := if amountOk mapping r then invalidAmount else S invalidAmount in
  let emptyRows := if emptyRow mapping r then S emptyRows else emptyRows in
  (invalidDate, invalidAmount, emptyRows).

Definition validateDataset (parsed : option ParseResult.t) (mapping : option Mapping.t)
           (settings : ReconcileSettings.t) : option ValidationReport.t :=
  match parsed, mapping with
  | Some parsed, Some mapping =>
      let missing := missingKeys parsed mapping in
      let issues :=
        if 0 <? length missing
        then [ValidationIssue.mk IssueError
                ("Missing required columns: " +:+ join ", " (key_name <$> missing))]
        else [] in
      let sample := take (Nat.min (length (ParseResult.rows parsed)) 1000)
                         (ParseResult.rows parsed) in
      let '(invalidDate, invalidAmount, emptyRows) :=
        foldl (countRow mapping settings) (0, 0, 0) sample in
      let totalRows := if length sample =? 0 then 1 else length sample in
      let issues :=
        if rate_high invalidDate totalRows
        then issues ++ [ValidationIssue.mk IssueWarning
                          ("High invalid date rate: " +:+ pretty invalidDate +:+ "/"
                           +:+ pretty totalRows +:+ " rows. Check Date format.")]
        else issues in
      let issues :=
        if rate_high invalidAmount totalRows
        then issues ++ [ValidationIssue.mk IssueWarning
                          ("High invalid amount rate: " +:+ pretty invalidAmount +:+ "/"
                           +:+ pretty totalRows +:+ " rows. Check Amount mapping.")]
        else issues in
      let ok :=
        forallb (fun i => match ValidationIssue.type i with
                          | IssueWarning => true | IssueError => false end) issues
        && (length missing =? 0) in
      Some (ValidationReport.mk ok issues
              (ValidationStats.mk totalRows invalidDate invalidAmount emptyRows))
  | _, _ => None
  end.
End Validator.

(** What the validator asks of the mapping: the date column and, by mode,
    the amount column or both the debit and the credit column, each named
    and among the headers. *)
Definition column_present (parsed : ParseResult.t) (col : string) : Prop :=
  truthy col = true ∧ col ∈ ParseResult.headers parsed.

Definition required_present (parsed : ParseResult.t) (mapping : Mapping.t) : Prop :=
  column_present parsed (Mapping.date mapping) ∧
  match Mapping.mode mapping with
  | ModeAmount => column_present parsed (Mapping.amount mapping)
  | ModeDebitCredit =>
      column_present parsed (Mapping.debit mapping) ∧
      column_present parsed (Mapping.credit mapping)
  end.

(** What [normalizeRows] makes of the row [r] at index [i]. *)
Definition normalizeOne (toISODate : string -> DateFormat -> option (string * string))
           (Number_toString : Q -> string) (map : Mapping.t) (src : Source)
           (settings : ReconcileSettings.t) (i : nat) (r : RawRow) : option MappedRow.t :=
  match toISODate (cell_text Number_toString (row_get r (Mapping.date map)))
                  (ReconcileSettings.dateFormat settings) with
  | None => None
  | Some (iso, dateStr) =>
      match rowAmount r map with
      | None => None
      | Some amount =>
          Some (MappedRow.mk (source_name src +:+ "-" +:+ pretty i) src i dateStr iso amount
                  (or_else (cell_text Number_toString
                              (row_get r (or_else (Mapping.description map) ""))) "") r)
      end
  end.

(** A transaction that comes from the row at its index. *)
Definition from_row (rows : list RawRow) (map : Mapping.t) (src : Source) (t : MappedRow.t)
  : Prop :=
  rows !! MappedRow.index t = Some (MappedRow.raw t) ∧
  MappedRow.source t = src ∧
  MappedRow.id t = source_name src +:+ "-" +:+ pretty (MappedRow.index t) ∧
  rowAmount (MappedRow.raw t) map = Some (MappedRow.amount t).

(** * Date parsing (part_001, [toISODate]) *)

(** The calendar date of a day number (days since 1970-01-01), as
    [getUTCFullYear], [getUTCMonth() + 1] and [getUTCDate] read it. *)
Definition civil_of_doe (doe : Z) : Z * Z * Z :=
  (let yoe := (doe - doe / 1460 + doe / 36524 - doe / 146096) / 365 in
   let doy := doe - (365 * yoe + yoe / 4 - yoe / 100) in
   let mp := (5 * doy + 2) / 153 in
   let d := doy - (153 * mp + 2) / 5 + 1 in
   let m := if mp <? 10 then mp + 3 else mp - 9 in
   (if m <=? 2 then yoe + 1 else yoe, m, d))%Z.

Definition civil_from_days (z : Z) : Z * Z * Z :=
  (let z' := z + 719468 in
   let era := z' / 146097 in
   let '(y, m, d) := civil_of_doe (z' - era * 146097) in
   (y + era * 400, m, d))%Z.

(** [Date.UTC(year, monthIndex, date)] as a day number: years 0 to 99 are
    1900 to 1999, months and days outside their range carry over; [None]
    is the [NaN] of a time outside the range of [Date]. *)
Definition Date_UTC_day (year monthIndex date : Z) : option Z :=
  (let yr := if (0 <=? year) && (year <=? 99) then 1900 + year else year in
   let ym := yr + monthIndex / 12 in
   let mn := monthIndex mod 12 in
   let day := days_from_civil ym (mn + 1) 1 + date - 1 in
   if Z.abs day <=? 100000000 then Some day else None)%Z.

(** [pad]: two digits for a number below ten. *)
Definition pad (n : Z) : string :=
  if (n <? 10)%Z then "0" +:+ pretty n else pretty n.

(** [fromParts] of [toISODate]. *)
Definition fromParts (y m d : Z) : option (string * string) :=
  match Date_UTC_day y (m - 1) d with
  | None => None
  | Some day =>
      let '(Y, M, D) := civil_from_days day in
      Some (pretty Y +:+ "-" +:+ pad M +:+ "-" +:+ pad D,
            pad d +:+ "/" +:+ pad m +:+ "/" +:+ pretty Y)
  end.

Definition is_date_sep (c : ascii) : bool := Ascii.eqb c "-" || Ascii.eqb c "/".

(** Three runs of digits with a separator between them and nothing after:
    the values and the lengths of the runs. *)
Definition three_runs (s : string) : option ((Z * nat) * (Z * nat) * (Z * nat)) :=
  let '(a, na, r1) := take_digits s 0 0 in
  match r1 with
  | String c1 r2 =>
      if is_date_sep c1 then
        let '(b, nb, r3) := take_digits r2 0 0 in
        match r3 with
        | String c2 r4 =>
            if is_date_sep c2 then
              let '(c, nc, r5) := take_digits r4 0 0 in
              match r5 with
              | EmptyString => Some ((a, na), (b, nb), (c, nc))
              | _ => None
              end
            else None
        | EmptyString => None
        end
      else None
  | EmptyString => None
  end.

Definition one_or_two (n : nat) : bool := (1 <=? n) && (n <=? 2).

(** [/^(\d{4})[-\/](\d{1,2})[-\/](\d{1,2})$/]: year, month, day. *)
Definition match_ymd (s : string) : option (Z * Z * Z) :=
  match three_runs s with
  | Some ((y, ny), (m, nm), (d, nd)) =>
      if (ny =? 4) && one_or_two nm && one_or_two nd then Some (y, m, d) else None
  | None => None
  end.

(** [/^(\d{1,2})[\/\-](\d{1,2})[\/\-](\d{4})$/]: the three groups in order. *)
Definition match_xxy (s : string) : option (Z * Z * Z) :=
  match three_runs s with
  | Some ((a, na), (b, nb), (y, ny)) =>
      if one_or_two na && one_or_two nb && (ny =? 4) then Some (a, b, y) else None
  | None => None
  end.

Section ToISODate.
(** [new Date(s)] for the free-form fallback: [getFullYear], [getMonth] and
    [getDate] of the parsed date in local time, [None] for an invalid
    date. *)
Variable Date_local : string -> option (Z * Z * Z).

Definition toISODate (input : string) (fmt : DateFormat) : option (string * string) :=
  let s := trim (or_else input "") in
  if negb (truthy s) then None
  else
    match fmt with
    | FmtYMD =>
        match match_ymd s with
        | None => None
        | Some (y, m, d) => fromParts y m d
        end
    | FmtDMY =>
        match match_xxy s with
        | None => None
        | Some (d, m, y) => fromParts y m d
        end
    | FmtMDY =>
        match match_xxy s with
        | None => None
        | Some (m, d, y) => fromParts y m d
        end
    | FmtAuto =>
        match match_ymd s with
        | Some (y, m, d) => fromParts y m d
        | None =>
            match match_xxy s with
            | Some (d, m, y) => fromParts y m d
            | None =>
                match Date_local s with
                | Some (y, mIdx, d) => fromParts y (mIdx + 1) d
                | None => None
                end
            end
        end
    end.
End ToISODate.

(** A host without the free-form fallback. *)
Definition no_Date_local (s : string) : option (Z * Z * Z) := None.

(** A small debit/credit ledger: a dated withdrawal, a dated row without
    figures, and a row without a date. *)
Definition ledgerRows : list RawRow :=
  [ {[ "Date" := Str "2024-01-05"; "Debit" := Str "10.50"; "Credit" := Str "" ]};
    {[ "Date" := Str "2024-01-06"; "Debit" := Str ""; "Credit" := Str "" ]};
    {[ "Date" := Str "n/a"; "Debit" := Str ""; "Credit" := Str "7" ]} ].

Definition ledger : ParseResult.t := ParseResult.mk ["Date"; "Debit"; "Credit"] ledgerRows.

Definition ledgerMapping : Mapping.t :=
  Mapping.mk ModeDebitCredit "Date" "" "Debit" "Credit" "" CreditPositive.

(** A small statement with one amount column: two good rows, a row
    without a date and a row without an amount. *)
Definition statementRows : list RawRow :=
  [ {[ "Date" := Str "2024-01-05"; "Amount" := Str "10.50" ]};
    {[ "Date" := Str "n/a"; "Amount" := Str "7" ]};
    {[ "Date" := Str "2024-01-07"; "Amount" := Str "" ]};
    {[ "Date" := Str "2024-01-08"; "Amount" := Str "-3.20" ]} ].

Definition statement : ParseResult.t := ParseResult.mk ["Date"; "Amount"] statementRows.

Definition statementMapping : Mapping.t :=
  Mapping.mk ModeAmount "Date" "Amount" "" "" "" CreditPositive.

(** Hosts for the concrete runs: numbers print as nothing (the files hold
    strings only), and the rate test is computed exactly; the double
    computation gives the same answers away from a rate of ten percent, as
    at the rates of the runs (0 of 1, 1 of 3 and 1 of 4 rows). *)
Definition no_Number_toString (x : Q) : string := "".
Definition rate_above_ten (n total : nat) : bool :=
  JS.ltb 10 (inject_Z (Z.of_nat n) / inject_Z (Z.of_nat total) * 100).

Definition ledgerReport : ValidationReport.t :=
  ValidationReport.mk true
    [ ValidationIssue.mk IssueWarning "High invalid date rate: 1/3 rows. Check Date format.";
      ValidationIssue.mk IssueWarning
        "High invalid amount rate: 1/3 rows. Check Amount mapping." ]
    (ValidationStats.mk 3 1 1 0).

Definition statementReport : ValidationReport.t :=
  ValidationReport.mk true
    [ ValidationIssue.mk IssueWarning "High invalid date rate: 1/4 rows. Check Date format.";
      ValidationIssue.mk IssueWarning
        "High invalid amount rate: 1/4 rows. Check Amount mapping." ]
    (ValidationStats.mk 4 1 1 0).

(** Checks of the calendar arithmetic, run over one cycle of 400 years.
    [forallZ f n z]: [f] holds at the [n] integers from [z] on. *)
Fixpoint forallZ (f : Z -> bool) (n : nat) (z : Z) : bool :=
  match n with
  | O => true
  | S n' => f z && forallZ f n' (z + 1)%Z
  end.

Definition valid_date (y m d : Z) : bool :=
  ((1 <=? m) && (m <=? 12) && (1 <=? d) && (d <=? days_in_month y m))%Z.

Definition doe_check (doe : Z) : bool :=
  let '(y, m, d) := civil_of_doe doe in
  (valid_date y m d && (days_from_civil y m d =? doe - 719468) && (0 <=? y) && (y <=? 400))%Z.

Definition civil_check (y : Z) : bool :=
  forallZ (fun m =>
    forallZ (fun d =>
      negb (valid_date y m d) ||
      (let '(y', m', d') := civil_from_days (days_from_civil y m d) in
       (y' =? y) && (m' =? m) && (d' =? d))%Z)
      31 1%Z)
    12 1%Z.

(** The digits of a string of four, and of two, characters. *)
Definition four_digits (s : string) : option Z :=
  match s with
  | String a (String b (String c (String d ""))) => digits_val [a; b; c; d] 0
  | _ => None
  end.

Definition two_digits (s : string) : option Z :=
  match s with
  | String a (String b "") => digits_val [a; b] 0
  | _ => None
  end.

(** The days of the years 1000 to 9999, which print with four digits. *)
Definition four_digit_year (day : Z) : Prop :=
  let '(Y, _, _) := civil_from_days day in (1000 <= Y <= 9999)%Z.

(** The two strings [fromParts] writes for a date. *)
Definition isoString (Y M D : Z) : string := pretty Y +:+ "-" +:+ pad M +:+ "-" +:+ pad D.
Definition dmyString (Y m d : Z) : string := pad d +:+ "/" +:+ pad m +:+ "/" +:+ pretty Y.

(** Headers without any of the names the mapper looks for. *)
Definition plainHeaders : list string := ["Ref"; "Info"].

(** A token of [tokenize]: a non-empty word of the letters a-z and the
    digits. *)
Definition word_char (c : ascii) : bool := is_lower c || is_digit c.
Definition is_token (t : string) : Prop :=
  truthy t = true ∧ existsb_char (fun c => negb (word_char c)) t = false.

(** * Pagination (part_001, [usePagination]) *)

(** [items.slice(start, end)]: a negative index counts from the end. *)
Definition slice {A} (items : list A) (start stop : Z) : list A :=
  let len := Z.of_nat (length items) in
  let from := if (start <? 0)%Z then Z.max (len + start) 0 else Z.min start len in
  let to := if (stop <? 0)%Z then Z.max (len + stop) 0 else Z.min stop len in
  take (Z.to_nat (to - from)) (drop (Z.to_nat from) items).

Module Pagination.
Section Pagination.
Context {A : Type}.
Variable items : list A.
Variable pageSize : Z.

(** [Math.max(1, Math.ceil(items.length / pageSize))] *)
Definition pageCount : Z :=
  Z.max 1 (Qceiling (inject_Z (Z.of_nat (length items)) / inject_Z pageSize)).

(** The rows shown on a page. *)
Definition data (page : Z) : list A :=
  slice items ((page - 1) * pageSize) (page * pageSize).

(** The page after [next], [prev] and [go(p)]. *)
Definition next (page : Z) : Z := Z.min pageCount (page + 1).
Definition prev (page : Z) : Z := Z.max 1 (page - 1).
Definition go (p : Z) : Z := Z.min (Z.max 1 p) pageCount.
End Pagination.
End Pagination.

(** * The Levenshtein table

    The textbook recurrence for the edit distance of the first [i]
    characters of [s1] and the first [j] characters of [s2]: deleting,
    inserting or replacing a character costs one. *)
Fixpoint levenshtein (s1 s2 : list ascii) (i : nat) : nat -> nat :=
  match i with
  | 0 => fun j => j
  | S i' =>
      fix row (j : nat) : nat :=
        match j with
        | 0 => S i'
        | S j' =>
            if bool_decide (s1 !! i' = s2 !! j') then levenshtein s1 s2 i' j'
            else Nat.min (Nat.min (levenshtein s1 s2 i' j') (row j'))
                         (levenshtein s1 s2 i' (S j')) + 1
        end
  end.

(** The state of the inner loop of [editDistance] in row [i + 1], before it
    visits column [k]: the columns before [k - 1] hold the new row, the
    others the row above, and [lastValue] is the new value at [k - 1]. *)
Definition inner_inv (s1 s2 : list ascii) (i k : nat) (st : list nat * nat) : Prop :=
  length st.1 = S (length s2) ∧
  st.2 = levenshtein s1 s2 (S i) (k - 1) ∧
  (∀ x, x < k - 1 -> st.1 !! x = Some (levenshtein s1 s2 (S i) x)) ∧
  (∀ x, k - 1 ≤ x ≤ length s2 -> st.1 !! x = Some (levenshtein s1 s2 i x)).

(** * Users and permissions (auth-context) *)

Inductive UserRole := Admin | Reconciler | Viewer.

Module User.
Record t := mk {
  id : string;
  name : string;
  email : string;
  role : UserRole;
  permissions : list string
}.
End User.

Definition ROLE_PERMISSIONS (r : UserRole) : list string :=
  match r with
  | Admin => ["read"; "write"; "delete"; "manage_users"; "close_periods"; "view_audit";
              "export_audit"]
  | Reconciler => ["read"; "write"; "match"; "unmatch"; "export_data"; "view_reports"]
  | Viewer => ["read"; "view_reports"]
  end.

Definition MOCK_USERS : list User.t :=
  [ User.mk "1" "Admin User" "admin@company.com" Admin (ROLE_PERMISSIONS Admin);
    User.mk "2" "John Reconciler" "john@company.com" Reconciler (ROLE_PERMISSIONS Reconciler);
    User.mk "3" "Jane Viewer" "jane@company.com" Viewer (ROLE_PERMISSIONS Viewer) ].

(** [user?.permissions.includes(permission) ?? false] *)
Definition hasPermission (user : option User.t) (permission : string) : bool :=
  match user with
  | Some u => bool_decide (permission ∈ User.permissions u)
  | None => false
  end.

(** [login]: the user found for the email, whatever the password. *)
Definition login (email password : string) : option User.t :=
  List.find (fun u => String.eqb (User.email u) email) MOCK_USERS.

(** * The store of records and matches (part_004) *)

(** A record of the store: the fields the suggestions read, and
    [matchedWith].  The other fields of a record are carried along
    unchanged by everything modelled here. *)
Module StoredRecord.
Record t := mk { fields : FinancialRecord.t; matchedWith : option (list string) }.
Definition id (r : t) : string := FinancialRecord.id (fields r).
Definition source (r : t) : Source := FinancialRecord.source (fields r).
Definition amount (r : t) : Q := FinancialRecord.amount (fields r).
Definition status (r : t) : RecordStatus := FinancialRecord.status (fields r).
End StoredRecord.

(** [{ ...r, status, matchedWith }] *)
Definition with_status (st : RecordStatus) (mw : option (list string)) (r : StoredRecord.t)
  : StoredRecord.t :=
  let f := StoredRecord.fields r in
  StoredRecord.mk
    (FinancialRecord.mk (FinancialRecord.id f) (FinancialRecord.source f)
       (FinancialRecord.date f) (FinancialRecord.amount f) (FinancialRecord.description f)
       (FinancialRecord.reference f) st)
    mw.

Inductive MatchType := TypeAuto | TypeManual | TypeSuggested.

Module AppMatch.
Record t := mk {
  id : string;
  bankRecords : list StoredRecord.t;
  cashbookRecords : list StoredRecord.t;
  matchType : MatchType;
  confidence : Z;
  amountDiff : Q;
  dateDiff : Z;
  status : RecordStatus;
  createdAt : string;
  createdBy : string
}.
End AppMatch.

(** An entry of the audit log, without its random id, its time stamp and
    the free-form record of the changes. *)
Module AuditLog.
Record t := mk {
  userId : string;
  userName : string;
  action : string;
  entity : string;
  entityId : string
}.
End AuditLog.

Module AppState.
Record t := mk {
  records : list StoredRecord.t;
  matches : list AppMatch.t;
  auditLogs : list AuditLog.t
}.
End AppState.

Definition logAction (user : option User.t) (action entity entityId : string)
           (st : AppState.t) : AppState.t :=
  match user with
  | None => st
  | Some u =>
      AppState.mk (AppState.records st) (AppState.matches st)
        (AuditLog.mk (User.id u) (User.name u) action entity entityId :: AppState.auditLogs st)
  end.

Definition confidenceOf (type : MatchType) : Z :=
  match type with TypeManual => 100 | TypeSuggested => 75 | TypeAuto => 85 end%Z.

(** [createMatch].  [records] is the list of records the component was
    rendered with, which the function reads for the two sides of the match;
    the updates of the state are functions of the state they find.  The id
    made from the clock and a random number, and the time stamp, are
    given. *)
Definition createMatch (records : list StoredRecord.t) (user : option User.t)
           (id now : string) (bankIds cashbookIds : list string) (type : MatchType)
           (st : AppState.t) : AppState.t :=
  let bankRecords := filter (fun r => StoredRecord.id r ∈ bankIds) records in
  let cashbookRecords := filter (fun r => StoredRecord.id r ∈ cashbookIds) records in
  let m :=
    AppMatch.mk id bankRecords cashbookRecords type (confidenceOf type)
      (sum_amounts StoredRecord.amount bankRecords
       - sum_amounts StoredRecord.amount cashbookRecords)%Q
      0 StMatched now
      (or_else (from_option User.id "" user) "unknown") in
  let allIds := bankIds ++ cashbookIds in
  logAction user "CREATE" "match" id
    (AppState.mk
       ((fun r => if bool_decide (StoredRecord.id r ∈ allIds)
                  then with_status StMatched (Some [id]) r else r) <$> AppState.records st)
       (AppState.matches st ++ [m])
       (AppState.auditLogs st)).

(** [removeMatch]; [matches] is the list of matches the component was
    rendered with. *)
Definition removeMatch (matches : list AppMatch.t) (user : option User.t)
           (matchId : string) (st : AppState.t) : AppState.t :=
  match List.find (fun m => String.eqb (AppMatch.id m) matchId) matches with
  | None => st
  | Some m =>
      let allRecordIds :=
        (StoredRecord.id <$> AppMatch.bankRecords m)
        ++ (StoredRecord.id <$> AppMatch.cashbookRecords m) in
      logAction user "DELETE" "match" matchId
        (AppState.mk
           ((fun r => if bool_decide (StoredRecord.id r ∈ allRecordIds)
                      then with_status StUnmatched None r else r) <$> AppState.records st)
           (filter (fun m => AppMatch.id m ≠ matchId) (AppState.matches st))
           (AppState.auditLogs st))
  end.

(** * Matching in the workspace (reconciliation-workspace.tsx) *)

Section Workspace.
Variable Date_getTime : string -> option Z.
(** The id of the match created when the store holds [n] matches, and the
    time. *)
Variable match_id : nat -> string.
Variable now : string.

Definition has_status (s : RecordStatus) (r : StoredRecord.t) : bool :=
  match StoredRecord.status r, s with
  | StMatched, StMatched | StUnmatched, StUnmatched | StPending, StPending
  | StException, StException | StSuggested, StSuggested => true
  | _, _ => false
  end.

Definition has_source (s : Source) (r : StoredRecord.t) : bool :=
  match StoredRecord.source r, s with
  | Bank, Bank | Cashbook, Cashbook => true
  | _, _ => false
  end.

(** [amountDiff <= amountTolerance && dateDiff <= dateTolerance] *)
Definition potentialMatch (amountTolerance dateTolerance : Q)
           (bankRecord cashRecord : StoredRecord.t) : bool :=
  JS.leb (JS.Math_abs (StoredRecord.amount bankRecord - StoredRecord.amount cashRecord))
         amountTolerance
  && match dateDiffOf Date_getTime (StoredRecord.fields bankRecord)
                      (StoredRecord.fields cashRecord) with
     | Some dateDiff => JS.leb dateDiff dateTolerance
     | None => false
     end.

(** The body of the [forEach] of [handleAutoMatch]. *)
Definition autoMatchOne (records : list StoredRecord.t) (user : option User.t)
           (amountTolerance dateTolerance : Q) (unmatchedCashbook : list StoredRecord.t)
           (st : AppState.t) (bankRecord : StoredRecord.t) : AppState.t :=
  match filter (fun c => potentialMatch amountTolerance dateTolerance bankRecord c = true)
               unmatchedCashbook with
  | [c] =>
      createMatch records user (match_id (length (AppState.matches st))) now
                  [StoredRecord.id bankRecord] [StoredRecord.id c] TypeAuto st
  | _ => st
  end.

(** [handleAutoMatch]; [visible] is [filteredRecords], the records on view. *)
Definition handleAutoMatch (records visible : list StoredRecord.t) (user : option User.t)
           (amountTolerance dateTolerance : Q) (st : AppState.t) : AppState.t :=
  if negb (hasPermission user "match") then st
  else
    let bankRecords := filter (fun r => has_source Bank r = true) visible in
    let cashbookRecords := filter (fun r => has_source Cashbook r = true) visible in
    let unmatchedBank := filter (fun r => has_status StUnmatched r = true) bankRecords in
    let unmatchedCashbook :=
      filter (fun r => has_status StUnmatched r = true) cashbookRecords in
    logAction user "AUTO_MATCH" "records" "bulk"
      (foldl (autoMatchOne records user amountTolerance dateTolerance unmatchedCashbook)
             st unmatchedBank).

(** [records.find((r) => r.id === id)?.source === src] *)
Definition sourceOfId (records : list StoredRecord.t) (src : Source) (id : string) : bool :=
  match List.find (fun r => String.eqb (StoredRecord.id r) id) records with
  | Some r => has_source src r
  | None => false
  end.

(** [handleManualMatch]: the new state and the new selection. *)
Definition handleManualMatch (records : list StoredRecord.t) (user : option User.t)
           (selectedRecords : list string) (st : AppState.t)
  : AppState.t * list string :=
  if negb (hasPermission user "match") || (length selectedRecords <? 2)
  then (st, selectedRecords)
  else
    let selectedBankRecords :=
      filter (fun id => sourceOfId records Bank id = true) selectedRecords in
    let selectedCashbookRecords :=
      filter (fun id => sourceOfId records Cashbook id = true) selectedRecords in
    if (0 <? length selectedBankRecords) && (0 <? length selectedCashbookRecords)
    then (createMatch records user (match_id (length (AppState.matches st))) now
                      selectedBankRecords selectedCashbookRecords TypeManual st, [])
    else (st, selectedRecords).

Definition handleUnmatch (matches : list AppMatch.t) (user : option User.t)
           (matchId : string) (st : AppState.t) : AppState.t :=
  if negb (hasPermission user "unmatch") then st else removeMatch matches user matchId st.
End Workspace.

(** A bank record and a cashbook record of the same amount and date. *)
Definition twoRecords : list StoredRecord.t :=
  [ StoredRecord.mk (mkRecord "b1" Bank "2024-01-05" 100 "rent") None;
    StoredRecord.mk (mkRecord "c1" Cashbook "2024-01-05" 100 "rent") None ].





(** Hosts for the concrete runs: the matches are numbered. *)
Definition numbered_match (n : nat) : string := "match_" +:+ pretty n.

(** * The gate of [runReconcile] (part_001, 553-554)

    [canReconcile]: both files parsed, both mappings there, and neither
    validation report not [ok]; the reports are the ones of the current
    files, mappings and settings. *)
Definition canReconcile (toISODate : string -> DateFormat -> option (string * string))
           (Number_toString : Q -> string) (rate_high : nat -> nat -> bool)
           (bankParsed cashParsed : option ParseResult.t) (bankMap cashMap : option Mapping.t)
           (settings : ReconcileSettings.t) : bool :=
  let bankValidation :=
    validateDataset toISODate Number_toString rate_high bankParsed bankMap settings in
  let cashValidation :=
    validateDataset toISODate Number_toString rate_high cashParsed cashMap settings in
  let canMap := bool_decide (is_Some bankParsed) && bool_decide (is_Some cashParsed) in
  canMap && bool_decide (is_Some bankMap) && bool_decide (is_Some cashMap)
  && from_option ValidationReport.ok true bankValidation
  && from_option ValidationReport.ok true cashValidation.

(** The least number of characters a pattern matches. *)
Definition atom_min (a : atom) : nat :=
  match a with
  | Class _ lo _ => lo
  | Lit _ => 1
  | WordBoundary => 0
  end.

Definition pattern_min (re : list atom) : nat := foldr (fun a n => atom_min a + n) 0 re.

(** * Properties of the matching engine *)

(** ** The sort permutes *)

Section SortFacts.
Context {A : Type} (cmp : A -> A -> Q).

Lemma sort_insert_perm x l : sort_insert cmp x l ≡ₚ x :: l.
Proof.
  induction l as [|y l IH]; simpl; [done|].
  destruct (JS.leb (cmp x y) 0); [done|].
  rewrite IH. apply Permutation_swap.
Qed.

Lemma js_sort_perm l : js_sort cmp l ≡ₚ l.
Proof.
  induction l as [|x l IH]; simpl; [done|].
  rewrite sort_insert_perm. by rewrite IH.
Qed.

End SortFacts.

Lemma omap_bank_cashOnly (cs : list MappedRow.t) :
  omap MatchPair.bank (cashOnlyPair <$> cs) = [].
Proof. induction cs; simpl; done. Qed.

Lemma omap_cashbook_cashOnly (cs : list MappedRow.t) :
  omap MatchPair.cashbook (cashOnlyPair <$> cs) = cs.
Proof. induction cs as [|c cs IH]; [done|]. simpl. by f_equal. Qed.

Section Engine.
Variables (cashSorted : list MappedRow.t) (tol window : Q).

Lemma consider_ok usedCash b best j :
  best_ok cashSorted tol window usedCash b best ->
  best_ok cashSorted tol window usedCash b (consider cashSorted tol window usedCash b best j).
Proof.
  intros Hok. unfold consider.
  case_bool_decide as Hused; [done|].
  destruct (cashSorted !! j) as [c|] eqn:Hc; [|done].
  destruct (daysBetween _ _) as [dd|] eqn:Hdd; [|done].
  destruct (JS.leb _ tol && JS.leb _ window) eqn:Hcand; [|done].
  destruct (score_lt _ _); [|done].
  apply andb_true_iff in Hcand as [Ha Hd].
  right. exists j, c. simpl.
  repeat split; try done; by apply Qle_bool_iff.
Qed.

Lemma scan_ok usedCash b :
  best_ok cashSorted tol window usedCash b (scan cashSorted tol window usedCash b).
Proof.
  unfold scan. generalize (seq 0 (length cashSorted)) as js.
  assert (best_ok cashSorted tol window usedCash b best_init) as Hinit by (by left).
  revert Hinit. generalize best_init as best.
  intros best Hbest js. revert best Hbest.
  induction js as [|j js IH]; intros best Hbest; simpl; [done|].
  apply IH. by apply consider_ok.
Qed.

(** One round of the outer loop either consumes one unused cashbook row or
    records the bank row alone. *)
Lemma matchBank_step usedCash pairs b :
  (∃ j c p, cashSorted !! j = Some c ∧ (j ∉ usedCash) ∧
            matchBank cashSorted tol window (usedCash, pairs) b
              = ({[ j ]} ∪ usedCash, pairs ++ [p]) ∧
            produced tol window p ∧
            MatchPair.bank p = Some b ∧ MatchPair.cashbook p = Some c) ∨
  (matchBank cashSorted tol window (usedCash, pairs) b = (usedCash, pairs ++ [bankOnlyPair b])).
Proof.
  unfold matchBank.
  destruct (scan_ok usedCash b) as [Hnone|(j & c & Hj & Hc & Hused & Hdd & Had & Htol & Hwin)].
  - right. by rewrite Hnone.
  - left. exists j, c. rewrite Hj.
    assert ((Z.of_nat j =? -1)%Z = false) as -> by lia.
    simpl. rewrite Nat2Z.id, Hc.
    eexists. split_and!; try done.
    rewrite Had. rewrite Had in Htol. by apply produced_match.
Qed.

Lemma matchBank_inv processed st b :
  loop_inv cashSorted tol window processed st ->
  loop_inv cashSorted tol window (processed ++ [b]) (matchBank cashSorted tol window st b).
Proof.
  destruct st as [usedCash pairs].
  intros (js & Hnd & Hused & Hlt & Hbank & Hcash & Hall).
  simpl in Hused, Hbank, Hcash, Hall.
  destruct (matchBank_step usedCash pairs b)
    as [(j & c & p & Hc & Hj & -> & Hp & Hpb & Hpc)| ->].
  - exists (js ++ [j]). simpl. split_and!.
    + apply NoDup_app. split_and!; [done| |apply NoDup_singleton].
      intros x Hx ->%list_elem_of_singleton. apply Hj.
      rewrite Hused. by apply elem_of_list_to_set.
    + rewrite Hused, list_to_set_app_L. simpl.
      rewrite (right_id_L ∅ (∪)). apply (comm_L (∪)).
    + apply Forall_app. split; [done|]. apply Forall_singleton.
      by apply lookup_lt_Some in Hc.
    + rewrite omap_app. simpl. by rewrite Hpb, Hbank.
    + rewrite !omap_app. simpl. by rewrite Hpc, Hc, Hcash.
    + apply Forall_app. split; [done|]. by apply Forall_singleton.
  - exists js. simpl. split_and!; try done.
    + rewrite omap_app. simpl. by rewrite Hbank.
    + rewrite omap_app. simpl. by rewrite app_nil_r.
    + apply Forall_app. split; [done|]. apply Forall_singleton. constructor.
Qed.

Lemma matchBank_loop bs processed st :
  loop_inv cashSorted tol window processed st ->
  loop_inv cashSorted tol window (processed ++ bs) (foldl (matchBank cashSorted tol window) st bs).
Proof.
  revert processed st. induction bs as [|b bs IH]; intros processed st Hst; simpl.
  - by rewrite app_nil_r.
  - replace (processed ++ b :: bs) with ((processed ++ [b]) ++ bs) by by rewrite <- app_assoc.
    apply IH. by apply matchBank_inv.
Qed.

(** The last loop appends a lone pair for every index that was not used. *)
Lemma leftover_loop usedCash idxs pairs :
  foldl (leftover cashSorted usedCash) pairs idxs =
  pairs ++ (cashOnlyPair <$> omap (fun j => cashSorted !! j)
                                  (filter (fun j => j ∉ usedCash) idxs)).
Proof.
  revert pairs. induction idxs as [|j idxs IH]; intros pairs; simpl.
  - by rewrite app_nil_r.
  - rewrite IH. unfold leftover. rewrite filter_cons.
    case_bool_decide as Hj; simpl.
    + destruct (decide (j ∉ usedCash)); [done|]. done.
    + destruct (decide (j ∉ usedCash)); [|done]. simpl.
      destruct (cashSorted !! j) as [c|]; simpl; [|done].
      by rewrite <- app_assoc.
Qed.

Lemma omap_lookup_seq_from (pre l : list MappedRow.t) :
  omap (fun j => (pre ++ l) !! j) (seq (length pre) (length l)) = l.
Proof.
  revert pre. induction l as [|x l IH]; intros pre; simpl; [done|].
  rewrite list_lookup_middle by done. f_equal.
  specialize (IH (pre ++ [x])).
  rewrite <- app_assoc, length_app in IH. simpl in IH.
  by rewrite Nat.add_1_r in IH.
Qed.

Lemma omap_lookup_seq (l : list MappedRow.t) :
  omap (fun j => l !! j) (seq 0 (length l)) = l.
Proof. apply (omap_lookup_seq_from [] l). Qed.

(** The consumed indexes and the indexes left over are all the indexes. *)
Lemma used_and_leftover (js : list nat) (n : nat) :
  NoDup js -> Forall (fun j => j < n) js ->
  js ++ filter (fun j => j ∉ (list_to_set js : gset nat)) (seq 0 n) ≡ₚ seq 0 n.
Proof.
  intros Hnd Hlt.
  rewrite <- (filter_app_complement (fun j => j ∈ (list_to_set js : gset nat)) (seq 0 n)) at 2.
  apply Permutation_app; [|done].
  apply NoDup_Permutation; [done|apply NoDup_filter, NoDup_seq|].
  intros j. rewrite list_elem_of_filter, elem_of_list_to_set, elem_of_seq.
  rewrite Forall_forall in Hlt. split; [|tauto].
  intros Hj. split; [done|]. specialize (Hlt j Hj). lia.
Qed.

(** The pairs before the final sort: every pair has one of the three
    shapes, the bank sides are the bank rows in scan order, and the
    cashbook sides are the cashbook rows, each exactly once. *)
Lemma matchAll_spec bankSorted :
  let ps := matchAll bankSorted cashSorted tol window in
  Forall (produced tol window) ps ∧
  omap MatchPair.bank ps = bankSorted ∧
  omap MatchPair.cashbook ps ≡ₚ cashSorted.
Proof.
  unfold matchAll.
  assert (loop_inv cashSorted tol window [] (∅, [])) as Hinit.
  { exists []. split_and!; try done. constructor. }
  apply (matchBank_loop bankSorted) in Hinit. simpl in Hinit.
  destruct (foldl _ _ bankSorted) as [usedCash pairs].
  destruct Hinit as (js & Hnd & Hused & Hlt & Hbank & Hcash & Hall).
  simpl in Hused, Hbank, Hcash, Hall. simpl.
  rewrite leftover_loop. split_and!.
  - apply Forall_app. split; [done|].
    apply Forall_fmap, Forall_true. intros c. simpl. constructor.
  - by rewrite omap_app, Hbank, omap_bank_cashOnly, app_nil_r.
  - rewrite omap_app, Hcash.
    match goal with
    | |- _ ++ omap _ (cashOnlyPair <$> ?cs) ≡ₚ _ =>
        replace (omap MatchPair.cashbook (cashOnlyPair <$> cs)) with cs
          by (symmetry; apply omap_cashbook_cashOnly)
    end.
    rewrite <- omap_app, Hused.
    rewrite (used_and_leftover js (length cashSorted) Hnd Hlt).
    by rewrite omap_lookup_seq.
Qed.
End Engine.

(** ** Counting the three kinds of pairs *)

Lemma produced_counts tol window (ps : list MatchPair.t) :
  Forall (produced tol window) ps ->
  length (filter (fun p => is_matched p = true) ps)
    + length (filter (fun p => is_bank_only p = true) ps)
    = length (omap MatchPair.bank ps) ∧
  length (filter (fun p => is_matched p = true) ps)
    + length (filter (fun p => is_cash_only p = true) ps)
    = length (omap MatchPair.cashbook ps).
Proof.
  induction 1 as [|p ps Hp _ [IHb IHc]]; [done|].
  rewrite !filter_cons.
  destruct Hp; simpl; repeat case_decide; simpl; try done;
    fold (omap MatchPair.bank ps); fold (omap MatchPair.cashbook ps); lia.
Qed.

(** The pairs of a run, related to its inputs. *)
Lemma reconcileSmart_pairs bank cash settings :
  let ps := Result.pairs (reconcileSmart bank cash settings) in
  Forall (produced (ReconcileSettings.amountTolerance settings)
                   (ReconcileSettings.dateWindowDays settings)) ps ∧
  omap MatchPair.bank ps ≡ₚ bank ∧
  omap MatchPair.cashbook ps ≡ₚ cash.
Proof.
  simpl.
  destruct (matchAll_spec (js_sort compareRows cash)
              (ReconcileSettings.amountTolerance settings)
              (ReconcileSettings.dateWindowDays settings)
              (js_sort compareRows bank)) as (Hall & Hbank & Hcash).
  split_and!.
  - by rewrite js_sort_perm.
  - by rewrite js_sort_perm, Hbank, js_sort_perm.
  - by rewrite js_sort_perm, Hcash, js_sort_perm.
Qed.

(** C2. The pairs of [reconcileSmart] partition the inputs: twice the number
    of matched pairs plus the bank-only pairs plus the cashbook-only pairs is
    the number of bank rows plus the number of cashbook rows; the cashbook
    sides of the pairs are the cashbook rows, each exactly once (so no
    cashbook row is in two pairs), and likewise the bank sides. *)
Theorem reconcileSmart_partition bank cash settings :
  let r := reconcileSmart bank cash settings in
  2 * Totals.matchedPairs (Result.stats r)
    + Totals.unmatchedBank (Result.stats r)
    + Totals.unmatchedCash (Result.stats r)
    = length bank + length cash ∧
  omap MatchPair.cashbook (Result.pairs r) ≡ₚ cash ∧
  omap MatchPair.bank (Result.pairs r) ≡ₚ bank.
Proof.
  intros r.
  destruct (reconcileSmart_pairs bank cash settings) as (Hall & Hbank & Hcash).
  fold r in Hall, Hbank, Hcash.
  split_and!; [|done|done].
  destruct (produced_counts _ _ _ Hall) as [Hb Hc].
  rewrite Hbank in Hb. rewrite Hcash in Hc.
  change (Totals.matchedPairs (Result.stats r))
    with (length (filter (fun p => is_matched p = true) (Result.pairs r))).
  change (Totals.unmatchedBank (Result.stats r))
    with (length (filter (fun p => is_bank_only p = true) (Result.pairs r))).
  change (Totals.unmatchedCash (Result.stats r))
    with (length (filter (fun p => is_cash_only p = true) (Result.pairs r))).
  lia.
Qed.

Lemma produced_invariant tol window p :
  produced tol window p ->
  (matched_within tol window p ∧ ¬ one_sided p) ∨
  (one_sided p ∧ ¬ matched_within tol window p).
Proof.
  destruct 1 as [b c dd Hdd Htol Hwin|b|c].
  - left. split.
    + unfold matched_within. simpl. eauto 10.
    + intros [_ Hm]. simpl in Hm. done.
  - right. split.
    + split; [left|]; simpl; eauto.
    + intros (_ & _ & Hm & _). simpl in Hm. done.
  - right. split.
    + split; [right|]; simpl; eauto.
    + intros (_ & _ & Hm & _). simpl in Hm. done.
Qed.

(** C3. Every pair of [reconcileSmart] is either (a) two-sided, matched and
    inside the amount tolerance and the date window, or (b) one-sided and
    unmatched, never both; no pair has both sides with [matched = false]. *)
Theorem reconcileSmart_pair_invariant bank cash settings :
  let tol := ReconcileSettings.amountTolerance settings in
  let window := ReconcileSettings.dateWindowDays settings in
  Forall (fun p =>
            ((matched_within tol window p ∧ ¬ one_sided p) ∨
             (one_sided p ∧ ¬ matched_within tol window p)) ∧
            ¬ (is_Some (MatchPair.bank p) ∧ is_Some (MatchPair.cashbook p) ∧
               MatchPair.matched p = false))
         (Result.pairs (reconcileSmart bank cash settings)).
Proof.
  intros tol window.
  destruct (reconcileSmart_pairs bank cash settings) as (Hall & _ & _).
  eapply Forall_impl; [exact Hall|].
  intros p Hp. split; [by apply produced_invariant|].
  intros (Hb & Hc & Hm). destruct Hp; simpl in *; done.
Qed.

(** ** Facts about rounding *)

Lemma Qfloor_half (k : Z) : Qfloor (inject_Z k + (1 # 2)) = k.
Proof.
  unfold Qfloor, inject_Z, Qplus. simpl.
  symmetry. apply (Z.div_unique _ _ _ 1%Z); lia.
Qed.

Lemma round2_cents x : is_cents x -> (JS.round2 x == x)%Q.
Proof.
  intros [k Hk]. unfold JS.round2, JS.Math_round.
  assert (x * 100 + (1 # 2) == inject_Z k + (1 # 2))%Q as ->.
  { rewrite Hk. field. }
  by rewrite Qfloor_half, Hk.
Qed.

Lemma is_cents_minus x y : is_cents x -> is_cents y -> is_cents (x - y).
Proof.
  intros [k Hk] [l Hl]. exists (k - l)%Z.
  unfold Z.sub. rewrite Hk, Hl, inject_Z_plus, inject_Z_opp. field.
Qed.

Lemma Math_round_nonneg x : (0 <= x)%Q -> (0 <= JS.Math_round x)%Z.
Proof.
  intros Hx. unfold JS.Math_round.
  change 0%Z with (Qfloor 0). apply Qfloor_resp_le.
  apply Qle_trans with x; [done|].
  rewrite <- (Qplus_0_r x) at 1. by apply Qplus_le_r.
Qed.

Lemma daysBetween_nonneg a b dd : daysBetween a b = Some dd -> (0 <= dd)%Z.
Proof.
  unfold daysBetween. destruct (utc_midnight a), (utc_midnight b); try done.
  intros [= <-]. apply Math_round_nonneg.
  unfold JS.Math_abs, Qdiv. apply Qmult_le_0_compat.
  - apply (Qabs_nonneg (inject_Z (z - z0))).
  - discriminate.
Qed.


Lemma round2_is_cents x : is_cents (JS.round2 x).
Proof. by exists (JS.Math_round (x * 100)). Qed.

(** The amounts that leave the Normalizer have two decimals. *)
Lemma normalizeRows_cents toISODate Number_toString rows map src settings :
  Forall (fun t => is_cents (MappedRow.amount t))
         (normalizeRows toISODate Number_toString rows map src settings).
Proof.
  unfold normalizeRows. generalize (seq 0 (length rows)) as idxs.
  assert (Forall (fun t => is_cents (MappedRow.amount t)) []) as Hinit by constructor.
  revert Hinit. generalize (@nil MappedRow.t) as out.
  intros out Hout idxs. revert out Hout.
  induction idxs as [|i idxs IH]; intros out Hout; simpl; [done|].
  apply IH. unfold normalizeRow.
  destruct (toISODate _ _) as [[iso dateStr]|]; [|done].
  destruct (rowAmount _ map) as [amount|] eqn:Hamount; [|done].
  apply Forall_app. split; [done|]. apply Forall_singleton. simpl.
  unfold rowAmount in Hamount. destruct (Mapping.mode map).
  - destruct (truthy _); [|done].
    destruct (row_get _ _) as [| |x|s]; simpl in Hamount; try done.
    + injection Hamount as <-. apply round2_is_cents.
    + destruct (negb _); [done|]. destruct (parseFloat _); [|done].
      injection Hamount as <-. apply round2_is_cents.
  - destruct (truthy _ || truthy _); [|done].
    injection Hamount as <-. apply round2_is_cents.
Qed.

Lemma produced_amountDiff tol window p :
  produced tol window p -> amountDiff_as_computed p.
Proof.
  intros [b c dd _ _ _|b|c]; simpl; try done.
  split; [done|]. intros Hb Hc. by apply round2_cents, is_cents_minus.
Qed.

(** C5, as stated, fails on a lone cashbook row: its pair carries the
    negated amount. *)
Lemma amountDiff_lone_cashbook_negated :
  Result.pairs (reconcileSmart [] [cash100] DEFAULT_SETTINGS) = [cashOnlyPair cash100] ∧
  (MatchPair.amountDiff (cashOnlyPair cash100) == -100)%Q ∧
  ¬ Forall amountDiff_as_specified
           (Result.pairs (reconcileSmart [] [cash100] DEFAULT_SETTINGS)).
Proof.
  assert (Result.pairs (reconcileSmart [] [cash100] DEFAULT_SETTINGS)
          = [cashOnlyPair cash100]) as Hpairs by (vm_compute; reflexivity).
  split_and!; [done|done|].
  rewrite Hpairs, Forall_singleton. intros H.
  vm_compute in H. discriminate.
Qed.

(** C5 (amended). In every pair of [reconcileSmart], [amountDiff] is the bank
    amount minus the cashbook amount rounded to two decimals when both sides
    are present (the exact difference when both amounts have two decimals),
    the bank amount when only the bank side is present, and the negated
    cashbook amount when only the cashbook side is present. *)
Theorem reconcileSmart_amountDiff bank cash settings :
  Forall amountDiff_as_computed (Result.pairs (reconcileSmart bank cash settings)).
Proof.
  destruct (reconcileSmart_pairs bank cash settings) as (Hall & _ & _).
  eapply Forall_impl; [exact Hall|].
  intros p Hp. by apply (produced_amountDiff _ _ p Hp).
Qed.

(** On rows that come from the Normalizer the rounding changes nothing: a
    two-sided pair carries the bank amount minus the cashbook amount. *)
Lemma pipeline_amountDiff_exact bn cn settings :
  Forall (fun t => is_cents (MappedRow.amount t)) bn ->
  Forall (fun t => is_cents (MappedRow.amount t)) cn ->
  Forall (fun p => ∀ b c, MatchPair.bank p = Some b -> MatchPair.cashbook p = Some c ->
                          (MatchPair.amountDiff p == MappedRow.amount b - MappedRow.amount c)%Q)
         (Result.pairs (reconcile bn cn settings)).
Proof.
  intros Hbn Hcn. unfold reconcile.
  destruct (reconcileSmart_pairs bn cn settings) as (Hall & Hbank & Hcash).
  rewrite <- Hbank in Hbn. rewrite <- Hcash in Hcn.
  apply Forall_forall. intros p Hp b c Hb Hc.
  pose proof (proj1 (Forall_forall _ _) Hall p Hp) as Hprod.
  apply produced_amountDiff in Hprod. unfold amountDiff_as_computed in Hprod.
  rewrite Hb, Hc in Hprod. apply Hprod.
  - apply (proj1 (Forall_forall _ _) Hbn). apply list_elem_of_omap. eauto.
  - apply (proj1 (Forall_forall _ _) Hcn). apply list_elem_of_omap. eauto.
Qed.

(** ** The identifiers of the pairs *)

Lemma reconcileSmart_ids bank cash settings :
  Forall (fun p => MatchPair.id p = pairId p)
         (Result.pairs (reconcileSmart bank cash settings)).
Proof.
  destruct (reconcileSmart_pairs bank cash settings) as (Hall & _ & _).
  eapply Forall_impl; [exact Hall|].
  by intros p [b c dd _ _ _|b|c].
Qed.

(** ** The strategy setting *)

(** C1 (code bug). The settings carry a [strategy] that the selector of the
    page sets to [strict], and no code reads it: [runReconcile] hands the
    settings to [reconcileSmart], which takes the tolerance and the window
    as configured.  Under [strict] with tolerance 0 and a window of three
    days, a bank row and a cashbook row three days apart are matched with a
    day distance of 3; the smart algorithm with tolerance and window forced
    to zero, which the claim describes, leaves both unmatched. *)
Theorem strict_keeps_configured_window :
  ReconcileSettings.strategy strictWindow3 = Strict ∧
  Result.pairs (reconcile [bankJan5] [cashJan8] strictWindow3)
    = [matchedPair bankJan5 cashJan8 (JS.round2 (100 - 100)) 3] ∧
  Result.pairs (reconcileSmart [bankJan5] [cashJan8] (exact_settings strictWindow3))
    = [bankOnlyPair bankJan5; cashOnlyPair cashJan8] ∧
  reconcile [bankJan5] [cashJan8] strictWindow3
    ≠ reconcileSmart [bankJan5] [cashJan8] (exact_settings strictWindow3).
Proof.
  split_and!; [done|by vm_compute|by vm_compute|].
  intros H. apply (f_equal (fun r => length (Result.pairs r))) in H.
  vm_compute in H. discriminate.
Qed.

(** ** The description score *)

Lemma common_sym (ta tb : gset string) :
  size (filter (fun t => t ∈ tb) ta) = size (filter (fun t => t ∈ ta) tb).
Proof.
  f_equal. apply set_eq. intros t. rewrite !elem_of_filter. tauto.
Qed.

Lemma common_le_l (ta tb : gset string) : size (filter (fun t => t ∈ tb) ta) ≤ size ta.
Proof.
  apply subseteq_size. intros t. rewrite elem_of_filter. tauto.
Qed.

Lemma Math_round_le x (k : Z) : (x <= inject_Z k)%Q -> (JS.Math_round x <= k)%Z.
Proof.
  intros Hx. unfold JS.Math_round.
  rewrite <- (Qfloor_half k). apply Qfloor_resp_le. by apply Qplus_le_l.
Qed.

Lemma descriptionScore_sym a b : descriptionScore a b = descriptionScore b a.
Proof.
  unfold descriptionScore.
  rewrite (orb_comm (size (tokenize a) =? 0)), (common_sym (tokenize a)).
  by rewrite (Nat.add_comm (size (tokenize a))).
Qed.

Lemma descriptionScore_range a b : (0 <= descriptionScore a b <= 50)%Z.
Proof.
  unfold descriptionScore.
  destruct ((size (tokenize a) =? 0) || (size (tokenize b) =? 0)) eqn:Hempty; [lia|].
  pose proof (common_le_l (tokenize a) (tokenize b)) as Hl.
  pose proof (common_le_l (tokenize b) (tokenize a)) as Hr.
  rewrite <- common_sym in Hr.
  set (common := size (filter _ (tokenize a))) in *.
  set (sa := size (tokenize a)) in *. set (sb := size (tokenize b)) in *.
  destruct (sa + sb - common =? 0) eqn:Hunion.
  - split; [by apply Math_round_nonneg|by apply Math_round_le].
  - apply Nat.eqb_neq in Hunion.
    assert (0 <= inject_Z (Z.of_nat common) / inject_Z (Z.of_nat (sa + sb - common)) <= 1)%Q
      as [Hj0 Hj1].
    { assert (0 < inject_Z (Z.of_nat (sa + sb - common)))%Q as Hpos.
      { change 0%Q with (inject_Z 0). rewrite <- Zlt_Qlt. lia. }
      split.
      - apply Qle_shift_div_l; [done|]. rewrite Qmult_0_l.
        change 0%Q with (inject_Z 0). rewrite <- Zle_Qle. lia.
      - apply Qle_shift_div_r; [done|]. rewrite Qmult_1_l.
        rewrite <- Zle_Qle. lia. }
    set (j := (inject_Z (Z.of_nat common) / inject_Z (Z.of_nat (sa + sb - common)))%Q) in *.
    clearbody j. split.
    + apply Math_round_nonneg. lra.
    + apply Math_round_le. change (inject_Z 50) with 50%Q. lra.
Qed.

(** C10. [descriptionScore] is symmetric in its two strings and its value
    lies between 0 and 50, both included. *)
Theorem descriptionScore_symmetric_bounded a b :
  descriptionScore a b = descriptionScore b a ∧
  (0 <= descriptionScore a b <= 50)%Z.
Proof. split; [apply descriptionScore_sym|apply descriptionScore_range]. Qed.

(** * Properties of the column mapper *)

Lemma findIndex_Some {A} (p : A -> bool) (l : list A) i :
  findIndex p l = Some i -> ∃ x, l !! i = Some x ∧ p x = true.
Proof.
  revert i. induction l as [|y l IH]; intros i; simpl; [done|].
  destruct (p y) eqn:Hy.
  - intros [= <-]. eauto.
  - destruct (findIndex p l) as [k|]; simpl; [|done].
    intros [= <-]. by apply IH.
Qed.

Lemma findIndex_None {A} (p : A -> bool) (l : list A) :
  Forall (fun x => p x = false) l -> findIndex p l = None.
Proof.
  induction 1 as [|y l Hy _ IH]; simpl; [done|]. by rewrite Hy, IH.
Qed.

Lemma includes_truthy s c : truthy c = true -> includes s c = true -> truthy s = true.
Proof. destruct s, c; simpl; done. Qed.

Lemma toLowerCase_truthy s : truthy (toLowerCase s) = truthy s.
Proof. by destruct s. Qed.

Lemma or_else_empty s : or_else s "" = s.
Proof. by destruct s. Qed.

(** A header picked for a candidate is not empty. *)
Lemma pick_from_truthy headers cands h :
  Forall (fun c => truthy c = true) cands ->
  pick_from headers cands = Some h -> truthy h = true.
Proof.
  induction 1 as [|c cands Hc _ IH]; simpl; [done|].
  destruct (findIndex _ _) as [idx|] eqn:Hidx; [|done].
  intros [= <-]. apply findIndex_Some in Hidx as (x & Hx & Hin).
  unfold lowered in Hx. rewrite list_lookup_fmap in Hx.
  unfold header_at. destruct (headers !! idx) as [h|]; simpl in *; [|done].
  injection Hx as <-. rewrite or_else_empty in Hin.
  rewrite <- toLowerCase_truthy. by apply (includes_truthy _ c).
Qed.

(** Without a match the first header is the value, whatever the fallback
    argument: an empty fallback is falsy. *)
Lemma pick_fallback headers cands :
  pick_from headers cands = None -> pick headers cands "" = header_at headers 0.
Proof. unfold pick. intros ->. simpl. apply or_else_empty. Qed.

(** The mode is [debitcredit] only when no header was picked for the amount
    and the first header is empty. *)
Lemma detectMapping_mode_amount headers :
  truthy (header_at headers 0) = true ->
  Mapping.mode (detectMapping headers) = ModeAmount.
Proof.
  intros Hfirst. unfold detectMapping. simpl.
  assert (truthy (pick headers ["amount"; "amt"; "value"] "") = true) as ->; [|done].
  unfold pick. destruct (pick_from _ _) as [h|] eqn:Hpick.
  - eapply pick_from_truthy; [|exact Hpick]. repeat constructor.
  - simpl. by rewrite or_else_empty.
Qed.

Lemma pick_from_None headers cands :
  Forall (fun c => Forall (fun h => includes h c = false) (lowered headers)) cands ->
  pick_from headers cands = None.
Proof.
  induction 1 as [|c cands Hc _ IH]; simpl; [done|].
  by rewrite (findIndex_None _ _ Hc).
Qed.

(** With no amount column among the headers, the amount field is the first
    header and the mode is [debitcredit] exactly when that header is empty. *)
Lemma detectMapping_no_amount_column headers :
  Forall (fun c => Forall (fun h => includes h c = false) (lowered headers))
         ["amount"; "amt"; "value"] ->
  Mapping.amount (detectMapping headers) = header_at headers 0 ∧
  (Mapping.mode (detectMapping headers) = ModeDebitCredit ↔ header_at headers 0 = "").
Proof.
  intros Hnone. apply pick_from_None in Hnone.
  unfold detectMapping. simpl. rewrite (pick_fallback _ _ Hnone).
  split; [done|]. by destruct (header_at headers 0).
Qed.

(** C6. The failing input: headers [Date, Debit, Credit] have no amount
    column and have debit and credit columns, yet the mode is [amount],
    because the amount field falls back to the first header and is truthy. *)
Theorem detectMapping_debit_credit_headers :
  let m := detectMapping ["Date"; "Debit"; "Credit"] in
  pick_from ["Date"; "Debit"; "Credit"] ["amount"; "amt"; "value"] = None ∧
  Mapping.amount m = "Date" ∧
  Mapping.debit m = "Debit" ∧ Mapping.credit m = "Credit" ∧
  Mapping.mode m = ModeAmount.
Proof. by vm_compute. Qed.

(** * Properties of the amount parser *)

(** C7. Scenario E on the code: ["1,234.56"] and ["-45.00"] parse as
    stated; ["1.234,56"] has a comma and a period, so its comma is removed as
    a thousands separator and it parses to 1.23, not to 1234.56. *)
Theorem parseAmount_scenario_E :
  parses_to "1,234.56" 1234.56 ∧
  parses_to "-45.00" (-45) ∧
  normalizeAmountString "1.234,56" = "1.23456" ∧
  parses_to "1.234,56" 1.23 ∧
  ¬ parses_to "1.234,56" 1234.56.
Proof.
  split_and!.
  - eexists. split; [by vm_compute|done].
  - eexists. split; [by vm_compute|done].
  - by vm_compute.
  - eexists. split; [by vm_compute|done].
  - intros (q & Hq & Hv). vm_compute in Hq. injection Hq as <-. discriminate.
Qed.








(** ** The sort sorts *)

Section SortSorted.
Context {A : Type} (cmp : A -> A -> Q) (R : A -> A -> Prop).
Hypothesis cmp_R : ∀ x y, (cmp x y <= 0)%Q ↔ R x y.
Hypothesis R_total : ∀ x y, R x y ∨ R y x.
Hypothesis R_trans : ∀ x y z, R x y -> R y z -> R x z.

Lemma sort_insert_sorted x l :
  StronglySorted R l -> StronglySorted R (sort_insert cmp x l).
Proof.
  induction 1 as [|y l Hl IH Hy]; simpl.
  - by repeat constructor.
  - destruct (JS.leb (cmp x y) 0) eqn:Hxy.
    + apply Qle_bool_iff, cmp_R in Hxy.
      constructor; [by constructor|].
      constructor; [done|]. eapply Forall_impl; [exact Hy|].
      intros z Hz. by apply (R_trans x y z).
    + assert (R y x) as Hyx.
      { destruct (R_total x y) as [Hc|Hc]; [|done].
        apply cmp_R, Qle_bool_iff in Hc. unfold JS.leb in Hxy. congruence. }
      constructor; [done|].
      rewrite sort_insert_perm. by constructor.
Qed.

Lemma js_sort_sorted l : StronglySorted R (js_sort cmp l).
Proof.
  induction l as [|x l IH]; simpl; [constructor|]. by apply sort_insert_sorted.
Qed.
End SortSorted.

(** ** The sort is stable *)

Section SortStable.
Context {A : Type} (cmp : A -> A -> Q).

Lemma sort_insert_filter (P : A -> Prop) `{!∀ x, Decision (P x)} x l :
  (∀ y, y ∈ l -> P x -> P y -> (cmp x y <= 0)%Q) ->
  filter P (sort_insert cmp x l) = filter P (x :: l).
Proof.
  induction l as [|y l IH]; intros Hle; simpl; [done|].
  destruct (JS.leb (cmp x y) 0) eqn:Hxy; [done|].
  rewrite filter_cons, IH by (intros z Hz; apply Hle; by right).
  rewrite !filter_cons.
  destruct (decide (P y)) as [Hy|Hy], (decide (P x)) as [Hx|Hx]; try done.
  exfalso. assert (y ∈ y :: l) as Hin by left.
  specialize (Hle y Hin Hx Hy). apply Qle_bool_iff in Hle.
  unfold JS.leb in Hxy. congruence.
Qed.

(** Elements none of which the comparator puts after another keep their
    order. *)
Lemma js_sort_filter (P : A -> Prop) `{!∀ x, Decision (P x)} l :
  (∀ x y, P x -> P y -> (cmp x y <= 0)%Q) ->
  filter P (js_sort cmp l) = filter P l.
Proof.
  intros Hle. induction l as [|x l IH]; simpl; [done|].
  rewrite sort_insert_filter by (intros y _; apply Hle).
  by rewrite !filter_cons, IH.
Qed.

Hypothesis cmp_consistent : consistent cmp.

Lemma same_rank_le x y z :
  JS.eqb (cmp x y) 0 = true -> JS.eqb (cmp x z) 0 = true -> (cmp y z <= 0)%Q.
Proof.
  destruct cmp_consistent as (_ & Htrans & _ & Hsym).
  intros Hy%Qeq_bool_iff Hz%Qeq_bool_iff.
  apply (Htrans y x z); [by apply Hsym|]. by rewrite Hz.
Qed.

(** The insertion sort of the model is a sort the language allows. *)
Lemma host_sorts_js_sort l : host_sorts cmp l (js_sort cmp l).
Proof.
  destruct cmp_consistent as (Htotal & Htrans & _ & _).
  split; [apply js_sort_perm|]. split.
  - by apply (js_sort_sorted cmp (fun x y => (cmp x y <= 0)%Q)).
  - intros x. apply js_sort_filter. intros y z. apply same_rank_le.
Qed.

Lemma sorted_stable_unique l1 : ∀ l2,
  StronglySorted (fun x y => (cmp x y <= 0)%Q) l1 ->
  StronglySorted (fun x y => (cmp x y <= 0)%Q) l2 ->
  l1 ≡ₚ l2 ->
  (∀ x, filter (fun y => JS.eqb (cmp x y) 0 = true) l1
        = filter (fun y => JS.eqb (cmp x y) 0 = true) l2) ->
  l1 = l2.
Proof.
  destruct cmp_consistent as (Htotal & _ & Hanti & _).
  induction l1 as [|x1 t1 IH]; intros l2 Hs1 Hs2 Hperm Hfil.
  - by apply Permutation_nil_l in Hperm.
  - destruct l2 as [|x2 t2]; [by apply Permutation_nil_r in Hperm|].
    apply StronglySorted_inv in Hs1 as [Hs1 Hx1], Hs2 as [Hs2 Hx2].
    assert (JS.eqb (cmp x1 x1) 0 = true) as Hrefl.
    { apply Qeq_bool_iff, Hanti; by destruct (Htotal x1 x1). }
    assert (x1 = x2) as <-.
    { assert (x2 ∈ x1 :: t1) as [->|Hin2]%elem_of_cons by (rewrite Hperm; left); [done|].
      assert (x1 ∈ x2 :: t2) as [->|Hin1]%elem_of_cons by (rewrite <- Hperm; left); [done|].
      rewrite Forall_forall in Hx1, Hx2.
      assert (JS.eqb (cmp x1 x2) 0 = true) as H12.
      { apply Qeq_bool_iff, Hanti; auto. }
      specialize (Hfil x1). rewrite !filter_cons in Hfil.
      rewrite decide_True in Hfil by done.
      rewrite (decide_True (P := JS.eqb (cmp x1 x2) 0 = true)) in Hfil by done.
      by injection Hfil. }
    f_equal. apply IH; try done.
    + by apply Permutation_cons_inv in Hperm.
    + intros x. specialize (Hfil x). rewrite !filter_cons in Hfil.
      destruct (decide _); [by injection Hfil|done].
Qed.

(** Whatever the algorithm, the result is the same. *)
Lemma host_sorts_unique l l1 l2 : host_sorts cmp l l1 -> host_sorts cmp l l2 -> l1 = l2.
Proof.
  intros (Hp1 & Hs1 & Hf1) (Hp2 & Hs2 & Hf2).
  apply sorted_stable_unique; try done.
  - by rewrite Hp1, Hp2.
  - intros x. by rewrite Hf1, Hf2.
Qed.
End SortStable.

(** ** The score of a combination *)





Section SuggestionFacts.
Variable Date_getTime : string -> option Z.
Variable suggest_id : nat -> string.
Variable Number_minus : Q -> Q -> Q.






End SuggestionFacts.




(** * Determinism *)

Lemma ascii_compare_lt_trans a b c :
  Ascii.compare a b = Lt -> Ascii.compare b c = Lt -> Ascii.compare a c = Lt.
Proof.
  unfold Ascii.compare. rewrite !N.compare_lt_iff. lia.
Qed.

Lemma string_compare_refl s : String.compare s s = Eq.
Proof.
  induction s as [|a s IH]; simpl; [done|].
  unfold Ascii.compare. by rewrite N.compare_refl.
Qed.

Lemma string_compare_lt_trans s1 s2 s3 :
  String.compare s1 s2 = Lt -> String.compare s2 s3 = Lt -> String.compare s1 s3 = Lt.
Proof.
  revert s2 s3. induction s1 as [|a s1 IH]; intros [|b s2] [|c s3]; simpl; try done.
  destruct (Ascii.compare a b) eqn:Hab; try done;
    destruct (Ascii.compare b c) eqn:Hbc; try done; intros H12 H23.
  - apply Ascii.compare_eq_iff in Hab, Hbc. subst.
    unfold Ascii.compare. rewrite N.compare_refl. by apply (IH s2).
  - apply Ascii.compare_eq_iff in Hab. subst. by rewrite Hbc.
  - apply Ascii.compare_eq_iff in Hbc. subst. by rewrite Hab.
  - by rewrite (ascii_compare_lt_trans a b c).
Qed.

Lemma string_compare_total s1 s2 :
  String.compare s1 s2 = Lt ∨ s1 = s2 ∨ String.compare s2 s1 = Lt.
Proof.
  destruct (String.compare s1 s2) eqn:H12.
  - right. left. by apply String.compare_eq_iff.
  - by left.
  - right. right. rewrite String.compare_antisym, H12. done.
Qed.

Lemma localeCompare_le a b :
  a ≠ b -> (localeCompare a b <= 0)%Q ↔ String.compare a b = Lt.
Proof.
  intros Hne. unfold localeCompare.
  destruct (String.compare a b) eqn:Hab.
  - by apply String.compare_eq_iff in Hab.
  - done.
  - split; [|done]. intros H. by vm_compute in H.
Qed.

(** A comparator by date and then by amount is a consistent ordering. *)
Lemma keyed_consistent {A} (key : A -> string) (amt : A -> Q) (cmp : A -> A -> Q) :
  (∀ x y, cmp x y = if String.eqb (key x) (key y) then (amt x - amt y)%Q
                    else localeCompare (key x) (key y)) ->
  consistent cmp.
Proof.
  intros Hcmp.
  assert (∀ x y, (cmp x y <= 0)%Q ↔
                 String.compare (key x) (key y) = Lt ∨
                 (key x = key y ∧ (amt x <= amt y)%Q)) as Hle.
  { intros x y. rewrite Hcmp.
    destruct (String.eqb_spec (key x) (key y)) as [Heq|Hne].
    - rewrite Heq, string_compare_refl. split.
      + intros H. right. split; [done|]. lra.
      + intros [?|[_ H]]; [done|]. lra.
    - rewrite (localeCompare_le _ _ Hne). split; [by left|]. by intros [?|[? _]]. }
  assert (∀ x y, (cmp x y == 0)%Q ↔ key x = key y ∧ (amt x == amt y)%Q) as Heq0.
  { intros x y. rewrite Hcmp.
    destruct (String.eqb_spec (key x) (key y)) as [Heq|Hne].
    - split; [intros H; split; [done|lra]|intros [_ H]; lra].
    - split; [|by intros [? _]]. unfold localeCompare.
      destruct (String.compare _ _) eqn:Hc; [by apply String.compare_eq_iff in Hc|done|done]. }
  split_and!.
  - intros x y. rewrite !Hle.
    destruct (string_compare_total (key x) (key y)) as [H|[H|H]]; [tauto| |tauto].
    destruct (Qlt_le_dec (amt y) (amt x)) as [Hlt|Hle'].
    + right. right. split; [done|]. lra.
    + left. by right.
  - intros x y z. rewrite !Hle. intros [H1|[H1 A1]] [H2|[H2 A2]].
    + left. by apply (string_compare_lt_trans _ (key y)).
    + left. by rewrite <- H2.
    + left. by rewrite H1.
    + right. split; [congruence|]. lra.
  - intros x y. rewrite !Hle, Heq0. intros [H1|[H1 A1]] [H2|[H2 A2]].
    + rewrite String.compare_antisym, H1 in H2. done.
    + rewrite H2, string_compare_refl in H1. done.
    + rewrite H1, string_compare_refl in H2. done.
    + split; [done|]. lra.
  - intros x y. rewrite Heq0, Hle. intros [H1 A1]. right. split; [done|]. lra.
Qed.

Lemma compareRows_consistent : consistent compareRows.
Proof. by apply (keyed_consistent MappedRow.dateISO MappedRow.amount). Qed.

Lemma comparePairs_consistent : consistent comparePairs.
Proof.
  apply (keyed_consistent pairDate pairAmount). intros p q.
  unfold comparePairs. by destruct (String.eqb _ _).
Qed.

(** C4. [reconcileSmart] is deterministic.  The one freedom a run has is
    the algorithm of its three sorts, which is the host's: a run on any
    host, every sort being any stable sort by the comparator, returns the
    same pairs, element for element and in the same order, and the same
    summary as any other run on the same bank rows, cashbook rows and
    settings; the result of the model is such a run.  The identifier of a
    pair is made from the identifiers of its sides, not from a clock or a
    random number. *)
Theorem reconcileSmart_deterministic bank cash settings :
  reconcileSmart_on_host bank cash settings (reconcileSmart bank cash settings) ∧
  (∀ r1 r2, reconcileSmart_on_host bank cash settings r1 ->
            reconcileSmart_on_host bank cash settings r2 ->
            Result.pairs r1 = Result.pairs r2 ∧ Result.stats r1 = Result.stats r2) ∧
  Forall (fun p => MatchPair.id p = pairId p)
         (Result.pairs (reconcileSmart bank cash settings)).
Proof.
  split_and!.
  - constructor; apply host_sorts_js_sort;
      apply compareRows_consistent || apply comparePairs_consistent.
  - intros r1 r2 [bs1 cs1 ps1 Hb1 Hc1 Hp1] [bs2 cs2 ps2 Hb2 Hc2 Hp2].
    assert (bs1 = bs2) as <-
      by (by apply (host_sorts_unique compareRows compareRows_consistent bank)).
    assert (cs1 = cs2) as <-
      by (by apply (host_sorts_unique compareRows compareRows_consistent cash)).
    assert (ps1 = ps2) as <-; [|done].
    by apply (host_sorts_unique comparePairs comparePairs_consistent
                (matchAll bs1 cs1 (ReconcileSettings.amountTolerance settings)
                          (ReconcileSettings.dateWindowDays settings))).
  - apply reconcileSmart_ids.
Qed.

(** * Further properties of the matching engine *)

(** ** The greedy choice *)

Lemma ltb_true x y : JS.ltb x y = true -> (x < y)%Q.
Proof.
  unfold JS.ltb. intros H. apply negb_true_iff in H.
  apply Qnot_le_lt. intros Hle. apply Qle_bool_iff in Hle. congruence.
Qed.

Lemma ltb_false x y : JS.ltb x y = false -> (y <= x)%Q.
Proof.
  unfold JS.ltb. intros H. apply negb_false_iff in H. by apply Qle_bool_iff.
Qed.

Section Greedy.
Variables (cashSorted : list MappedRow.t) (tol window : Q).

Lemma consider_unfold usedCash b best k :
  consider cashSorted tol window usedCash b best k =
  if bool_decide (k ∈ usedCash) then best
  else match cashSorted !! k with
       | None => best
       | Some c =>
           match candidateScore tol window b c with
           | None => best
           | Some s =>
               if score_lt s (bestScore best)
               then mkBest (Z.of_nat k) (Some s)
                           (JS.round2 (MappedRow.amount b - MappedRow.amount c))
                           (default 0%Z (daysBetween (MappedRow.dateISO b) (MappedRow.dateISO c)))
               else best
           end
       end.
Proof.
  unfold consider, candidateScore.
  case_bool_decide; [done|].
  destruct (cashSorted !! k) as [c|]; [|done].
  destruct (daysBetween _ _) as [dd|]; [|done].
  by destruct (JS.leb _ tol && JS.leb _ window).
Qed.

Lemma consider_min usedCash b k best :
  best_min cashSorted tol window usedCash b k best ->
  best_min cashSorted tol window usedCash b (S k)
           (consider cashSorted tol window usedCash b best k).
Proof.
  intros Hinv. rewrite consider_unfold.
  assert (∀ j', j' < S k -> j' < k ∨ j' = k) as Hsplit by lia.
  case_bool_decide as Hused.
  { destruct Hinv as [(Hj & Hs & Hnone)|(j & c & s & Hj & Hs & Hlt & Hc & Hu & Hsc & Hmin)].
    - left. split_and!; try done. intros j' c' [Hj'| ->]%Hsplit; [exact (Hnone _ _ Hj')|done].
    - right. exists j, c, s. split_and!; try done; [lia|].
      intros j' c' s' [Hj'| ->]%Hsplit; [exact (Hmin _ _ _ Hj')|done]. }
  destruct (cashSorted !! k) as [ck|] eqn:Hck.
  2:{ destruct Hinv as [(Hj & Hs & Hnone)|(j & c & s & Hj & Hs & Hlt & Hc & Hu & Hsc & Hmin)].
      - left. split_and!; try done.
        intros j' c' [Hj'| ->]%Hsplit; [exact (Hnone _ _ Hj')|congruence].
      - right. exists j, c, s. split_and!; try done; [lia|].
        intros j' c' s' [Hj'| ->]%Hsplit; [exact (Hmin _ _ _ Hj')|congruence]. }
  destruct (candidateScore tol window b ck) as [sk|] eqn:Hsk.
  2:{ destruct Hinv as [(Hj & Hs & Hnone)|(j & c & s & Hj & Hs & Hlt & Hc & Hu & Hsc & Hmin)].
      - left. split_and!; try done.
        intros j' c' [Hj'| ->]%Hsplit; [exact (Hnone _ _ Hj')|congruence].
      - right. exists j, c, s. split_and!; try done; [lia|].
        intros j' c' s' [Hj'| ->]%Hsplit; [exact (Hmin _ _ _ Hj')|congruence]. }
  destruct Hinv as [(Hj & Hs & Hnone)|(j & c & s & Hj & Hs & Hlt & Hc & Hu & Hsc & Hmin)].
  - rewrite Hs. simpl. right. exists k, ck, sk. simpl. split_and!; try done; [lia|].
    intros j' c' s' [Hj'| ->]%Hsplit Hc' Hu' Hs'.
    + rewrite (Hnone j' c' Hj' Hc' Hu') in Hs'. done.
    + assert (s' = sk) as -> by congruence. split; [apply Qle_refl|lia].
  - rewrite Hs. simpl. destruct (JS.ltb sk s) eqn:Hcmp.
    + apply ltb_true in Hcmp.
      right. exists k, ck, sk. simpl. split_and!; try done; [lia|].
      intros j' c' s' [Hj'| ->]%Hsplit Hc' Hu' Hs'.
      * destruct (Hmin j' c' s' Hj' Hc' Hu' Hs') as [Hle _]. split; [lra|]. intros _. lra.
      * assert (s' = sk) as -> by congruence. split; [apply Qle_refl|lia].
    + apply ltb_false in Hcmp.
      right. exists j, c, s. rewrite Hs. split_and!; try done; [lia|].
      intros j' c' s' [Hj'| ->]%Hsplit Hc' Hu' Hs'.
      * exact (Hmin j' c' s' Hj' Hc' Hu' Hs').
      * assert (s' = sk) as -> by congruence. split; [done|lia].
Qed.

Lemma scan_min_upto usedCash b k :
  best_min cashSorted tol window usedCash b k
           (foldl (consider cashSorted tol window usedCash b) best_init (seq 0 k)).
Proof.
  induction k as [|k IH].
  - left. simpl. split_and!; try done. intros; lia.
  - rewrite seq_S, foldl_app. simpl. by apply consider_min.
Qed.
End Greedy.

(** X1 (reconcileSmart 321-343, part_001).  The scan for a bank row ends
    with [bestJ = -1] exactly when no unused cashbook row is a candidate;
    otherwise [bestJ] is the index of an unused candidate and
    [bestAmountDiff] and [bestDateDiff] are that candidate's.  With a
    tolerance of at most 9 the day distance decides before the amount and
    the description do: no unused candidate is closer in days than the one
    chosen.  (Which of the candidates at that distance is chosen depends on
    scores that the code computes in doubles, and is not stated.) *)
Theorem scan_picks_nearest_candidate cashSorted tol window usedCash b :
  let best := scan cashSorted tol window usedCash b in
  (bestJ best = (-1)%Z ∧
   ∀ j c, cashSorted !! j = Some c -> j ∉ usedCash ->
          candidateScore tol window b c = None) ∨
  (∃ j c, bestJ best = Z.of_nat j ∧ cashSorted !! j = Some c ∧ (j ∉ usedCash) ∧
          is_Some (candidateScore tol window b c) ∧
          bestAmountDiff best = JS.round2 (MappedRow.amount b - MappedRow.amount c) ∧
          daysBetween (MappedRow.dateISO b) (MappedRow.dateISO c) = Some (bestDateDiff best) ∧
          ((tol <= 9)%Q ->
           ∀ j' c' dd', cashSorted !! j' = Some c' -> j' ∉ usedCash ->
                        is_Some (candidateScore tol window b c') ->
                        daysBetween (MappedRow.dateISO b) (MappedRow.dateISO c') = Some dd' ->
                        (bestDateDiff best <= dd')%Z)).
Proof.
  intros best.
  destruct (scan_min_upto cashSorted tol window usedCash b (length cashSorted))
    as [(Hj & _ & Hnone)|(j & c & s & Hj & _ & _ & Hc & Hu & Hsc & Hmin)].
  - left. split; [done|]. intros j c Hc. apply (Hnone j c); [|done].
    by apply lookup_lt_Some in Hc.
  - right. exists j, c.
    destruct (scan_ok cashSorted tol window usedCash b)
      as [Hno|(j0 & c0 & Hj0 & Hc0 & _ & Hdd & Had & _ & _)].
    { fold best in Hno. unfold best, scan in Hno. rewrite Hj in Hno. lia. }
    fold best in Hj0, Hdd, Had.
    assert (j0 = j) as -> by (unfold best, scan in Hj0; rewrite Hj in Hj0; lia).
    assert (c0 = c) as -> by congruence.
    split_and!; try done.
    intros Htol j' c' dd' Hc' Hu' [s' Hs'] Hdd'.
    destruct (Hmin j' c' s' (lookup_lt_Some _ _ _ Hc') Hc' Hu' Hs') as [Hle _].
    unfold candidateScore in Hsc, Hs'. rewrite Hdd in Hsc. rewrite Hdd' in Hs'.
    cbv zeta in Hsc, Hs'.
    pose proof (descriptionScore_range (MappedRow.description b) (MappedRow.description c))
      as [Hd0 _].
    pose proof (descriptionScore_range (MappedRow.description b) (MappedRow.description c'))
      as [_ Hd50].
    rewrite Zle_Qle in Hd0, Hd50.
    change (inject_Z 0) with 0%Q in Hd0. change (inject_Z 50) with 50%Q in Hd50.
    pose proof (Qabs_nonneg (JS.round2 (MappedRow.amount b - MappedRow.amount c))) as Ha0.
    fold (JS.Math_abs (JS.round2 (MappedRow.amount b - MappedRow.amount c))) in Ha0.
    remember (JS.Math_abs (JS.round2 (MappedRow.amount b - MappedRow.amount c))) as A eqn:HA.
    remember (JS.Math_abs (JS.round2 (MappedRow.amount b - MappedRow.amount c'))) as A' eqn:HA'.
    remember (inject_Z (descriptionScore (MappedRow.description b) (MappedRow.description c)))
      as ds eqn:Hds.
    remember (inject_Z (descriptionScore (MappedRow.description b) (MappedRow.description c')))
      as ds' eqn:Hds'.
    clearbody best.
    destruct (JS.leb A' tol && JS.leb (inject_Z dd') window) eqn:Hin'; [|done].
    destruct (JS.leb A tol && JS.leb (inject_Z (bestDateDiff best)) window); [|done].
    assert (s = inject_Z (bestDateDiff best) * 1000 + A * 100 + ds)%Q as -> by congruence.
    assert (s' = inject_Z dd' * 1000 + A' * 100 + ds')%Q as -> by congruence.
    apply andb_true_iff in Hin' as [Ha' _]. apply Qle_bool_iff in Ha'.
    assert (inject_Z (bestDateDiff best) < inject_Z (dd' + 1))%Q as Hlt'.
    { rewrite inject_Z_plus. change (inject_Z 1) with 1%Q. lra. }
    rewrite <- Zlt_Qlt in Hlt'. lia.
Qed.

(** ** No two leftovers could have been paired *)

Section Maximal.
Variables (cashSorted : list MappedRow.t) (tol window : Q).

Lemma matchBank_alone usedCash pairs b :
  (matchBank cashSorted tol window (usedCash, pairs) b = (usedCash, pairs ++ [bankOnlyPair b]) ∧
   ∀ j c, cashSorted !! j = Some c -> j ∉ usedCash ->
          candidateScore tol window b c = None) ∨
  (∃ j c p, matchBank cashSorted tol window (usedCash, pairs) b
              = ({[ j ]} ∪ usedCash, pairs ++ [p]) ∧
            MatchPair.bank p = Some b ∧ MatchPair.cashbook p = Some c).
Proof.
  unfold matchBank, scan.
  destruct (scan_min_upto cashSorted tol window usedCash b (length cashSorted))
    as [(Hj & _ & Hnone)|(j & c & s & Hj & _ & _ & Hc & Hu & Hsc & Hmin)].
  - left. rewrite Hj. simpl. split; [done|].
    intros j c Hc. apply (Hnone j c); [|done]. by apply lookup_lt_Some in Hc.
  - right. rewrite Hj.
    assert ((Z.of_nat j =? -1)%Z = false) as -> by lia.
    simpl. rewrite Nat2Z.id, Hc. by eexists _, _, _.
Qed.

Lemma matchBank_alone_inv st b :
  alone_inv cashSorted tol window st ->
  alone_inv cashSorted tol window (matchBank cashSorted tol window st b).
Proof.
  destruct st as [usedCash pairs]. intros [Hbank Halone]. simpl in Hbank, Halone.
  destruct (matchBank_alone usedCash pairs b) as [[-> Hnone]|(j & c & p & -> & Hpb & Hpc)].
  - split; simpl.
    + apply Forall_app. split; [done|]. apply Forall_singleton. simpl. eauto.
    + intros p b' [Hp| ->%list_elem_of_singleton]%elem_of_app Hb' Hc'.
      * by apply (Halone p).
      * simpl in Hb'. injection Hb' as <-. exact Hnone.
  - split; simpl.
    + apply Forall_app. split; [done|]. apply Forall_singleton. rewrite Hpb. eauto.
    + intros q b' [Hq| ->%list_elem_of_singleton]%elem_of_app Hb' Hc'; [|congruence].
      intros j' c' Hl Hj'. apply (Halone q b' Hq Hb' Hc' j' c' Hl).
      intros Hin. apply Hj'. apply elem_of_union. by right.
Qed.

Lemma matchBank_alone_loop bs st :
  alone_inv cashSorted tol window st ->
  alone_inv cashSorted tol window (foldl (matchBank cashSorted tol window) st bs).
Proof.
  revert st. induction bs as [|b bs IH]; intros st Hst; simpl; [done|].
  by apply IH, matchBank_alone_inv.
Qed.

Lemma matchAll_maximal bankSorted p q b c :
  p ∈ matchAll bankSorted cashSorted tol window ->
  q ∈ matchAll bankSorted cashSorted tol window ->
  MatchPair.bank p = Some b -> MatchPair.cashbook p = None ->
  MatchPair.bank q = None -> MatchPair.cashbook q = Some c ->
  candidateScore tol window b c = None.
Proof.
  unfold matchAll.
  assert (alone_inv cashSorted tol window (∅, [])) as Hinit.
  { split; simpl; [constructor|]. intros ? ? Hin. by apply elem_of_nil in Hin. }
  apply (matchBank_alone_loop bankSorted) in Hinit.
  destruct (foldl _ _ bankSorted) as [usedCash pairs].
  destruct Hinit as [Hbank Halone]. simpl in Hbank, Halone.
  rewrite leftover_loop.
  intros [Hp|Hp]%elem_of_app [Hq|Hq]%elem_of_app Hpb Hpc Hqb Hqc.
  - rewrite Forall_forall in Hbank. destruct (Hbank q Hq) as [? ?]. congruence.
  - apply list_elem_of_fmap in Hq as (c' & -> & Hc').
    simpl in Hqc. injection Hqc as ->.
    apply list_elem_of_omap in Hc' as (j & Hj & Hl).
    apply list_elem_of_filter in Hj as [Hj _].
    by apply (Halone p b Hp Hpb Hpc j c).
  - apply list_elem_of_fmap in Hp as (c' & -> & _). done.
  - apply list_elem_of_fmap in Hp as (c' & -> & _). done.
Qed.
End Maximal.

(** X2. The matching is maximal: a bank row left alone and a cashbook row
    left alone are never candidates for each other (the cashbook row is
    outside the tolerance or the window of the bank row). *)
Theorem reconcileSmart_leftovers_not_candidates bank cash settings :
  let tol := ReconcileSettings.amountTolerance settings in
  let window := ReconcileSettings.dateWindowDays settings in
  ∀ p q b c,
    p ∈ Result.pairs (reconcileSmart bank cash settings) ->
    q ∈ Result.pairs (reconcileSmart bank cash settings) ->
    MatchPair.bank p = Some b -> MatchPair.cashbook p = None ->
    MatchPair.bank q = None -> MatchPair.cashbook q = Some c ->
    candidateScore tol window b c = None.
Proof.
  intros tol window p q b c Hp Hq. simpl in Hp, Hq.
  rewrite js_sort_perm in Hp, Hq.
  intros Hpb Hpc Hqb Hqc.
  exact (matchAll_maximal _ _ _ _ p q b c Hp Hq Hpb Hpc Hqb Hqc).
Qed.

(** X2 at a bank row of 5 January and a cashbook row of 8 January with a
    window of zero days: both are left alone. *)
Lemma reconcileSmart_leftovers_witness :
  Result.pairs (reconcileSmart [bankJan5] [cashJan8] strictExact)
    = [bankOnlyPair bankJan5; cashOnlyPair cashJan8] ∧
  candidateScore 0 0 bankJan5 cashJan8 = None.
Proof.
  assert (Hpairs : Result.pairs (reconcileSmart [bankJan5] [cashJan8] strictExact)
                   = [bankOnlyPair bankJan5; cashOnlyPair cashJan8])
    by (vm_compute; reflexivity).
  split; [exact Hpairs|].
  apply (reconcileSmart_leftovers_not_candidates [bankJan5] [cashJan8] strictExact
           (bankOnlyPair bankJan5) (cashOnlyPair cashJan8) bankJan5 cashJan8).
  - rewrite Hpairs. apply list_elem_of_here.
  - rewrite Hpairs. apply list_elem_of_further, list_elem_of_here.
  - reflexivity.
  - reflexivity.
  - reflexivity.
  - reflexivity.
Defined.

(** ** The display order *)

Lemma comparePairs_le p q : (comparePairs p q <= 0)%Q ↔ pair_le p q.
Proof.
  unfold comparePairs, pair_le.
  destruct (String.eqb_spec (pairDate p) (pairDate q)) as [Heq|Hne]; simpl.
  - rewrite Heq, string_compare_refl. split.
    + intros H. right. split; [done|]. lra.
    + intros [?|[_ H]]; [done|]. lra.
  - rewrite (localeCompare_le _ _ Hne). split; [by left|].
    by intros [?|[? _]].
Qed.

Lemma pair_le_total p q : pair_le p q ∨ pair_le q p.
Proof.
  unfold pair_le.
  destruct (string_compare_total (pairDate p) (pairDate q)) as [H|[H|H]]; [tauto| |tauto].
  destruct (Qlt_le_dec (pairAmount q) (pairAmount p)) as [Hlt|Hle].
  - right. right. split; [done|]. lra.
  - left. by right.
Qed.

Lemma pair_le_trans p q r : pair_le p q -> pair_le q r -> pair_le p r.
Proof.
  unfold pair_le. intros [H1|[H1 A1]] [H2|[H2 A2]].
  - left. by apply (string_compare_lt_trans _ (pairDate q)).
  - left. by rewrite <- H2.
  - left. by rewrite H1.
  - right. split; [congruence|]. lra.
Qed.

(** X3. The pairs of [reconcileSmart] are returned in display order: by the
    date of the side that is present (the bank side when both are), and
    among equal dates by its amount. *)
Theorem reconcileSmart_display_order bank cash settings :
  StronglySorted pair_le (Result.pairs (reconcileSmart bank cash settings)).
Proof.
  simpl. apply (js_sort_sorted comparePairs pair_le).
  - apply comparePairs_le.
  - apply pair_le_total.
  - apply pair_le_trans.
Qed.

(** ** The summary *)

Lemma sum_amounts_from {A} (f : A -> Q) (l : list A) (acc : Q) :
  (foldl (fun sum r => sum + f r) acc l == acc + foldr (fun r sum => f r + sum) 0 l)%Q.
Proof.
  revert acc. induction l as [|x l IH]; intros acc; simpl; [lra|].
  rewrite IH. lra.
Qed.

Lemma sum_amounts_perm {A} (f : A -> Q) (l k : list A) :
  l ≡ₚ k -> (sum_amounts f l == sum_amounts f k)%Q.
Proof.
  intros Hperm. unfold sum_amounts. rewrite !sum_amounts_from.
  apply Qplus_comp; [done|].
  induction Hperm as [|x l k _ IH|x y l|l k m _ IH1 _ IH2]; simpl; lra.
Qed.

Lemma round2_proper x y : (x == y)%Q -> JS.round2 x = JS.round2 y.
Proof.
  intros Hxy. unfold JS.round2, JS.Math_round.
  assert (x * 100 + (1 # 2) == y * 100 + (1 # 2))%Q as Heq by (rewrite Hxy; reflexivity).
  by rewrite (Qfloor_comp _ _ Heq).
Qed.

(** X4. The summary of [reconcileSmart] counts the inputs: the two row
    counts are the lengths of the inputs, the matched pairs are at most
    either of them, the unmatched counts are what remains on each side, and
    the totals are the rounded sums of the amounts of the rows as given. *)
Theorem reconcileSmart_summary bank cash settings :
  let t := Result.stats (reconcileSmart bank cash settings) in
  Totals.bankCount t = length bank ∧
  Totals.cashbookCount t = length cash ∧
  Totals.matchedPairs t + Totals.unmatchedBank t = length bank ∧
  Totals.matchedPairs t + Totals.unmatchedCash t = length cash ∧
  Totals.totalBank t = JS.round2 (sum_amounts MappedRow.amount bank) ∧
  Totals.totalCash t = JS.round2 (sum_amounts MappedRow.amount cash) ∧
  Totals.netDiff t = JS.round2 (Totals.totalBank t - Totals.totalCash t).
Proof.
  intros t.
  destruct (reconcileSmart_pairs bank cash settings) as (Hall & Hbank & Hcash).
  destruct (produced_counts _ _ _ Hall) as [Hb Hc].
  rewrite Hbank in Hb. rewrite Hcash in Hc.
  split_and!.
  - apply (Permutation_length (js_sort_perm compareRows bank)).
  - apply (Permutation_length (js_sort_perm compareRows cash)).
  - exact Hb.
  - exact Hc.
  - apply round2_proper, sum_amounts_perm, js_sort_perm.
  - apply round2_proper, sum_amounts_perm, js_sort_perm.
  - done.
Qed.

(** ** An empty side *)

Lemma matchAll_no_cashbook bankSorted tol window :
  matchAll bankSorted [] tol window = bankOnlyPair <$> bankSorted.
Proof.
  unfold matchAll.
  assert (∀ pairs, foldl (matchBank [] tol window) (∅, pairs) bankSorted
                   = (∅, pairs ++ (bankOnlyPair <$> bankSorted))) as ->.
  { induction bankSorted as [|b bs IH]; intros pairs; simpl.
    - by rewrite app_nil_r.
    - rewrite IH. by rewrite <- app_assoc. }
  done.
Qed.

Lemma filter_all {A} (P : A -> Prop) `{∀ x, Decision (P x)} (l : list A) :
  (∀ x, P x) -> filter P l = l.
Proof.
  intros HP. induction l as [|x l IH]; [done|].
  by rewrite filter_cons_True, IH.
Qed.

Lemma matchAll_no_bank cashSorted tol window :
  matchAll [] cashSorted tol window = cashOnlyPair <$> cashSorted.
Proof.
  unfold matchAll. simpl. rewrite leftover_loop. simpl.
  rewrite filter_all; [by rewrite omap_lookup_seq|].
  intros j. apply not_elem_of_empty.
Qed.

(** X5. With no cashbook rows every bank row becomes a bank-only pair and
    nothing is matched; with no bank rows every cashbook row becomes a
    cashbook-only pair. *)
Theorem reconcileSmart_empty_side rows settings :
  Result.pairs (reconcileSmart rows [] settings) ≡ₚ bankOnlyPair <$> rows ∧
  Totals.matchedPairs (Result.stats (reconcileSmart rows [] settings)) = 0 ∧
  Result.pairs (reconcileSmart [] rows settings) ≡ₚ cashOnlyPair <$> rows ∧
  Totals.matchedPairs (Result.stats (reconcileSmart [] rows settings)) = 0.
Proof.
  assert (∀ (f : MappedRow.t -> MatchPair.t) l,
            (∀ r, MatchPair.matched (f r) = false) ->
            length (filter (fun p => is_matched p = true) (f <$> l)) = 0) as Hnone.
  { intros f l Hf. induction l as [|r l IH]; [done|].
    rewrite fmap_cons, filter_cons_False; [done|].
    unfold is_matched. by rewrite Hf. }
  split_and!.
  - simpl. rewrite js_sort_perm, matchAll_no_cashbook. by rewrite js_sort_perm.
  - change (length (filter (fun p => is_matched p = true)
                           (Result.pairs (reconcileSmart rows [] settings))) = 0).
    simpl. rewrite js_sort_perm, matchAll_no_cashbook. by apply Hnone.
  - simpl. rewrite js_sort_perm, matchAll_no_bank. by rewrite js_sort_perm.
  - change (length (filter (fun p => is_matched p = true)
                           (Result.pairs (reconcileSmart [] rows settings))) = 0).
    simpl. rewrite js_sort_perm, matchAll_no_bank. by apply Hnone.
Qed.

(** * Properties of the normalizer and the validator *)

Section NormalizerFacts.
Variable toISODate : string -> DateFormat -> option (string * string).
Variable Number_toString : Q -> string.
Variables (map : Mapping.t) (src : Source) (settings : ReconcileSettings.t).

Lemma normalizeRow_one rows out i :
  normalizeRow toISODate Number_toString rows map src settings out i =
  out ++ option_list (normalizeOne toISODate Number_toString map src settings i
                                   (default ∅ (rows !! i))).
Proof.
  unfold normalizeRow, normalizeOne.
  destruct (toISODate _ _) as [[iso dateStr]|]; simpl; [|by rewrite app_nil_r].
  destruct (rowAmount _ map); simpl; [done|by rewrite app_nil_r].
Qed.

Lemma normalizeRow_loop_ext rows rows' out idxs :
  (∀ i, i ∈ idxs -> rows !! i = rows' !! i) ->
  foldl (normalizeRow toISODate Number_toString rows map src settings) out idxs =
  foldl (normalizeRow toISODate Number_toString rows' map src settings) out idxs.
Proof.
  revert out. induction idxs as [|i idxs IH]; intros out Hext; simpl; [done|].
  rewrite !normalizeRow_one, (Hext i) by (by left).
  apply IH. intros j Hj. apply Hext. by right.
Qed.

(** The rows are taken one after the other: a further row adds at most its
    own transaction at the end. *)
Lemma normalizeRows_snoc rows r :
  normalizeRows toISODate Number_toString (rows ++ [r]) map src settings =
  normalizeRows toISODate Number_toString rows map src settings
  ++ option_list (normalizeOne toISODate Number_toString map src settings (length rows) r).
Proof.
  unfold normalizeRows. rewrite length_app. simpl.
  rewrite Nat.add_1_r, seq_S, foldl_app. simpl.
  rewrite normalizeRow_one, list_lookup_middle by done. simpl. f_equal.
  apply normalizeRow_loop_ext. intros i Hi.
  apply elem_of_seq in Hi. by rewrite lookup_app_l by lia.
Qed.

Lemma normalizeOne_from_row rows r t :
  normalizeOne toISODate Number_toString map src settings (length rows) r = Some t ->
  from_row (rows ++ [r]) map src t ∧ MappedRow.index t = length rows.
Proof.
  unfold normalizeOne, from_row.
  destruct (toISODate _ _) as [[iso dateStr]|]; [|done].
  destruct (rowAmount r map) as [amount|] eqn:Ha; [|done].
  intros [= <-]. simpl. by rewrite list_lookup_middle.
Qed.

Lemma from_row_app rows r t : from_row rows map src t -> from_row (rows ++ [r]) map src t.
Proof.
  unfold from_row. intros (Hl & ? & ? & ?). split_and!; try done.
  by apply lookup_app_l_Some.
Qed.

Lemma normalizeRows_provenance rows :
  let out := normalizeRows toISODate Number_toString rows map src settings in
  Forall (from_row rows map src) out ∧
  Forall (fun t => MappedRow.index t < length rows) out ∧
  StronglySorted (fun t u => MappedRow.index t < MappedRow.index u) out.
Proof.
  induction rows as [|r rows IH] using rev_ind.
  - simpl. split_and!; constructor.
  - destruct IH as (Hfrom & Hlt & Hsorted).
    rewrite normalizeRows_snoc, length_app. simpl.
    destruct (normalizeOne _ _ _ _ _ _ r) as [t|] eqn:Ht; simpl.
    + apply normalizeOne_from_row in Ht as [Ht Hidx]. split_and!.
      * apply Forall_app. split; [|by apply Forall_singleton].
        eapply Forall_impl; [exact Hfrom|]. intros u. apply from_row_app.
      * apply Forall_app. split; [|apply Forall_singleton; lia].
        eapply Forall_impl; [exact Hlt|]. simpl. lia.
      * apply StronglySorted_app_2; [|done|repeat constructor].
        intros u v Hu ->%list_elem_of_singleton.
        rewrite Forall_forall in Hlt. specialize (Hlt u Hu). lia.
    + rewrite app_nil_r. split_and!; [|eapply Forall_impl; [exact Hlt|]; simpl; lia|done].
      eapply Forall_impl; [exact Hfrom|]. intros u. apply from_row_app.
Qed.
End NormalizerFacts.

(** * The normalizer and the validator *)

Lemma append_inj_r (s a b : string) : s +:+ a = s +:+ b -> a = b.
Proof. induction s as [|c s IH]; simpl; [done|]. intros [= H]. by apply IH. Qed.

Lemma append_assoc3 (a b c : string) : a +:+ b +:+ c = (a +:+ b) +:+ c.
Proof.
  induction a as [|x a IH]; [done|].
  change (String x (a +:+ b +:+ c) = String x ((a +:+ b) +:+ c)). by rewrite IH.
Qed.

Lemma ids_of_sorted_indices pre (out : list MappedRow.t) :
  Forall (fun t => MappedRow.id t = pre +:+ pretty (MappedRow.index t)) out ->
  StronglySorted (fun t u => MappedRow.index t < MappedRow.index u) out ->
  NoDup (MappedRow.id <$> out).
Proof.
  intros Hid Hs. induction Hs as [|t out Hs IH Hall]; simpl; [constructor|].
  apply Forall_cons in Hid as [Ht Hid]. constructor; [|by apply IH].
  intros (u & Hu & Hin)%list_elem_of_fmap.
  rewrite Forall_forall in Hall, Hid. specialize (Hall u Hin). specialize (Hid u Hin).
  rewrite Ht, Hid in Hu. apply append_inj_r in Hu.
  apply (inj pretty) in Hu. lia.
Qed.

Section NormalizerKeeps.
Variable toISODate : string -> DateFormat -> option (string * string).
Variable Number_toString : Q -> string.
Variables (map : Mapping.t) (settings : ReconcileSettings.t).

Lemma normalizeOne_is_Some src i r :
  is_Some (normalizeOne toISODate Number_toString map src settings i r) <->
  dateOk toISODate Number_toString map settings r = true ∧ is_Some (rowAmount r map).
Proof.
  unfold normalizeOne, dateOk.
  destruct (toISODate _ _) as [[iso dateStr]|]; simpl.
  - destruct (rowAmount r map); simpl.
    + split; [intros _; split; [done|by eexists]|by eexists].
    + split; [by intros []|]. by intros [_ []].
  - split; [by intros []|]. by intros [H _].
Qed.

Lemma normalizeOne_raw src i r t :
  normalizeOne toISODate Number_toString map src settings i r = Some t -> MappedRow.raw t = r.
Proof.
  unfold normalizeOne.
  destruct (toISODate _ _) as [[iso dateStr]|]; [|done].
  destruct (rowAmount r map); [|done]. by intros [= <-].
Qed.

Lemma normalizeRows_raw src rows :
  MappedRow.raw <$> normalizeRows toISODate Number_toString rows map src settings =
  filter (fun r => dateOk toISODate Number_toString map settings r = true ∧
                   is_Some (rowAmount r map)) rows.
Proof.
  induction rows as [|r rows IH] using rev_ind; [done|].
  rewrite normalizeRows_snoc, fmap_app, filter_app, IH. f_equal.
  destruct (normalizeOne _ _ _ _ _ _ r) as [t|] eqn:Ht; simpl.
  - rewrite filter_cons_True.
    + by rewrite (normalizeOne_raw _ _ _ _ Ht).
    + apply (normalizeOne_is_Some src (length rows)). by rewrite Ht.
  - rewrite filter_cons_False; [done|].
    intros H. apply (normalizeOne_is_Some src (length rows)) in H.
    rewrite Ht in H. by destruct H.
Qed.
End NormalizerKeeps.

Lemma source_name_prefix_ne a b :
  source_name Bank +:+ "-" +:+ a ≠ source_name Cashbook +:+ "-" +:+ b.
Proof. done. Qed.

(** X6 (normalizeRows, part_001 180-212).  Every transaction of the
    normalizer comes from the row at its index, carries the source and the
    id [<source>-<index>], and has the amount computed from that row; the
    transactions keep the order of the rows, so their ids are pairwise
    different, and an id of a bank transaction is never the id of a
    cashbook transaction. *)
Theorem normalizeRows_provenance_ids
        (toISODate : string -> DateFormat -> option (string * string))
        (Number_toString : Q -> string) map src settings rows :
  let out := normalizeRows toISODate Number_toString rows map src settings in
  Forall (from_row rows map src) out ∧
  StronglySorted (fun t u => MappedRow.index t < MappedRow.index u) out ∧
  NoDup (MappedRow.id <$> out) ∧
  ∀ map' settings' rows' t u,
    t ∈ normalizeRows toISODate Number_toString rows map Bank settings ->
    u ∈ normalizeRows toISODate Number_toString rows' map' Cashbook settings' ->
    MappedRow.id t ≠ MappedRow.id u.
Proof.
  intros out.
  destruct (normalizeRows_provenance toISODate Number_toString map src settings rows)
    as (Hfrom & _ & Hsorted).
  split_and!; [done|done| |].
  - apply (ids_of_sorted_indices (source_name src +:+ "-")); [|done].
    eapply Forall_impl; [exact Hfrom|]. intros t (_ & _ & Hid & _).
    rewrite Hid. apply append_assoc3.
  - intros map' settings' rows' t u Ht Hu.
    destruct (normalizeRows_provenance toISODate Number_toString map Bank settings rows)
      as (Hb & _ & _).
    destruct (normalizeRows_provenance toISODate Number_toString map' Cashbook settings' rows')
      as (Hc & _ & _).
    rewrite Forall_forall in Hb, Hc.
    destruct (Hb t Ht) as (_ & _ & -> & _). destruct (Hc u Hu) as (_ & _ & -> & _).
    apply source_name_prefix_ne.
Qed.

(** X7 (normalizeRows, part_001 180-212).  The rows behind the
    transactions are exactly the input rows whose date parses and whose
    amount is not [null], in the order of the input: nothing else is
    dropped, nothing is duplicated or reordered. *)
Theorem normalizeRows_keeps
        (toISODate : string -> DateFormat -> option (string * string))
        (Number_toString : Q -> string) map src settings rows :
  MappedRow.raw <$> normalizeRows toISODate Number_toString rows map src settings =
  filter (fun r => dateOk toISODate Number_toString map settings r = true ∧
                   is_Some (rowAmount r map)) rows.
Proof. apply normalizeRows_raw. Qed.

Section ValidatorFacts.
Variable toISODate : string -> DateFormat -> option (string * string).
Variable Number_toString : Q -> string.
Variable rate_high : nat -> nat -> bool.
Variables (mapping : Mapping.t) (settings : ReconcileSettings.t).

Lemma countRow_loop (rows : list RawRow) a b c :
  foldl (countRow toISODate Number_toString mapping settings) (a, b, c) rows =
  (a + length (filter (fun r => dateOk toISODate Number_toString mapping settings r = false) rows),
   b + length (filter (fun r => amountOk mapping r = false) rows),
   c + length (filter (fun r => emptyRow Number_toString mapping r = true) rows)).
Proof.
  revert a b c. induction rows as [|r rows IH]; intros a b c; simpl.
  - by rewrite !Nat.add_0_r.
  - rewrite IH. rewrite !filter_cons.
    destruct (dateOk _ _ _ _ r), (amountOk mapping r), (emptyRow _ mapping r); simpl;
      repeat case_decide; try done; simpl; repeat f_equal; lia.
Qed.

Lemma is_missing_false parsed k :
  is_missing parsed mapping k ≠ true <-> column_present parsed (mapping_get mapping k).
Proof.
  unfold is_missing, column_present. destruct (truthy _); simpl.
  - rewrite negb_true_iff, bool_decide_eq_false. split; [|tauto].
    intros H. split; [done|]. by apply dec_stable.
  - split; [done|]. by intros [? _].
Qed.

Lemma filter_nil_Forall {A} (P : A -> Prop) `{!∀ x, Decision (P x)} (l : list A) :
  filter P l = [] <-> Forall (fun x => ¬ P x) l.
Proof.
  induction l as [|x l IH]; [by split; [constructor|]|].
  rewrite filter_cons, Forall_cons. case_decide; [split; [done|tauto]|tauto].
Qed.

Lemma missingKeys_nil parsed :
  missingKeys parsed mapping = [] <-> required_present parsed mapping.
Proof.
  unfold missingKeys, required_present, requiredKeys.
  rewrite filter_nil_Forall.
  destruct (Mapping.mode mapping); simpl;
    rewrite !Forall_cons, Forall_nil, !is_missing_false; simpl; tauto.
Qed.
End ValidatorFacts.

Lemma validateDataset_report
        (toISODate : string -> DateFormat -> option (string * string))
        (Number_toString : Q -> string) (rate_high : nat -> nat -> bool)
        parsed mapping settings :
  ∃ rep,
    validateDataset toISODate Number_toString rate_high (Some parsed) (Some mapping) settings
      = Some rep ∧
    (ValidationReport.ok rep = true <-> required_present parsed mapping) ∧
    (ValidationReport.ok rep = true <->
     Forall (fun i => ValidationIssue.type i = IssueWarning) (ValidationReport.issues rep)).
Proof.
  unfold validateDataset.
  destruct (foldl _ _ _) as [[invalidDate invalidAmount] emptyRows].
  eexists. split; [reflexivity|].
  pose proof (missingKeys_nil mapping parsed) as Hm.
  destruct (missingKeys parsed mapping) as [|k ks];
    destruct (rate_high invalidDate _), (rate_high invalidAmount _); simpl.
  all: try (assert (required_present parsed mapping) as Hr by (by apply Hm);
            split; [tauto|]; split; [intros _; repeat constructor|done]).
  all: assert (¬ required_present parsed mapping) as Hr by (by intros H%Hm).
  all: split; [split; [done|tauto]|]; split; [done|].
  all: by intros [? _]%Forall_cons.
Qed.

(** X8 (validateDataset, part_001 223-264).  For a parsed file and a
    mapping the validator always returns a report, and the report is [ok]
    exactly when the date column and, by mode, the amount column or both
    the debit and the credit column are named and among the headers.  The
    rate warnings never stand in the way: [ok] is the same as "every issue
    is a warning". *)
Theorem validateDataset_ok_iff
        (toISODate : string -> DateFormat -> option (string * string))
        (Number_toString : Q -> string) (rate_high : nat -> nat -> bool)
        parsed mapping settings :
  ∃ rep,
    validateDataset toISODate Number_toString rate_high (Some parsed) (Some mapping) settings
      = Some rep ∧
    (ValidationReport.ok rep = true <-> required_present parsed mapping) ∧
    (ValidationReport.ok rep = true <->
     Forall (fun i => ValidationIssue.type i = IssueWarning) (ValidationReport.issues rep)).
Proof. apply validateDataset_report. Qed.

Lemma filter_length_impl {A} (P Q : A -> Prop) `{!∀ x, Decision (P x)} `{!∀ x, Decision (Q x)}
      (l : list A) :
  (∀ x, P x -> Q x) -> length (filter P l) ≤ length (filter Q l).
Proof.
  intros HPQ. induction l as [|x l IH]; [done|].
  rewrite !filter_cons. repeat case_decide; simpl; try lia. exfalso. auto.
Qed.

Lemma filter_length_le {A} (P : A -> Prop) `{!∀ x, Decision (P x)} (l : list A) :
  length (filter P l) ≤ length l.
Proof.
  induction l as [|x l IH]; [done|]. rewrite filter_cons. case_decide; simpl; lia.
Qed.

Lemma truthy_false s : truthy s = false -> s = "".
Proof. by destruct s. Qed.

Lemma toISODate_empty Date_local fmt : toISODate Date_local "" fmt = None.
Proof. reflexivity. Qed.

Lemma parseAmount_blank v : is_blank_cell v = true -> parseAmount v = None.
Proof. destruct v as [| | x|[|c s]]; done. Qed.

Lemma emptyRow_blank Number_toString mapping (r : RawRow) k :
  emptyRow Number_toString mapping r = true -> is_blank_cell (row_get r k) = true.
Proof.
  unfold emptyRow. intros [_ Hall]%andb_true_iff.
  unfold row_get. destruct (r !! k) as [v|] eqn:Hk; [|done]. simpl.
  rewrite forallb_forall in Hall. apply Hall.
  apply list_elem_of_In, list_elem_of_fmap. exists (k, v). split; [done|].
  by apply elem_of_map_to_list.
Qed.

Lemma emptyRow_amount Number_toString mapping (r : RawRow) :
  emptyRow Number_toString mapping r = true -> amountOk mapping r = false.
Proof.
  intros He. unfold amountOk.
  destruct (Mapping.mode mapping).
  - destruct (truthy _); [|done].
    by rewrite (parseAmount_blank _ (emptyRow_blank _ _ _ _ He)).
  - by rewrite !(parseAmount_blank _ (emptyRow_blank _ _ _ _ He)).
Qed.

Lemma emptyRow_date Date_local Number_toString mapping settings (r : RawRow) :
  emptyRow Number_toString mapping r = true ->
  dateOk (toISODate Date_local) Number_toString mapping settings r = false.
Proof.
  unfold emptyRow, dateOk. intros [Hdv _]%andb_true_iff.
  apply negb_true_iff, truthy_false in Hdv. by rewrite Hdv, toISODate_empty.
Qed.

(** X9 (validateDataset, part_001 238-257 and 263).  The statistics of the
    report are taken over the first thousand rows at most: [totalRows] is
    their number, and 1 for a file without rows; neither counter exceeds
    that number; and a row counted as empty is also counted as a row with
    an invalid date and as a row with an invalid amount. *)
Theorem validateDataset_stats
        (Date_local : string -> option (Z * Z * Z))
        (Number_toString : Q -> string) (rate_high : nat -> nat -> bool)
        parsed mapping settings :
  ∃ rep,
    validateDataset (toISODate Date_local) Number_toString rate_high
                    (Some parsed) (Some mapping) settings = Some rep ∧
    let st := ValidationReport.stats rep in
    let n := Nat.min (length (ParseResult.rows parsed)) 1000 in
    ValidationStats.totalRows st = Nat.max 1 n ∧
    ValidationStats.invalidDate st ≤ n ∧
    ValidationStats.invalidAmount st ≤ n ∧
    ValidationStats.emptyRows st ≤ ValidationStats.invalidDate st ∧
    ValidationStats.emptyRows st ≤ ValidationStats.invalidAmount st.
Proof.
  unfold validateDataset. rewrite countRow_loop.
  eexists. split; [reflexivity|]. simpl.
  set (sample := take _ (ParseResult.rows parsed)).
  assert (Hlen : length sample = Nat.min (length (ParseResult.rows parsed)) 1000).
  { unfold sample. rewrite length_take. lia. }
  rewrite <- Hlen. split_and!.
  - destruct (length sample); simpl; lia.
  - apply filter_length_le.
  - apply filter_length_le.
  - apply filter_length_impl. intros r. apply emptyRow_date.
  - apply filter_length_impl. intros r. apply emptyRow_amount.
Qed.

Lemma filter_two_counts {A} (f g : A -> bool) (l : list A) :
  let k := length (filter (fun x => f x = true ∧ g x = true) l) in
  let a := length (filter (fun x => f x = false) l) in
  let b := length (filter (fun x => g x = false) l) in
  length l ≤ k + a + b ∧ k + a ≤ length l ∧ k + b ≤ length l ∧
  length (filter (fun x => f x = true) l) + a = length l.
Proof.
  induction l as [|x l IH]; simpl; [lia|].
  rewrite !filter_cons. simpl in IH.
  destruct (f x), (g x); repeat case_decide; simpl; try lia; try tauto; try done.
  all: exfalso; tauto.
Qed.

Lemma rowAmount_amount_mode mapping (r : RawRow) :
  Mapping.mode mapping = ModeAmount ->
  is_Some (rowAmount r mapping) <-> amountOk mapping r = true.
Proof.
  unfold rowAmount, amountOk. intros ->.
  destruct (truthy _); [by rewrite bool_decide_eq_true|].
  split; [by intros []|done].
Qed.

Lemma rowAmount_debitcredit_mode mapping (r : RawRow) :
  Mapping.mode mapping = ModeDebitCredit ->
  is_Some (rowAmount r mapping) <->
  truthy (Mapping.debit mapping) || truthy (Mapping.credit mapping) = true.
Proof.
  unfold rowAmount. intros ->.
  destruct (truthy _ || truthy _); [by split; [|eexists]|].
  split; [by intros []|done].
Qed.

(** X10 (validateDataset 238-257 with normalizeRows 182-199, part_001).
    For a file of at most a thousand rows the validator counts what the
    normalizer drops: [invalidDate] is the number of rows whose date does
    not parse and [invalidAmount] the number of rows without an amount.
    With one amount column the normalizer keeps, in their order, exactly
    the rows that are counted under neither.  With debit and credit
    columns, one of them named, it keeps exactly the rows whose date parses,
    also the rows counted as invalid amount (their amount is 0); with
    neither named it keeps nothing. *)
Theorem validateDataset_bounds_normalizeRows
        (toISODate : string -> DateFormat -> option (string * string))
        (Number_toString : Q -> string) (rate_high : nat -> nat -> bool)
        parsed mapping src settings :
  length (ParseResult.rows parsed) ≤ 1000 ->
  ∃ rep,
    validateDataset toISODate Number_toString rate_high (Some parsed) (Some mapping) settings
      = Some rep ∧
    let rows := ParseResult.rows parsed in
    let out := normalizeRows toISODate Number_toString rows mapping src settings in
    let date_ok r := dateOk toISODate Number_toString mapping settings r in
    let invalidDate := ValidationStats.invalidDate (ValidationReport.stats rep) in
    let invalidAmount := ValidationStats.invalidAmount (ValidationReport.stats rep) in
    invalidDate = length (filter (fun r => date_ok r = false) rows) ∧
    invalidAmount = length (filter (fun r => amountOk mapping r = false) rows) ∧
    match Mapping.mode mapping with
    | ModeAmount =>
        MappedRow.raw <$> out
          = filter (fun r => date_ok r = true ∧ amountOk mapping r = true) rows ∧
        length rows ≤ length out + invalidDate + invalidAmount ∧
        length out + invalidDate ≤ length rows ∧
        length out + invalidAmount ≤ length rows
    | ModeDebitCredit =>
        if truthy (Mapping.debit mapping) || truthy (Mapping.credit mapping)
        then MappedRow.raw <$> out = filter (fun r => date_ok r = true) rows ∧
             length out + invalidDate = length rows ∧
             ∀ t, t ∈ out -> amountOk mapping (MappedRow.raw t) = false ->
                  (MappedRow.amount t == 0)%Q
        else out = []
    end.
Proof.
  intros Hn. unfold validateDataset. rewrite countRow_loop.
  rewrite Nat.min_l, firstn_all by done.
  eexists. split; [reflexivity|].
  cbv zeta. cbn [ValidationReport.stats ValidationStats.invalidDate
                 ValidationStats.invalidAmount].
  rewrite !Nat.add_0_l.
  set (rows := ParseResult.rows parsed).
  set (date_ok := dateOk toISODate Number_toString mapping settings).
  set (out := normalizeRows toISODate Number_toString rows mapping src settings).
  split; [done|]. split; [done|].
  pose proof (normalizeRows_raw toISODate Number_toString mapping settings src rows) as Hraw.
  fold out in Hraw.
  pose proof (filter_two_counts date_ok (amountOk mapping) rows) as (H1 & H2 & H3 & H4).
  destruct (Mapping.mode mapping) eqn:Hmode.
  - rewrite (list_filter_iff _ (fun r => date_ok r = true ∧ amountOk mapping r = true)) in Hraw
      by (intros r; by rewrite (rowAmount_amount_mode _ _ Hmode)).
    split; [done|].
    assert (length out = length (filter (fun r => date_ok r = true ∧ amountOk mapping r = true)
                                        rows)) as ->
      by (by rewrite <- Hraw, length_fmap).
    unfold date_ok in *. lia.
  - destruct (truthy _ || truthy _) eqn:Hcols.
    + rewrite (list_filter_iff _ (fun r => date_ok r = true)) in Hraw
        by (intros r; rewrite (rowAmount_debitcredit_mode _ _ Hmode); tauto).
      split; [done|]. split.
      * assert (length out = length (filter (fun r => date_ok r = true) rows)) as ->
          by (by rewrite <- Hraw, length_fmap).
        unfold date_ok in *. lia.
      * intros t Ht Hbad.
        destruct (normalizeRows_provenance toISODate Number_toString mapping src settings rows)
          as (Hfrom & _ & _).
        rewrite Forall_forall in Hfrom. destruct (Hfrom t Ht) as (_ & _ & _ & Hamt).
        unfold rowAmount in Hamt. unfold amountOk in Hbad.
        rewrite Hmode, ?Hcols in Hamt, Hbad.
        apply orb_false_iff in Hbad as [Hd Hc].
        apply bool_decide_eq_false in Hd, Hc.
        destruct (parseAmount (row_get _ (or_else (Mapping.debit mapping) ""))); [by destruct Hd|].
        destruct (parseAmount (row_get _ (or_else (Mapping.credit mapping) ""))); [by destruct Hc|].
        rewrite Hcols in Hamt. injection Hamt as <-.
        by destruct (Mapping.signConvention mapping).
    + rewrite (list_filter_iff _ (fun r => False)) in Hraw.
      * assert (filter (fun _ : RawRow => False) rows = []) as Hnil
          by (clear; by induction rows).
        rewrite Hnil in Hraw. by apply fmap_nil_inv in Hraw.
      * intros r. rewrite (rowAmount_debitcredit_mode _ _ Hmode), Hcols.
        split; [by intros [_ ?]|done].
Qed.

(** X10 at the small statement, one amount column, and at the small ledger,
    debit and credit columns: the reports carry the two warnings; of the
    statement the rows 0 and 3 are kept, of the ledger two of the three
    rows, one row being counted as invalid date. *)
Lemma validateDataset_bounds_normalizeRows_witness :
  length (ParseResult.rows statement) ≤ 1000 ∧
  length (ParseResult.rows ledger) ≤ 1000 ∧
  validateDataset (toISODate no_Date_local) no_Number_toString rate_above_ten
                  (Some statement) (Some statementMapping) DEFAULT_SETTINGS
    = Some statementReport ∧
  MappedRow.index <$> normalizeRows (toISODate no_Date_local) no_Number_toString
                                    (ParseResult.rows statement) statementMapping Bank
                                    DEFAULT_SETTINGS = [0; 3] ∧
  validateDataset (toISODate no_Date_local) no_Number_toString rate_above_ten
                  (Some ledger) (Some ledgerMapping) DEFAULT_SETTINGS
    = Some ledgerReport ∧
  length (normalizeRows (toISODate no_Date_local) no_Number_toString (ParseResult.rows ledger)
                        ledgerMapping Bank DEFAULT_SETTINGS)
  + ValidationStats.invalidDate (ValidationReport.stats ledgerReport)
  = length (ParseResult.rows ledger).
Proof.
  assert (H1 : length (ParseResult.rows statement) ≤ 1000) by (simpl; lia).
  assert (H2 : length (ParseResult.rows ledger) ≤ 1000) by (simpl; lia).
  destruct (validateDataset_bounds_normalizeRows
              (toISODate no_Date_local) no_Number_toString rate_above_ten
              statement statementMapping Bank DEFAULT_SETTINGS H1)
    as (rep1 & Hrep1 & _ & _ & Hrows1 & _).
  destruct (validateDataset_bounds_normalizeRows
              (toISODate no_Date_local) no_Number_toString rate_above_ten
              ledger ledgerMapping Bank DEFAULT_SETTINGS H2)
    as (rep2 & Hrep2 & _ & _ & _ & Hcount2 & _).
  assert (rep1 = statementReport) as ->
    by (apply (inj Some); rewrite <- Hrep1; vm_compute; reflexivity).
  assert (rep2 = ledgerReport) as ->
    by (apply (inj Some); rewrite <- Hrep2; vm_compute; reflexivity).
  split; [exact H1|]. split; [exact H2|]. split; [exact Hrep1|].
  split; [vm_compute; reflexivity|]. split; [exact Hrep2|]. exact Hcount2.
Defined.

(** * Dates *)

Lemma forallZ_spec f n z x :
  forallZ f n z = true -> (z <= x < z + Z.of_nat n)%Z -> f x = true.
Proof.
  revert z. induction n as [|n IH]; intros z H Hx; [lia|].
  simpl in H. apply andb_true_iff in H as [Hz H].
  destruct (decide (x = z)) as [->|Hne]; [done|].
  apply (IH (z + 1)%Z); [done|lia].
Qed.

Lemma doe_check_all : forallZ doe_check (Z.to_nat 146097) 0%Z = true.
Proof. vm_compute. reflexivity. Qed.

Lemma civil_check_all : forallZ civil_check 400 0%Z = true.
Proof. vm_compute. reflexivity. Qed.

Lemma four_digits_pretty_all :
  forallZ (fun y => bool_decide (four_digits (pretty y) = Some y)) (Z.to_nat 9000) 1000%Z = true.
Proof. vm_compute. reflexivity. Qed.

Lemma two_digits_pad_all :
  forallZ (fun n => bool_decide (two_digits (pad n) = Some n)) 100 0%Z = true.
Proof. vm_compute. reflexivity. Qed.

Lemma days_from_civil_shift y m d k :
  (days_from_civil (y + 400 * k) m d = days_from_civil y m d + 146097 * k)%Z.
Proof.
  unfold days_from_civil. destruct (m <=? 2)%Z.
  - replace (y + 400 * k - 1)%Z with (y - 1 + k * 400)%Z by lia.
    rewrite Z.div_add by lia.
    replace (y - 1 + k * 400 - ((y - 1) / 400 + k) * 400)%Z
      with (y - 1 - (y - 1) / 400 * 400)%Z by lia.
    lia.
  - replace (y + 400 * k)%Z with (y + k * 400)%Z by lia.
    rewrite Z.div_add by lia.
    replace (y + k * 400 - (y / 400 + k) * 400)%Z with (y - y / 400 * 400)%Z by lia.
    lia.
Qed.

Lemma is_leap_shift y k : is_leap (y + 400 * k) = is_leap y.
Proof.
  unfold is_leap.
  replace ((y + 400 * k) mod 4)%Z with (y mod 4)%Z
    by (replace (y + 400 * k)%Z with (y + (100 * k) * 4)%Z by lia;
        by rewrite Z.mod_add by lia).
  replace ((y + 400 * k) mod 100)%Z with (y mod 100)%Z
    by (replace (y + 400 * k)%Z with (y + (4 * k) * 100)%Z by lia;
        by rewrite Z.mod_add by lia).
  replace ((y + 400 * k) mod 400)%Z with (y mod 400)%Z
    by (replace (y + 400 * k)%Z with (y + k * 400)%Z by lia;
        by rewrite Z.mod_add by lia).
  done.
Qed.

Lemma valid_date_shift y m d k : valid_date (y + 400 * k) m d = valid_date y m d.
Proof. unfold valid_date, days_in_month. by rewrite is_leap_shift. Qed.

Lemma civil_from_days_shift z k :
  civil_from_days (z + 146097 * k) =
  let '(y, m, d) := civil_from_days z in ((y + 400 * k)%Z, m, d).
Proof.
  unfold civil_from_days.
  replace (z + 146097 * k + 719468)%Z with (z + 719468 + k * 146097)%Z by lia.
  rewrite Z.div_add by lia.
  replace (z + 719468 + k * 146097 - ((z + 719468) / 146097 + k) * 146097)%Z
    with (z + 719468 - (z + 719468) / 146097 * 146097)%Z by lia.
  destruct (civil_of_doe _) as [[y m] d]. f_equal. f_equal. lia.
Qed.

(** The calendar date of a day number is a date of the calendar, and it is
    the date of that day. *)
Lemma civil_from_days_valid z :
  let '(y, m, d) := civil_from_days z in
  valid_date y m d = true ∧ days_from_civil y m d = z.
Proof.
  unfold civil_from_days.
  set (z' := (z + 719468)%Z). set (era := (z' / 146097)%Z).
  assert (Hdoe : (0 <= z' - era * 146097 < 0 + Z.of_nat (Z.to_nat 146097))%Z).
  { unfold era. pose proof (Z.mod_pos_bound z' 146097 ltac:(lia)) as Hb.
    rewrite Z.mod_eq in Hb by lia. lia. }
  pose proof (forallZ_spec _ _ _ _ doe_check_all Hdoe) as Hc.
  unfold doe_check in Hc. destruct (civil_of_doe _) as [[y m] d].
  apply andb_true_iff in Hc as [Hc _]. apply andb_true_iff in Hc as [Hc _].
  apply andb_true_iff in Hc as [Hv Hd]. apply Z.eqb_eq in Hd.
  replace (y + era * 400)%Z with (y + 400 * era)%Z by lia.
  rewrite valid_date_shift, days_from_civil_shift. split; [done|]. unfold z' in *. lia.
Qed.

(** A date of the calendar is the calendar date of its day number. *)
Lemma civil_from_days_of_date y m d :
  valid_date y m d = true -> civil_from_days (days_from_civil y m d) = (y, m, d).
Proof.
  intros Hv.
  set (k := (y / 400)%Z). set (y0 := (y mod 400)%Z).
  assert (Hy : y = (y0 + 400 * k)%Z) by (unfold y0, k; rewrite Z.mod_eq by lia; lia).
  assert (Hy0 : (0 <= y0 < 0 + Z.of_nat 400)%Z)
    by (unfold y0; pose proof (Z.mod_pos_bound y 400 ltac:(lia)); lia).
  rewrite Hy in Hv |- *. rewrite valid_date_shift in Hv.
  rewrite days_from_civil_shift, civil_from_days_shift.
  pose proof (forallZ_spec _ _ _ _ civil_check_all Hy0) as Hc.
  unfold civil_check in Hc.
  assert (Hm : (1 <= m < 1 + Z.of_nat 12)%Z ∧ (1 <= d < 1 + Z.of_nat 31)%Z).
  { unfold valid_date, days_in_month in Hv.
    repeat (apply andb_true_iff in Hv as [Hv ?]).
    repeat case_match; lia. }
  destruct Hm as [Hm Hd].
  pose proof (forallZ_spec _ _ _ _ Hc Hm) as Hc'. cbv beta in Hc'.
  pose proof (forallZ_spec _ _ _ _ Hc' Hd) as Hc''. cbv beta in Hc''.
  rewrite Hv in Hc''. change (negb true || ?b) with b in Hc''.
  destruct (civil_from_days _) as [[y' m'] d'].
  repeat (apply andb_true_iff in Hc'' as [Hc'' ?]).
  repeat match goal with H : (_ =? _)%Z = true |- _ => apply Z.eqb_eq in H end.
  simpl. f_equal; [f_equal|]; lia.
Qed.

Lemma four_digits_pretty y : (1000 <= y <= 9999)%Z -> four_digits (pretty y) = Some y.
Proof.
  intros Hy.
  assert (H : (1000 <= y < 1000 + Z.of_nat (Z.to_nat 9000))%Z) by lia.
  pose proof (forallZ_spec _ _ _ _ four_digits_pretty_all H) as Hc.
  by apply bool_decide_eq_true in Hc.
Qed.

Lemma two_digits_pad n : (0 <= n <= 99)%Z -> two_digits (pad n) = Some n.
Proof.
  intros Hn.
  assert (H : (0 <= n < 0 + Z.of_nat 100)%Z) by lia.
  pose proof (forallZ_spec _ _ _ _ two_digits_pad_all H) as Hc.
  by apply bool_decide_eq_true in Hc.
Qed.

Lemma utc_midnight_digits sy sm sd y m d :
  four_digits sy = Some y -> two_digits sm = Some m -> two_digits sd = Some d ->
  utc_midnight (sy +:+ "-" +:+ sm +:+ "-" +:+ sd) =
  if valid_date y m d then Some (days_from_civil y m d * 86400000)%Z else None.
Proof.
  intros Hy Hm Hd.
  destruct sy as [|y1 [|y2 [|y3 [|y4 [|]]]]]; try done.
  destruct sm as [|m1 [|m2 [|]]]; try done.
  destruct sd as [|d1 [|d2 [|]]]; try done.
  unfold four_digits in Hy. unfold two_digits in Hm, Hd.
  unfold utc_midnight.
  change (list_ascii_of_string _) with [y1; y2; y3; y4; "-"%char; m1; m2; "-"%char; d1; d2].
  cbv iota beta. rewrite Hy, Hm, Hd. done.
Qed.

Lemma days_from_civil_day y m d :
  (days_from_civil y m 1 + d - 1 = days_from_civil y m d)%Z.
Proof. unfold days_from_civil. lia. Qed.

Lemma days_from_civil_bound y m :
  (-1000 <= y <= 20000)%Z -> (1 <= m <= 12)%Z ->
  (-2000000 <= days_from_civil y m 1 <= 8000000)%Z.
Proof.
  intros Hy Hm. unfold days_from_civil.
  set (y' := if (m <=? 2)%Z then (y - 1)%Z else y).
  assert (Hy' : (-1001 <= y' <= 20000)%Z) by (unfold y'; destruct (m <=? 2)%Z; lia).
  clearbody y'.
  set (era := (y' / 400)%Z).
  assert (Hera : (-3 <= era <= 50)%Z)
    by (unfold era; split; [apply Z.div_le_lower_bound|apply Z.div_le_upper_bound]; lia).
  assert (Hyoe : (0 <= y' - era * 400 < 400)%Z).
  { unfold era. pose proof (Z.mod_pos_bound y' 400 ltac:(lia)) as Hb.
    rewrite Z.mod_eq in Hb by lia. lia. }
  set (yoe := (y' - era * 400)%Z) in *. clearbody yoe era.
  assert (H4 : (0 <= yoe / 4 <= 100)%Z)
    by (split; [apply Z.div_pos|apply Z.div_le_upper_bound]; lia).
  assert (H100 : (0 <= yoe / 100 <= 4)%Z)
    by (split; [apply Z.div_pos|apply Z.div_le_upper_bound]; lia).
  pose proof (Z.mod_pos_bound (m + 9) 12 ltac:(lia)) as Hmp.
  set (mp := ((m + 9) mod 12)%Z) in *. clearbody mp.
  assert (H5 : (0 <= (153 * mp + 2) / 5 <= 400)%Z)
    by (split; [apply Z.div_pos|apply Z.div_le_upper_bound]; lia).
  lia.
Qed.

Lemma Date_UTC_day_valid y m d :
  (1000 <= y <= 9999)%Z -> valid_date y m d = true ->
  Date_UTC_day y (m - 1) d = Some (days_from_civil y m d).
Proof.
  intros Hy Hv. unfold Date_UTC_day.
  assert (Hm : (1 <= m <= 12)%Z ∧ (1 <= d <= 31)%Z).
  { unfold valid_date, days_in_month in Hv.
    repeat (apply andb_true_iff in Hv as [Hv ?]). repeat case_match; lia. }
  destruct Hm as [Hm Hd].
  replace ((0 <=? y)%Z && (y <=? 99)%Z) with false by (symmetry; apply andb_false_iff; lia).
  rewrite Z.div_small, Z.mod_small by lia.
  replace (y + 0)%Z with y by lia. replace (m - 1 + 1)%Z with m by lia.
  rewrite days_from_civil_day.
  pose proof (days_from_civil_bound y m ltac:(lia) Hm) as Hb.
  rewrite <- (days_from_civil_day y m d).
  case_match eqn:Habs; [done|]. apply Z.leb_gt in Habs. lia.
Qed.

(** The ISO string of a date of the calendar in the years 1000 to 9999 is
    read by [utc_midnight] as the midnight of its day. *)
Lemma utc_midnight_isoString Y M D :
  (1000 <= Y <= 9999)%Z -> valid_date Y M D = true ->
  utc_midnight (isoString Y M D) = Some (days_from_civil Y M D * 86400000)%Z.
Proof.
  intros HY Hv.
  assert (Hm : (1 <= M <= 12)%Z ∧ (1 <= D <= 31)%Z).
  { pose proof Hv as Hv'. unfold valid_date, days_in_month in Hv'.
    repeat (apply andb_true_iff in Hv' as [Hv' ?]). repeat case_match; lia. }
  unfold isoString.
  rewrite (utc_midnight_digits _ _ _ Y M D), Hv; [done|..].
  - by apply four_digits_pretty.
  - apply two_digits_pad. lia.
  - apply two_digits_pad. lia.
Qed.

Lemma fromParts_day y m d day :
  Date_UTC_day y (m - 1) d = Some day ->
  fromParts y m d =
  let '(Y, M, D) := civil_from_days day in Some (isoString Y M D, dmyString Y m d).
Proof. unfold fromParts. by intros ->. Qed.

Lemma is_digit_not_space c : is_digit c = true -> is_space c = false ∧ is_date_sep c = false.
Proof. destruct c as [[] [] [] [] [] [] [] []]; by vm_compute. Qed.

Lemma digits_val_cons c cs acc v :
  digits_val (c :: cs) acc = Some v ->
  is_digit c = true ∧ digits_val cs (acc * 10 + Z.of_nat (char_code c - 48))%Z = Some v.
Proof. simpl. unfold digit_val. by destruct (is_digit c). Qed.

Lemma take_digits_digit c s acc n :
  is_digit c = true ->
  take_digits (String c s) acc n = take_digits s (acc * 10 + Z.of_nat (char_code c - 48))%Z (S n).
Proof. simpl. by intros ->. Qed.

Lemma take_digits_sep c s acc n :
  is_date_sep c = true -> take_digits (String c s) acc n = (acc, n, String c s).
Proof.
  intros Hc. simpl. destruct (is_digit c) eqn:Hd; [|done].
  apply is_digit_not_space in Hd as [_ Hd]. congruence.
Qed.

Lemma match_ymd_digits y1 y2 y3 y4 m1 m2 d1 d2 Y M D :
  four_digits (String y1 (String y2 (String y3 (String y4 "")))) = Some Y ->
  two_digits (String m1 (String m2 "")) = Some M ->
  two_digits (String d1 (String d2 "")) = Some D ->
  let s := String y1 (String y2 (String y3 (String y4 (String "-"
             (String m1 (String m2 (String "-" (String d1 (String d2 ""))))))))) in
  trim s = s ∧ match_ymd s = Some (Y, M, D).
Proof.
  unfold four_digits, two_digits. intros HY HM HD.
  apply digits_val_cons in HY as [Hy1 HY]. apply digits_val_cons in HY as [Hy2 HY].
  apply digits_val_cons in HY as [Hy3 HY]. apply digits_val_cons in HY as [Hy4 HY].
  apply digits_val_cons in HM as [Hm1 HM]. apply digits_val_cons in HM as [Hm2 HM].
  apply digits_val_cons in HD as [Hd1 HD]. apply digits_val_cons in HD as [Hd2 HD].
  simpl in HY, HM, HD. injection HY as HY. injection HM as HM. injection HD as HD.
  destruct (is_digit_not_space _ Hy1) as [Hs1 _].
  destruct (is_digit_not_space _ Hd2) as [Hs2 _].
  split.
  - unfold trim. simpl trimStart. rewrite Hs1.
    cbn [String.rev String.rev_app]. simpl trimStart. by rewrite Hs2.
  - unfold match_ymd, three_runs.
    rewrite !take_digits_digit by done. rewrite take_digits_sep by done.
    change (is_date_sep "-") with true. cbv iota.
    rewrite !take_digits_digit by done. rewrite take_digits_sep by done.
    change (is_date_sep "-") with true. cbv iota.
    rewrite !take_digits_digit by done. simpl. by rewrite HY, HM, HD.
Qed.

Lemma match_xxy_digits y1 y2 y3 y4 m1 m2 d1 d2 Y M D :
  four_digits (String y1 (String y2 (String y3 (String y4 "")))) = Some Y ->
  two_digits (String m1 (String m2 "")) = Some M ->
  two_digits (String d1 (String d2 "")) = Some D ->
  let s := String d1 (String d2 (String "/" (String m1 (String m2 (String "/"
             (String y1 (String y2 (String y3 (String y4 ""))))))))) in
  trim s = s ∧ match_xxy s = Some (D, M, Y) ∧ match_ymd s = None.
Proof.
  unfold four_digits, two_digits. intros HY HM HD.
  apply digits_val_cons in HY as [Hy1 HY]. apply digits_val_cons in HY as [Hy2 HY].
  apply digits_val_cons in HY as [Hy3 HY]. apply digits_val_cons in HY as [Hy4 HY].
  apply digits_val_cons in HM as [Hm1 HM]. apply digits_val_cons in HM as [Hm2 HM].
  apply digits_val_cons in HD as [Hd1 HD]. apply digits_val_cons in HD as [Hd2 HD].
  simpl in HY, HM, HD. injection HY as HY. injection HM as HM. injection HD as HD.
  destruct (is_digit_not_space _ Hd1) as [Hs1 _].
  destruct (is_digit_not_space _ Hy4) as [Hs2 _].
  assert (Hruns : three_runs (String d1 (String d2 (String "/" (String m1 (String m2 (String "/"
             (String y1 (String y2 (String y3 (String y4 ""))))))))))
                  = Some ((D, 2), (M, 2), (Y, 4))).
  { unfold three_runs.
    rewrite !take_digits_digit by done. rewrite take_digits_sep by done.
    change (is_date_sep "/") with true. cbv iota.
    rewrite !take_digits_digit by done. rewrite take_digits_sep by done.
    change (is_date_sep "/") with true. cbv iota.
    rewrite !take_digits_digit by done. simpl. by rewrite HY, HM, HD. }
  split_and!.
  - unfold trim. simpl trimStart. rewrite Hs1.
    cbn [String.rev String.rev_app]. simpl trimStart. by rewrite Hs2.
  - unfold match_xxy. by rewrite Hruns.
  - unfold match_ymd. by rewrite Hruns.
Qed.

Lemma take_digits_bound s : ∀ acc n v k r,
  take_digits s acc n = (v, k, r) -> (0 <= acc)%Z ->
  n ≤ k ∧ (acc * 10 ^ Z.of_nat (k - n) <= v < (acc + 1) * 10 ^ Z.of_nat (k - n))%Z.
Proof.
  induction s as [|c s IH]; intros acc n v k r H Hacc; simpl in H.
  - injection H as <- <- <-. rewrite Nat.sub_diag. simpl. lia.
  - destruct (is_digit c) eqn:Hc.
    + apply IH in H as [Hk Hv]; [|lia]. split; [lia|].
      assert (Hdv : (0 <= Z.of_nat (char_code c - 48) <= 9)%Z).
      { unfold is_digit in Hc. apply andb_true_iff in Hc as [H1 H2].
        apply Nat.leb_le in H1, H2. lia. }
      replace (Z.of_nat (k - n)) with (Z.of_nat (k - S n) + 1)%Z by lia.
      rewrite Z.pow_add_r by lia. change (10 ^ 1)%Z with 10%Z.
      assert (Hp : (0 < 10 ^ Z.of_nat (k - S n))%Z) by (apply Z.pow_pos_nonneg; lia).
      nia.
    + injection H as <- <- <-. rewrite Nat.sub_diag. simpl. lia.
Qed.

Lemma three_runs_bound s a na b nb c nc :
  three_runs s = Some ((a, na), (b, nb), (c, nc)) ->
  (0 <= a < 10 ^ Z.of_nat na)%Z ∧ (0 <= b < 10 ^ Z.of_nat nb)%Z ∧
  (0 <= c < 10 ^ Z.of_nat nc)%Z.
Proof.
  unfold three_runs.
  destruct (take_digits s 0 0) as [[a' na'] r1] eqn:H1.
  destruct r1 as [|c1 r2]; [done|]. destruct (is_date_sep c1); [|done].
  destruct (take_digits r2 0 0) as [[b' nb'] r3] eqn:H2.
  destruct r3 as [|c2 r4]; [done|]. destruct (is_date_sep c2); [|done].
  destruct (take_digits r4 0 0) as [[c' nc'] r5] eqn:H3.
  destruct r5; [|done]. intros [= -> -> -> -> -> ->].
  apply take_digits_bound in H1 as [_ H1]; [|lia].
  apply take_digits_bound in H2 as [_ H2]; [|lia].
  apply take_digits_bound in H3 as [_ H3]; [|lia].
  rewrite Nat.sub_0_r in H1, H2, H3. lia.
Qed.

Lemma one_or_two_bound n v :
  one_or_two n = true -> (0 <= v < 10 ^ Z.of_nat n)%Z -> (0 <= v <= 99)%Z.
Proof.
  unfold one_or_two. intros [H1 H2]%andb_true_iff.
  apply Nat.leb_le in H1, H2.
  assert (n = 1 ∨ n = 2) as [-> | ->] by lia; simpl; lia.
Qed.

Lemma match_ymd_bound s y m d :
  match_ymd s = Some (y, m, d) ->
  (0 <= y <= 9999)%Z ∧ (0 <= m <= 99)%Z ∧ (0 <= d <= 99)%Z.
Proof.
  unfold match_ymd. destruct (three_runs s) as [[[[a na] [b nb]] [c nc]]|] eqn:Hr; [|done].
  apply three_runs_bound in Hr as (Ha & Hb & Hc).
  destruct (na =? 4) eqn:Hna; [|done]. apply Nat.eqb_eq in Hna as ->.
  destruct (one_or_two nb) eqn:Hnb; [|done].
  destruct (one_or_two nc) eqn:Hnc; [|done]. intros [= <- <- <-].
  change (10 ^ Z.of_nat 4)%Z with 10000%Z in Ha.
  split; [lia|].
  split; [exact (one_or_two_bound _ _ Hnb Hb)|exact (one_or_two_bound _ _ Hnc Hc)].
Qed.

Lemma match_xxy_bound s a b y :
  match_xxy s = Some (a, b, y) ->
  (0 <= a <= 99)%Z ∧ (0 <= b <= 99)%Z ∧ (0 <= y <= 9999)%Z.
Proof.
  unfold match_xxy. destruct (three_runs s) as [[[[a' na] [b' nb]] [c nc]]|] eqn:Hr; [|done].
  apply three_runs_bound in Hr as (Ha & Hb & Hc).
  destruct (one_or_two na) eqn:Hna; [|done].
  destruct (one_or_two nb) eqn:Hnb; [|done].
  destruct (nc =? 4) eqn:Hnc; [|done]. apply Nat.eqb_eq in Hnc as ->.
  intros [= <- <- <-].
  change (10 ^ Z.of_nat 4)%Z with 10000%Z in Hc.
  split; [exact (one_or_two_bound _ _ Hna Ha)|].
  split; [exact (one_or_two_bound _ _ Hnb Hb)|lia].
Qed.

(** [fromParts] never fails on numbers of the size the patterns read. *)
Lemma fromParts_total y m d :
  (0 <= y <= 9999)%Z -> (0 <= m <= 99)%Z -> (0 <= d <= 99)%Z -> is_Some (fromParts y m d).
Proof.
  intros Hy Hm Hd. unfold fromParts, Date_UTC_day.
  set (yr := if ((0 <=? y) && (y <=? 99))%Z then (1900 + y)%Z else y).
  assert (Hyr : (0 <= yr <= 9999)%Z) by (unfold yr; case_match; lia).
  assert (Hq : (-1 <= (m - 1) / 12 < 9)%Z)
    by (split; [apply Z.div_le_lower_bound|apply Z.div_lt_upper_bound]; lia).
  pose proof (Z.mod_pos_bound (m - 1) 12 ltac:(lia)) as Hmn.
  pose proof (days_from_civil_bound (yr + (m - 1) / 12) ((m - 1) mod 12 + 1)
                ltac:(lia) ltac:(lia)) as Hb.
  destruct (Z.abs _ <=? 100000000)%Z eqn:Habs.
  - by destruct (civil_from_days _) as [[Y M] D].
  - apply Z.leb_gt in Habs. lia.
Qed.

Lemma match_ymd_xxy_exclusive s : is_Some (match_ymd s) -> match_xxy s = None.
Proof.
  unfold match_ymd, match_xxy.
  destruct (three_runs s) as [[[[a na] [b nb]] [c nc]]|]; [|done].
  destruct (na =? 4) eqn:Hna; simpl; [|by intros []].
  apply Nat.eqb_eq in Hna as ->. done.
Qed.

Lemma daysBetween_days a b x y :
  utc_midnight a = Some (x * 86400000)%Z -> utc_midnight b = Some (y * 86400000)%Z ->
  daysBetween a b = Some (Z.abs (x - y)).
Proof.
  unfold daysBetween. intros -> ->. f_equal.
  unfold JS.Math_round, JS.Math_abs.
  rewrite <- (Qfloor_half (Z.abs (x - y))). apply Qfloor_comp.
  replace (x * 86400000 - y * 86400000)%Z with ((x - y) * 86400000)%Z by lia.
  change (Qabs (inject_Z ((x - y) * 86400000)))
    with (inject_Z (Z.abs ((x - y) * 86400000))).
  rewrite Z.abs_mul, inject_Z_mult. change (Z.abs 86400000) with 86400000%Z.
  field.
Qed.

(** X11 (toISODate, part_001 125-156, with daysBetween 174-178).  A date of
    the calendar in the years 1000 to 9999 makes a round trip: its ISO
    string is read by the yyyy-mm-dd format and by auto as that ISO string
    with the display date dd/mm/yyyy; the display date is read back by the
    dd/mm/yyyy format and by auto as the same pair; and the ISO string is
    the UTC midnight of the day for [daysBetween]. *)
Theorem toISODate_round_trip (Date_local : string -> option (Z * Z * Z)) Y M D :
  (1000 <= Y <= 9999)%Z -> valid_date Y M D = true ->
  let iso := isoString Y M D in
  let dmy := dmyString Y M D in
  toISODate Date_local iso FmtYMD = Some (iso, dmy) ∧
  toISODate Date_local iso FmtAuto = Some (iso, dmy) ∧
  toISODate Date_local dmy FmtDMY = Some (iso, dmy) ∧
  toISODate Date_local dmy FmtAuto = Some (iso, dmy) ∧
  utc_midnight iso = Some (days_from_civil Y M D * 86400000)%Z.
Proof.
  intros HY Hv iso dmy.
  assert (Hm : (1 <= M <= 12)%Z ∧ (1 <= D <= 31)%Z).
  { pose proof Hv as Hv'. unfold valid_date, days_in_month in Hv'.
    repeat (apply andb_true_iff in Hv' as [Hv' ?]). repeat case_match; lia. }
  assert (Hparts : fromParts Y M D = Some (iso, dmy)).
  { rewrite (fromParts_day _ _ _ _ (Date_UTC_day_valid _ _ _ HY Hv)).
    by rewrite (civil_from_days_of_date _ _ _ Hv). }
  pose proof (four_digits_pretty Y HY) as HsY.
  pose proof (two_digits_pad M ltac:(lia)) as HsM.
  pose proof (two_digits_pad D ltac:(lia)) as HsD.
  assert (Hiso : utc_midnight iso = Some (days_from_civil Y M D * 86400000)%Z)
    by (by apply utc_midnight_isoString).
  unfold iso, dmy, isoString, dmyString in *. clear iso dmy.
  destruct (pretty Y) as [|y1 [|y2 [|y3 [|y4 [|]]]]]; try done.
  destruct (pad M) as [|m1 [|m2 [|]]]; try done.
  destruct (pad D) as [|d1 [|d2 [|]]]; try done.
  destruct (match_ymd_digits _ _ _ _ _ _ _ _ _ _ _ HsY HsM HsD) as [Ht1 Hymd].
  destruct (match_xxy_digits _ _ _ _ _ _ _ _ _ _ _ HsY HsM HsD) as (Ht2 & Hxxy & Hnot).
  cbv [String.append] in *.
  unfold toISODate. rewrite !or_else_empty, Ht1, Ht2, Hymd, Hxxy, Hnot.
  by rewrite Hparts.
Qed.

(** X11 at 29 February 2024. *)
Lemma toISODate_round_trip_witness :
  toISODate no_Date_local "2024-02-29" FmtAuto = Some ("2024-02-29", "29/02/2024") ∧
  toISODate no_Date_local "29/02/2024" FmtAuto = Some ("2024-02-29", "29/02/2024").
Proof.
  assert (HY : (1000 <= 2024 <= 9999)%Z) by lia.
  assert (Hv : valid_date 2024 2 29 = true) by reflexivity.
  destruct (toISODate_round_trip no_Date_local 2024 2 29 HY Hv) as (_ & H1 & _ & H2 & _).
  split; [exact H1|exact H2].
Defined.

Lemma fromParts_four_digit_year y m d day :
  Date_UTC_day y (m - 1) d = Some day -> four_digit_year day ->
  ∃ iso ds, fromParts y m d = Some (iso, ds) ∧
            utc_midnight iso = Some (day * 86400000)%Z.
Proof.
  intros Hday Hyear. rewrite (fromParts_day _ _ _ _ Hday).
  unfold four_digit_year in Hyear.
  pose proof (civil_from_days_valid day) as Hv.
  destruct (civil_from_days day) as [[Y M] D]. destruct Hv as [Hv Hd].
  eexists _, _. split; [reflexivity|].
  by rewrite (utc_midnight_isoString _ _ _ Hyear Hv), Hd.
Qed.

(** X12 (toISODate 129-133 with daysBetween 174-178, part_001).  Whatever
    numbers [fromParts] is given, also ones that carry over such as day 30
    of month 2: when the dates it makes of them lie in the years 1000 to
    9999, [daysBetween] of the two ISO strings is a number, the distance
    of the two days. *)
Theorem fromParts_daysBetween y1 m1 d1 y2 m2 d2 day1 day2 :
  Date_UTC_day y1 (m1 - 1) d1 = Some day1 ->
  Date_UTC_day y2 (m2 - 1) d2 = Some day2 ->
  four_digit_year day1 -> four_digit_year day2 ->
  ∃ iso1 ds1 iso2 ds2,
    fromParts y1 m1 d1 = Some (iso1, ds1) ∧
    fromParts y2 m2 d2 = Some (iso2, ds2) ∧
    daysBetween iso1 iso2 = Some (Z.abs (day1 - day2)).
Proof.
  intros H1 H2 Hy1 Hy2.
  destruct (fromParts_four_digit_year _ _ _ _ H1 Hy1) as (iso1 & ds1 & Hp1 & Hu1).
  destruct (fromParts_four_digit_year _ _ _ _ H2 Hy2) as (iso2 & ds2 & Hp2 & Hu2).
  exists iso1, ds1, iso2, ds2. split_and!; [done..|].
  by apply daysBetween_days.
Qed.

(** X12 at 30 February 2024, which carries over to 1 March, and
    28 February 2024. *)
Lemma fromParts_daysBetween_witness :
  ∃ iso1 ds1 iso2 ds2,
    fromParts 2024 2 30 = Some (iso1, ds1) ∧
    fromParts 2024 2 28 = Some (iso2, ds2) ∧
    daysBetween iso1 iso2 = Some (Z.abs (19783 - 19781)).
Proof.
  apply (fromParts_daysBetween 2024 2 30 2024 2 28 19783 19781).
  - reflexivity.
  - reflexivity.
  - vm_compute. split; discriminate.
  - vm_compute. split; discriminate.
Defined.

Lemma toISODate_unfold_ymd Date_local s :
  toISODate Date_local s FmtYMD =
  match match_ymd (trim s) with
  | Some (y, m, d) => fromParts y m d
  | None => None
  end.
Proof.
  unfold toISODate. rewrite or_else_empty.
  destruct (truthy (trim s)) eqn:Ht; simpl; [by destruct (match_ymd _)|].
  apply truthy_false in Ht. by rewrite Ht.
Qed.

Lemma toISODate_unfold_dmy Date_local s :
  toISODate Date_local s FmtDMY =
  match match_xxy (trim s) with
  | Some (d, m, y) => fromParts y m d
  | None => None
  end.
Proof.
  unfold toISODate. rewrite or_else_empty.
  destruct (truthy (trim s)) eqn:Ht; simpl; [by destruct (match_xxy _)|].
  apply truthy_false in Ht. by rewrite Ht.
Qed.

Lemma toISODate_unfold_mdy Date_local s :
  toISODate Date_local s FmtMDY =
  match match_xxy (trim s) with
  | Some (m, d, y) => fromParts y m d
  | None => None
  end.
Proof.
  unfold toISODate. rewrite or_else_empty.
  destruct (truthy (trim s)) eqn:Ht; simpl; [by destruct (match_xxy _)|].
  apply truthy_false in Ht. by rewrite Ht.
Qed.

Lemma toISODate_unfold_auto Date_local s :
  toISODate Date_local s FmtAuto =
  match match_ymd (trim s) with
  | Some (y, m, d) => fromParts y m d
  | None =>
      match match_xxy (trim s) with
      | Some (d, m, y) => fromParts y m d
      | None =>
          if truthy (trim s) then
            match Date_local (trim s) with
            | Some (y, mIdx, d) => fromParts y (mIdx + 1) d
            | None => None
            end
          else None
      end
  end.
Proof.
  unfold toISODate. rewrite or_else_empty.
  destruct (truthy (trim s)) eqn:Ht; simpl; [done|].
  apply truthy_false in Ht. by rewrite Ht.
Qed.

(** X13 (toISODate, part_001 134-148).  Under an explicit format a string
    is accepted exactly when it has the shape of the format: the numbers are
    not checked against the calendar, every day and month of one or two
    digits gives a date.  The two day/month formats accept the same
    strings. *)
Theorem toISODate_shape_decides (Date_local : string -> option (Z * Z * Z)) s :
  (is_Some (toISODate Date_local s FmtYMD) <-> is_Some (match_ymd (trim s))) ∧
  (is_Some (toISODate Date_local s FmtDMY) <-> is_Some (match_xxy (trim s))) ∧
  (is_Some (toISODate Date_local s FmtMDY) <-> is_Some (match_xxy (trim s))).
Proof.
  rewrite toISODate_unfold_ymd, toISODate_unfold_dmy, toISODate_unfold_mdy.
  split_and!.
  - destruct (match_ymd (trim s)) as [[[y m] d]|] eqn:Hm; [|done].
    apply match_ymd_bound in Hm as (Hy & Hmo & Hd).
    split; [by eexists|]. intros _. by apply fromParts_total.
  - destruct (match_xxy (trim s)) as [[[d m] y]|] eqn:Hm; [|done].
    apply match_xxy_bound in Hm as (Hd & Hmo & Hy).
    split; [by eexists|]. intros _. by apply fromParts_total.
  - destruct (match_xxy (trim s)) as [[[m d] y]|] eqn:Hm; [|done].
    apply match_xxy_bound in Hm as (Hmo & Hd & Hy).
    split; [by eexists|]. intros _. by apply fromParts_total.
Qed.

(** X14 (toISODate, part_001 149-155).  The auto format reads what the
    yyyy-mm-dd format reads, with the same result, and what the dd/mm/yyyy
    format reads, with the same result; no string is read by both.  So a
    string in the shape mm/dd/yyyy is read day first by auto, and the
    free-form parser of the host is asked only for strings that are
    neither. *)
Theorem toISODate_auto_order (Date_local : string -> option (Z * Z * Z)) s :
  (∀ r, toISODate Date_local s FmtYMD = Some r -> toISODate Date_local s FmtAuto = Some r) ∧
  (∀ r, toISODate Date_local s FmtDMY = Some r -> toISODate Date_local s FmtAuto = Some r) ∧
  ¬ (is_Some (toISODate Date_local s FmtYMD) ∧ is_Some (toISODate Date_local s FmtDMY)) ∧
  (is_Some (toISODate Date_local s FmtMDY) ->
   toISODate Date_local s FmtAuto = toISODate Date_local s FmtDMY) ∧
  (is_Some (toISODate Date_local s FmtYMD) ∨ is_Some (toISODate Date_local s FmtDMY) ->
   toISODate Date_local s FmtAuto = toISODate no_Date_local s FmtAuto).
Proof.
  rewrite !toISODate_unfold_auto, toISODate_unfold_ymd, toISODate_unfold_dmy,
    toISODate_unfold_mdy.
  pose proof (match_ymd_xxy_exclusive (trim s)) as Hex.
  destruct (match_ymd (trim s)) as [[[y m] d]|] eqn:Hymd.
  - rewrite Hex by by eexists. split_and!; try done. by intros [_ []].
  - destruct (match_xxy (trim s)) as [[[a b] c]|] eqn:Hxxy.
    + split_and!; try done. by intros [[] _].
    + split_and!; try done.
      * by intros [[] _].
      * by intros [[]|[]].
Qed.

Lemma utc_midnight_days iso t :
  utc_midnight iso = Some t -> ∃ day, t = (day * 86400000)%Z.
Proof.
  unfold utc_midnight. intros H.
  repeat case_match; try done. injection H as <-. by eexists.
Qed.

Lemma list_ascii_of_string_inj s t :
  list_ascii_of_string s = list_ascii_of_string t -> s = t.
Proof.
  revert t. induction s as [|c s IH]; intros [|d t]; simpl; try done.
  intros [= -> H]. by rewrite (IH t H).
Qed.

Lemma digit_val_inj c c' v : digit_val c = Some v -> digit_val c' = Some v -> c = c'.
Proof.
  unfold digit_val, is_digit, char_code.
  destruct (_ && _) eqn:Hc; [|done]. destruct (_ && _) eqn:Hc' in |- *; [|done].
  intros [= <-] [= H].
  apply andb_true_iff in Hc as [H1 H2], Hc' as [H1' H2'].
  apply Nat.leb_le in H1, H2, H1', H2'.
  rewrite <- (ascii_nat_embedding c), <- (ascii_nat_embedding c'). f_equal. lia.
Qed.

Lemma digit_val_range c v : digit_val c = Some v -> (0 <= v <= 9)%Z.
Proof.
  unfold digit_val, is_digit, char_code.
  destruct (_ && _) eqn:Hc; [|done]. intros [= <-].
  apply andb_true_iff in Hc as [H1 H2]. apply Nat.leb_le in H1, H2. lia.
Qed.

Lemma two_digits_inj a b a' b' v :
  digits_val [a; b] 0 = Some v -> digits_val [a'; b'] 0 = Some v -> a = a' ∧ b = b'.
Proof.
  simpl.
  destruct (digit_val a) as [x|] eqn:Ha; [|done].
  destruct (digit_val b) as [y|] eqn:Hb; [|done].
  destruct (digit_val a') as [x'|] eqn:Ha'; [|done].
  destruct (digit_val b') as [y'|] eqn:Hb'; [|done].
  intros [= <-] [= H].
  pose proof (digit_val_range _ _ Ha). pose proof (digit_val_range _ _ Hb).
  pose proof (digit_val_range _ _ Ha'). pose proof (digit_val_range _ _ Hb').
  assert (x' = x) as -> by lia. assert (y' = y) as -> by lia.
  split; eapply digit_val_inj; eauto.
Qed.

Lemma four_digits_inj a b c d a' b' c' d' v :
  digits_val [a; b; c; d] 0 = Some v -> digits_val [a'; b'; c'; d'] 0 = Some v ->
  a = a' ∧ b = b' ∧ c = c' ∧ d = d'.
Proof.
  simpl.
  destruct (digit_val a) as [x|] eqn:Ha; [|done].
  destruct (digit_val b) as [y|] eqn:Hb; [|done].
  destruct (digit_val c) as [z|] eqn:Hc; [|done].
  destruct (digit_val d) as [w|] eqn:Hd; [|done].
  destruct (digit_val a') as [x'|] eqn:Ha'; [|done].
  destruct (digit_val b') as [y'|] eqn:Hb'; [|done].
  destruct (digit_val c') as [z'|] eqn:Hc'; [|done].
  destruct (digit_val d') as [w'|] eqn:Hd'; [|done].
  intros [= <-] [= H].
  pose proof (digit_val_range _ _ Ha). pose proof (digit_val_range _ _ Hb).
  pose proof (digit_val_range _ _ Hc). pose proof (digit_val_range _ _ Hd).
  pose proof (digit_val_range _ _ Ha'). pose proof (digit_val_range _ _ Hb').
  pose proof (digit_val_range _ _ Hc'). pose proof (digit_val_range _ _ Hd').
  assert (x' = x) as -> by lia. assert (y' = y) as -> by lia.
  assert (z' = z) as -> by lia. assert (w' = w) as -> by lia.
  split_and!; eapply digit_val_inj; eauto.
Qed.

(** The shape of a string that [utc_midnight] reads. *)
Lemma utc_midnight_inv iso t :
  utc_midnight iso = Some t ->
  ∃ y1 y2 y3 y4 m1 m2 d1 d2 y m d,
    list_ascii_of_string iso = [y1; y2; y3; y4; "-"%char; m1; m2; "-"%char; d1; d2] ∧
    digits_val [y1; y2; y3; y4] 0 = Some y ∧ digits_val [m1; m2] 0 = Some m ∧
    digits_val [d1; d2] 0 = Some d ∧ valid_date y m d = true ∧
    t = (days_from_civil y m d * 86400000)%Z.
Proof.
  unfold utc_midnight. intros H.
  repeat case_match; try done. subst. injection H as <-.
  do 11 eexists. split; [reflexivity|]. split; [eassumption|].
  split; [eassumption|]. split; [eassumption|]. split; [|reflexivity].
  unfold valid_date. eassumption.
Qed.

Lemma utc_midnight_inj a b t : utc_midnight a = Some t -> utc_midnight b = Some t -> a = b.
Proof.
  intros (y1 & y2 & y3 & y4 & m1 & m2 & d1 & d2 & y & m & d & Hl & Hy & Hm & Hd & Hv & ->)
           %utc_midnight_inv
         (y1' & y2' & y3' & y4' & m1' & m2' & d1' & d2' & y' & m' & d' & Hl' & Hy' & Hm' & Hd'
          & Hv' & Ht)%utc_midnight_inv.
  assert (days_from_civil y m d = days_from_civil y' m' d') as Hdays by lia.
  apply (f_equal civil_from_days) in Hdays.
  rewrite !civil_from_days_of_date in Hdays by done.
  injection Hdays as <- <- <-.
  destruct (four_digits_inj _ _ _ _ _ _ _ _ _ Hy Hy') as (-> & -> & -> & ->).
  destruct (two_digits_inj _ _ _ _ _ Hm Hm') as (-> & ->).
  destruct (two_digits_inj _ _ _ _ _ Hd Hd') as (-> & ->).
  apply list_ascii_of_string_inj. congruence.
Qed.

(** X15 (daysBetween, part_001 174-178).  On calendar dates written
    [YYYY-MM-DD] [daysBetween] is the distance in whole days: it is the
    difference of the two UTC midnights in days, it does not depend on the
    order of its arguments, it is 0 from a date to itself and between no
    two different dates, it is never negative, and it satisfies the
    triangle inequality. *)
Theorem daysBetween_distance a b c ta tb tc :
  utc_midnight a = Some ta -> utc_midnight b = Some tb -> utc_midnight c = Some tc ->
  ∃ ab bc ac,
    daysBetween a b = Some ab ∧ daysBetween b c = Some bc ∧ daysBetween a c = Some ac ∧
    (ab * 86400000 = Z.abs (ta - tb))%Z ∧
    daysBetween b a = Some ab ∧
    daysBetween a a = Some 0%Z ∧ (ab = 0%Z <-> a = b) ∧
    (0 <= ab)%Z ∧ (ac <= ab + bc)%Z.
Proof.
  intros Ha Hb Hc.
  destruct (utc_midnight_days _ _ Ha) as [x ->].
  destruct (utc_midnight_days _ _ Hb) as [y ->].
  destruct (utc_midnight_days _ _ Hc) as [z ->].
  exists (Z.abs (x - y)), (Z.abs (y - z)), (Z.abs (x - z)).
  rewrite (daysBetween_days _ _ _ _ Ha Hb), (daysBetween_days _ _ _ _ Hb Hc),
    (daysBetween_days _ _ _ _ Ha Hc), (daysBetween_days _ _ _ _ Hb Ha),
    (daysBetween_days _ _ _ _ Ha Ha).
  split_and!; try done; try lia.
  - f_equal. lia.
  - f_equal. lia.
  - split.
    + intros H0. assert (x = y) as -> by lia. by apply (utc_midnight_inj a b _ Ha).
    + intros <-. assert (x * 86400000 = y * 86400000)%Z by congruence. lia.
Qed.

(** X15 at three dates around the end of February of a leap year. *)
Lemma daysBetween_distance_witness :
  ∃ ab bc ac,
    daysBetween "2024-02-27" "2024-03-01" = Some ab ∧
    daysBetween "2024-03-01" "2023-03-01" = Some bc ∧
    daysBetween "2024-02-27" "2023-03-01" = Some ac ∧
    ab = 3%Z ∧ bc = 366%Z ∧ ac = 363%Z.
Proof.
  destruct (daysBetween_distance "2024-02-27" "2024-03-01" "2023-03-01"
              1708992000000 1709251200000 1677628800000 eq_refl eq_refl eq_refl)
    as (ab & bc & ac & Hab & Hbc & Hac & _).
  exists ab, bc, ac. split; [exact Hab|]. split; [exact Hbc|]. split; [exact Hac|].
  vm_compute in Hab, Hbc, Hac. 
  injection Hab as <-. injection Hbc as <-. injection Hac as <-. done.
Defined.

(** * The column mapper *)

Lemma header_at_elem headers i : truthy (header_at headers i) = true -> header_at headers i ∈ headers.
Proof.
  unfold header_at. destruct (headers !! i) as [h|] eqn:Hi; simpl; [|done].
  intros _. by eapply list_elem_of_lookup_2.
Qed.

Lemma pick_from_elem headers cands h :
  pick_from headers cands = Some h -> ∃ i, h = header_at headers i ∧ i < length headers.
Proof.
  induction cands as [|c cands IH]; simpl; [done|].
  destruct (findIndex _ _) as [idx|] eqn:Hidx; [|done].
  intros [= <-]. exists idx. split; [done|].
  apply findIndex_Some in Hidx as (x & Hx & _).
  apply lookup_lt_Some in Hx. unfold lowered in Hx. by rewrite length_map in Hx.
Qed.

(** What [pick] returns is a header, or nothing. *)
Lemma pick_elem headers cands :
  Forall (fun c => truthy c = true) cands ->
  let h := pick headers cands "" in
  (truthy h = true ∧ h ∈ headers) ∨ (h = "" ∧ truthy (header_at headers 0) = false).
Proof.
  intros Hc h. unfold h, pick.
  destruct (pick_from headers cands) as [x|] eqn:Hpick.
  - left. split; [by eapply pick_from_truthy|].
    pose proof (pick_from_truthy _ _ _ Hc Hpick) as Ht.
    apply pick_from_elem in Hpick as (i & -> & _). by apply header_at_elem.
  - simpl. rewrite or_else_empty.
    destruct (truthy (header_at headers 0)) eqn:Ht.
    + left. split; [done|]. by apply header_at_elem.
    + right. split; [|done]. by apply truthy_false.
Qed.

(** X16 (detectMapping 107-123 with validateDataset 226-236 and 262,
    part_001).  When the first header is not empty, every field of the
    detected mapping is one of the headers, the mode is [amount], and the
    validator finds no required column missing: the report is [ok] whatever
    the headers are, also when none of them looks like a date or an
    amount. *)
Theorem detectMapping_passes_validation
        (toISODate : string -> DateFormat -> option (string * string))
        (Number_toString : Q -> string) (rate_high : nat -> nat -> bool)
        headers rows settings :
  truthy (header_at headers 0) = true ->
  let m := detectMapping headers in
  Mapping.mode m = ModeAmount ∧
  Mapping.date m ∈ headers ∧ Mapping.amount m ∈ headers ∧
  Mapping.debit m ∈ headers ∧ Mapping.credit m ∈ headers ∧
  Mapping.description m ∈ headers ∧
  ∃ rep, validateDataset toISODate Number_toString rate_high
           (Some (ParseResult.mk headers rows)) (Some m) settings = Some rep ∧
         ValidationReport.ok rep = true.
Proof.
  intros Hfirst m.
  assert (Hpick : ∀ cands, Forall (fun c => truthy c = true) cands ->
            truthy (pick headers cands "") = true ∧ pick headers cands "" ∈ headers).
  { intros cands Hc. destruct (pick_elem headers cands Hc) as [H|[_ H]]; [done|congruence]. }
  assert (Hmode : Mapping.mode m = ModeAmount) by (by apply detectMapping_mode_amount).
  destruct (Hpick ["date"; "posted"; "txn date"; "transaction date"; "value date"])
    as [Hd1 Hd2]; [repeat constructor|].
  destruct (Hpick ["amount"; "amt"; "value"]) as [Ha1 Ha2]; [repeat constructor|].
  split_and!; try done; try (apply Hpick; repeat constructor).
  destruct (validateDataset_report toISODate Number_toString rate_high
              (ParseResult.mk headers rows) m settings) as (rep & Hrep & Hok & _).
  exists rep. split; [done|]. apply Hok.
  unfold required_present, column_present. rewrite Hmode. simpl. done.
Qed.

(** X16 at two headers that name neither a date nor an amount: the first
    one becomes both the date and the amount column, and the report is
    [ok]. *)
Lemma detectMapping_passes_validation_witness :
  Mapping.date (detectMapping plainHeaders) = "Ref" ∧
  Mapping.amount (detectMapping plainHeaders) = "Ref" ∧
  ∃ rep, validateDataset (toISODate no_Date_local) no_Number_toString rate_above_ten
           (Some (ParseResult.mk plainHeaders [])) (Some (detectMapping plainHeaders))
           DEFAULT_SETTINGS = Some rep ∧
         ValidationReport.ok rep = true.
Proof.
  split; [reflexivity|]. split; [reflexivity|].
  apply (detectMapping_passes_validation (toISODate no_Date_local) no_Number_toString
           rate_above_ten plainHeaders [] DEFAULT_SETTINGS).
  reflexivity.
Defined.

(** * The amount parser *)

Lemma filter_chars_rev_app p s : ∀ acc,
  filter_chars p (String.rev_app s acc) = String.rev_app (filter_chars p s) (filter_chars p acc).
Proof.
  induction s as [|c s IH]; intros acc; simpl; [done|].
  rewrite IH. simpl. by destruct (p c).
Qed.

Lemma filter_chars_rev p s : filter_chars p (String.rev s) = String.rev (filter_chars p s).
Proof. unfold String.rev. by rewrite filter_chars_rev_app. Qed.

Lemma rev_app_rev_app s : ∀ acc acc',
  String.rev_app (String.rev_app s acc) acc' = String.rev_app acc (s +:+ acc').
Proof.
  induction s as [|c s IH]; intros acc acc'; [done|].
  simpl String.rev_app at 2. rewrite IH. done.
Qed.

Lemma string_rev_involutive s : String.rev (String.rev s) = s.
Proof.
  unfold String.rev. rewrite rev_app_rev_app. simpl.
  induction s as [|c s IH]; [done|].
  change (String c (s +:+ "") = String c s). by rewrite IH.
Qed.

Lemma filter_chars_trimStart p s :
  (∀ c, is_space c = true -> p c = false) ->
  filter_chars p (trimStart s) = filter_chars p s.
Proof.
  intros Hp. induction s as [|c s IH]; simpl; [done|].
  destruct (is_space c) eqn:Hc; [|done]. by rewrite (Hp c Hc).
Qed.

Lemma filter_chars_trim p s :
  (∀ c, is_space c = true -> p c = false) -> filter_chars p (trim s) = filter_chars p s.
Proof.
  intros Hp. unfold trim.
  rewrite filter_chars_rev, (filter_chars_trimStart p _ Hp), filter_chars_rev,
    string_rev_involutive.
  by apply filter_chars_trimStart.
Qed.

Lemma filter_chars_idemp p s : filter_chars p (filter_chars p s) = filter_chars p s.
Proof.
  induction s as [|c s IH]; simpl; [done|].
  destruct (p c) eqn:Hc; simpl; [|done]. by rewrite Hc, IH.
Qed.

Lemma filter_chars_Forall p s :
  existsb_char (fun c => negb (p c)) (filter_chars p s) = false.
Proof.
  induction s as [|c s IH]; simpl; [done|].
  destruct (p c) eqn:Hc; simpl; [|done]. by rewrite Hc, IH.
Qed.

Lemma existsb_char_rev_app q s : ∀ acc,
  existsb_char q (String.rev_app s acc) = existsb_char q s || existsb_char q acc.
Proof.
  induction s as [|c s IH]; intros acc; simpl; [done|].
  rewrite IH. simpl. by destruct (q c), (existsb_char q s), (existsb_char q acc).
Qed.

Lemma trimStart_no_space s : existsb_char is_space s = false -> trimStart s = s.
Proof. destruct s as [|c s]; simpl; [done|]. by destruct (is_space c). Qed.

Lemma trim_no_space s : existsb_char is_space s = false -> trim s = s.
Proof.
  intros Hs. unfold trim. rewrite (trimStart_no_space s Hs).
  rewrite trimStart_no_space.
  - apply string_rev_involutive.
  - unfold String.rev. by rewrite existsb_char_rev_app, Hs.
Qed.

Lemma existsb_char_impl (q q' : ascii -> bool) s :
  (∀ c, q c = true -> q' c = true) -> existsb_char q' s = false -> existsb_char q s = false.
Proof.
  intros Hq. induction s as [|c s IH]; simpl; [done|].
  intros [H1 H2]%orb_false_iff. rewrite (IH H2), orb_false_r.
  destruct (q c) eqn:Hc; [|done]. by rewrite (Hq c Hc) in H1.
Qed.

Lemma space_not_amount_char c : is_space c = true -> keep_amount_char c = false.
Proof. destruct c as [[] [] [] [] [] [] [] []]; by vm_compute. Qed.

Lemma normalizeAmountString_filter s :
  normalizeAmountString (filter_chars keep_amount_char s) = normalizeAmountString s.
Proof. unfold normalizeAmountString. by rewrite filter_chars_idemp. Qed.

Lemma normalizeAmountString_trim s : normalizeAmountString (trim s) = normalizeAmountString s.
Proof.
  unfold normalizeAmountString.
  by rewrite (filter_chars_trim _ _ space_not_amount_char).
Qed.

(** X17 (parseAmount, part_001 158-172).  The amount read from a string
    depends only on its digits, minus signs, periods and commas, in their
    order: every other character (currency signs, letters, spaces,
    brackets) is dropped before the number is read, wherever it stands. *)
Theorem parseAmount_reads_kept_characters s :
  parseAmount (Str s) = parseAmount (Str (filter_chars keep_amount_char s)).
Proof.
  simpl.
  assert (Hclean : trim (filter_chars keep_amount_char s) = filter_chars keep_amount_char s).
  { apply trim_no_space.
    apply (existsb_char_impl _ (fun c => negb (keep_amount_char c))).
    - intros c Hc. by rewrite (space_not_amount_char c Hc).
    - apply filter_chars_Forall. }
  rewrite Hclean, normalizeAmountString_trim, normalizeAmountString_filter.
  pose proof (filter_chars_trim keep_amount_char s space_not_amount_char) as Htrim.
  destruct (truthy (trim s)) eqn:Ht; simpl.
  - destruct (filter_chars keep_amount_char s) as [|c r] eqn:Hf; simpl; [|done].
    unfold normalizeAmountString. by rewrite Hf.
  - apply truthy_false in Ht. rewrite Ht in Htrim. simpl in Htrim. by rewrite <- Htrim.
Qed.

Lemma existsb_char_filter q p s :
  existsb_char q s = false -> existsb_char q (filter_chars p s) = false.
Proof.
  induction s as [|c s IH]; simpl; [done|].
  intros [H1 H2]%orb_false_iff. destruct (p c); simpl; [|by apply IH].
  by rewrite H1, (IH H2).
Qed.

Lemma existsb_char_replace_first q a b s :
  q b = false -> existsb_char q s = false -> existsb_char q (replace_first a b s) = false.
Proof.
  intros Hb. induction s as [|c s IH]; simpl; [done|].
  intros [H1 H2]%orb_false_iff. destruct (Ascii.eqb c a); simpl.
  - by rewrite Hb, H2.
  - by rewrite H1, (IH H2).
Qed.

Lemma existsb_char_trimStart q s :
  existsb_char q s = false -> existsb_char q (trimStart s) = false.
Proof.
  induction s as [|c s IH]; simpl; [done|].
  intros [H1 H2]%orb_false_iff. destruct (is_space c); [by apply IH|].
  simpl. by rewrite H1, H2.
Qed.

Lemma existsb_char_trim q s : existsb_char q s = false -> existsb_char q (trim s) = false.
Proof.
  intros Hs. unfold trim, String.rev.
  rewrite existsb_char_rev_app, orb_false_r.
  apply existsb_char_trimStart. rewrite existsb_char_rev_app, orb_false_r.
  by apply existsb_char_trimStart.
Qed.

Lemma no_minus_normalized s :
  has_char "-" s = false -> has_char "-" (normalizeAmountString s) = false.
Proof.
  unfold has_char, normalizeAmountString. intros Hs.
  repeat case_match; repeat first
    [ apply existsb_char_replace_first; [done|] | apply existsb_char_filter ]; done.
Qed.

Lemma parseFloat_no_minus t v :
  has_char "-" t = false -> parseFloat t = Some v -> (0 <= v)%Q.
Proof.
  unfold has_char. intros Ht%existsb_char_trimStart. unfold parseFloat.
  destruct (trimStart t) as [|c r]; [done|].
  simpl in Ht. apply orb_false_iff in Ht as [Hc _].
  assert (Hsign : ∃ s1, match String c r with
                        | String "-" r0 => (true, r0)
                        | String "+" r0 => (false, r0)
                        | _ => (false, String c r)
                        end = (false, s1)).
  { destruct c as [[] [] [] [] [] [] [] []]; try (eexists; reflexivity). done. }
  destruct Hsign as [s1 ->].
  destruct (take_digits s1 0 0) as [[ip ni] s2] eqn:Hip.
  apply take_digits_bound in Hip as [_ Hip]; [|lia].
  assert (Hfrac : ∃ fp nf s3, match s2 with
                              | String "." r0 => take_digits r0 0 0
                              | _ => (0%Z, 0, s2)
                              end = (fp, nf, s3) ∧ (0 <= fp)%Z).
  { destruct s2 as [|c2 r2]; [by eexists _, _, _|].
    destruct (Ascii.eqb_spec c2 ".") as [->|Hne].
    - destruct (take_digits r2 0 0) as [[fp nf] s3] eqn:Hfp.
      exists fp, nf, s3. split; [done|].
      apply take_digits_bound in Hfp as [_ Hfp]; lia.
    - exists 0%Z, 0, (String c2 r2). split; [|done].
      destruct c2 as [[] [] [] [] [] [] [] []]; done. }
  destruct Hfrac as (fp & nf & s3 & -> & Hfp).
  destruct (ni + nf =? 0); [done|]. intros [= <-].
  unfold Qle. simpl. nia.
Qed.



(** X18 (parseAmount, part_001 158-172).  Without a minus sign in the
    string the amount is never negative: an amount in brackets or with a
    DR or CR mark is read as a positive number. *)
Theorem parseAmount_negative_needs_minus s v :
  has_char "-" s = false -> parseAmount (Str s) = Some v -> (0 <= v)%Q.
Proof.
  intros Hs. simpl. destruct (truthy (trim s)); simpl; [|done].
  destruct (parseFloat _) as [n|] eqn:Hn; [|done]. intros [= <-].
  assert (0 <= n)%Q as Hpos.
  { eapply parseFloat_no_minus; [|exact Hn].
    apply no_minus_normalized. by apply existsb_char_trim. }
  unfold JS.round2.
  assert (0 <= JS.Math_round (n * 100))%Z as Hr by (apply Math_round_nonneg; lra).
  unfold Qdiv. apply Qmult_le_0_compat; [|done].
  change 0%Q with (inject_Z 0). by rewrite <- Zle_Qle.
Qed.

(** X18 at an amount in brackets. *)
Lemma parseAmount_negative_needs_minus_witness :
  has_char "-" "(1,234.50) DR" = false ∧
  parseAmount (Str "(1,234.50) DR") = Some 1234.50%Q ∧ (0 <= 1234.50)%Q.
Proof.
  assert (H1 : has_char "-" "(1,234.50) DR" = false) by reflexivity.
  assert (H2 : parseAmount (Str "(1,234.50) DR") = Some 1234.50%Q)
    by (vm_compute; reflexivity).
  split; [exact H1|]. split; [exact H2|].
  exact (parseAmount_negative_needs_minus "(1,234.50) DR" 1234.50%Q H1 H2).
Defined.

(** * The description score *)


Lemma Math_round_Z (k : Z) x : (x == inject_Z k)%Q -> JS.Math_round x = k.
Proof.
  intros Hx. unfold JS.Math_round. rewrite <- (Qfloor_half k).
  apply Qfloor_comp. by rewrite Hx.
Qed.

(** X19 (descriptionScore, part_001 268-277).  Descriptions without a
    common token score 50, the same as a missing description; descriptions
    with the same tokens score 0 (50 when there is no token at all). *)
Theorem descriptionScore_extremes a b :
  (tokenize a ## tokenize b -> descriptionScore a b = 50%Z) ∧
  (tokenize a = tokenize b ->
   descriptionScore a b = if decide (tokenize a = ∅) then 50%Z else 0%Z).
Proof.
  unfold descriptionScore. split.
  - intros Hdisj.
    destruct ((size (tokenize a) =? 0) || (size (tokenize b) =? 0)) eqn:He; [done|].
    apply orb_false_iff in He as [Ha Hb]. apply Nat.eqb_neq in Ha, Hb.
    assert (filter (fun t => t ∈ tokenize b) (tokenize a) = ∅) as ->.
    { apply set_eq. intros t. rewrite elem_of_filter, elem_of_empty.
      split; [|done]. intros [Hinb Hina]. exact (Hdisj t Hina Hinb). }
    rewrite size_empty, Nat.sub_0_r.
    destruct (size (tokenize a) + size (tokenize b) =? 0) eqn:Hu.
    + by apply (Math_round_Z 50).
    + apply (Math_round_Z 50). simpl. unfold Qdiv. rewrite Qmult_0_l. reflexivity.
  - intros <-. destruct (decide (tokenize a = ∅)) as [He|Hne].
    + by rewrite He, size_empty.
    + assert (size (tokenize a) ≠ 0) as Hs by (by intros ?%size_empty_inv%leibniz_equiv).
      rewrite orb_diag. destruct (size (tokenize a) =? 0) eqn:He;
        [by apply Nat.eqb_eq in He|].
      assert (filter (fun t => t ∈ tokenize a) (tokenize a) = tokenize a) as ->.
      { apply set_eq. intros t. rewrite elem_of_filter. tauto. }
      replace (size (tokenize a) + size (tokenize a) - size (tokenize a))
        with (size (tokenize a)) by lia.
      rewrite He. apply (Math_round_Z 0).
      assert (inject_Z (Z.of_nat (size (tokenize a))) / inject_Z (Z.of_nat (size (tokenize a)))
              == 1)%Q as ->; [|reflexivity].
      field. change 0%Q with (inject_Z 0). rewrite inject_Z_injective. lia.
Qed.

Lemma existsb_char_snoc q cur c :
  existsb_char q (cur +:+ String c "") = existsb_char q cur || q c.
Proof.
  induction cur as [|x cur IH]; [simpl; by rewrite orb_false_r|].
  change (q x || existsb_char q (cur +:+ String c "") = q x || existsb_char q cur || q c).
  by rewrite IH, orb_assoc.
Qed.

(** The pieces of [split_ws] are made of the characters of the string that
    are not white space. *)
Lemma split_ws_pieces q s : ∀ skipping cur t,
  existsb_char (fun c => negb (is_space c) && q c) s = false ->
  existsb_char q cur = false ->
  t ∈ split_ws skipping cur s -> existsb_char q t = false.
Proof.
  induction s as [|c s IH]; intros skipping cur t Hs Hcur; simpl.
  - by intros ->%list_elem_of_singleton.
  - simpl in Hs. apply orb_false_iff in Hs as [Hc Hs].
    destruct (is_space c) eqn:Hsp.
    + destruct skipping.
      * by apply IH.
      * intros [->|Ht]%elem_of_cons; [done|]. by apply (IH true "").
    + apply IH; [done|]. rewrite existsb_char_snoc, Hcur. simpl in Hc. by rewrite Hc.
Qed.

Lemma keep_or_blank_word c :
  negb (is_space (keep_or_blank c)) && negb (word_char (keep_or_blank c)) = false.
Proof. destruct c as [[] [] [] [] [] [] [] []]; by vm_compute. Qed.

Lemma map_chars_keep_or_blank s :
  existsb_char (fun c => negb (is_space c) && negb (word_char c))
               (map_chars keep_or_blank s) = false.
Proof.
  induction s as [|c s IH]; simpl; [done|]. by rewrite keep_or_blank_word, IH.
Qed.

Lemma tokens_are_tokens s t : t ∈ tokens s -> is_token t.
Proof.
  unfold tokens. intros [Ht Hin]%list_elem_of_filter. split; [done|].
  apply (split_ws_pieces (fun c => negb (word_char c))
           (map_chars keep_or_blank (toLowerCase (or_else s ""))) false "" t);
    [apply map_chars_keep_or_blank|done|exact Hin].
Qed.

Lemma lower_char_idemp c : lower_char (lower_char c) = lower_char c.
Proof. destruct c as [[] [] [] [] [] [] [] []]; by vm_compute. Qed.

Lemma toLowerCase_idemp s : toLowerCase (toLowerCase s) = toLowerCase s.
Proof. induction s as [|c s IH]; simpl; [done|]. by rewrite lower_char_idemp, IH. Qed.

Lemma tokens_toLowerCase s : tokens (toLowerCase s) = tokens s.
Proof.
  unfold tokens. rewrite !or_else_empty. by rewrite toLowerCase_idemp.
Qed.

(** X20 (tokenize, part_001 278-286).  Every token is a non-empty word of
    the letters a-z and the digits; and the case of the letters of a
    description makes no difference, to its tokens and to the score. *)
Theorem tokenize_words a b :
  (∀ t, t ∈ tokenize a -> is_token t) ∧
  tokenize (toLowerCase a) = tokenize a ∧
  descriptionScore (toLowerCase a) b = descriptionScore a b.
Proof.
  split_and!.
  - intros t Ht. apply elem_of_list_to_set in Ht. by apply (tokens_are_tokens a).
  - unfold tokenize. by rewrite tokens_toLowerCase.
  - unfold descriptionScore, tokenize. by rewrite tokens_toLowerCase.
Qed.

(** * Pagination *)

Lemma slice_nonneg {A} (items : list A) lo hi :
  (0 <= lo <= hi)%Z ->
  slice items lo hi = take (Z.to_nat hi - Z.to_nat lo) (drop (Z.to_nat lo) items).
Proof.
  intros H. unfold slice.
  destruct (lo <? 0)%Z eqn:Hlo; [apply Z.ltb_lt in Hlo; lia|].
  destruct (hi <? 0)%Z eqn:Hhi; [apply Z.ltb_lt in Hhi; lia|].
  destruct (decide (lo <= Z.of_nat (length items))%Z) as [Hle|Hgt].
  - rewrite (Z.min_l lo) by done.
    destruct (decide (hi <= Z.of_nat (length items))%Z) as [Hle'|Hgt'].
    + rewrite (Z.min_l hi) by done. f_equal. lia.
    + rewrite (Z.min_r hi) by lia.
      rewrite !take_ge; [done|rewrite length_drop; lia..].
  - rewrite !drop_ge by lia. by rewrite !take_nil.
Qed.

Lemma pages_concat {A} (items : list A) (size : nat) (k : nat) :
  concat ((fun i => take size (drop (i * size) items)) <$> seq 0 k) = take (k * size) items.
Proof.
  induction k as [|k IH]; [done|].
  rewrite seq_S, fmap_app, concat_app, IH. simpl. rewrite app_nil_r.
  rewrite take_take_drop. f_equal. lia.
Qed.

Lemma Qceiling_div_bounds (n s : Z) :
  (0 < s)%Z ->
  let c := Qceiling (inject_Z n / inject_Z s) in
  ((c - 1) * s < n <= c * s)%Z.
Proof.
  intros Hs c.
  assert (Hsq : (0 < inject_Z s)%Q) by (change 0%Q with (inject_Z 0); by rewrite <- Zlt_Qlt).
  assert (Hx : (inject_Z n / inject_Z s * inject_Z s == inject_Z n)%Q)
    by (field; intros H0; rewrite H0 in Hsq; by apply Qlt_irrefl in Hsq).
  pose proof (Qle_ceiling (inject_Z n / inject_Z s)) as Hup.
  pose proof (Qceiling_lt (inject_Z n / inject_Z s)) as Hlo.
  fold c in Hup, Hlo.
  split.
  - apply (Qmult_lt_compat_r _ _ (inject_Z s) Hsq) in Hlo.
    rewrite Hx in Hlo. rewrite <- inject_Z_mult in Hlo. by rewrite Zlt_Qlt.
  - apply (Qmult_le_compat_r _ _ (inject_Z s)) in Hup; [|by apply Qlt_le_weak].
    rewrite Hx in Hup. rewrite <- inject_Z_mult in Hup. by rewrite Zle_Qle.
Qed.

Lemma data_nonneg {A} (items : list A) (pageSize : Z) (i : nat) :
  (1 <= pageSize)%Z ->
  Pagination.data items pageSize (Z.of_nat i + 1) =
  take (Z.to_nat pageSize) (drop (i * Z.to_nat pageSize) items).
Proof.
  intros Hs. unfold Pagination.data. rewrite slice_nonneg by nia.
  f_equal; [nia|f_equal; nia].
Qed.

(** X21 (usePagination, part_001 446-454).  For a page size of at least
    one the pages 1 to [pageCount] cut the items into consecutive pieces:
    put one after the other they give the items back, every page but the
    last is full, no page is longer than the page size, and no page is
    empty unless there are no items.  A page beyond the last shows
    nothing.  [go], [next] and [prev] never leave the range of the
    pages. *)
Theorem usePagination_pages {A} (items : list A) (pageSize : Z) :
  (1 <= pageSize)%Z ->
  let count := Pagination.pageCount items pageSize in
  let data := Pagination.data items pageSize in
  (1 <= count)%Z ∧
  concat (data <$> seqZ 1 count) = items ∧
  (∀ p, (1 <= p <= count)%Z ->
        (Z.of_nat (length (data p)) <= pageSize)%Z ∧
        ((p < count)%Z -> Z.of_nat (length (data p)) = pageSize) ∧
        (items ≠ [] -> data p ≠ [])) ∧
  (∀ p, (count < p)%Z -> data p = []) ∧
  (∀ p, (1 <= Pagination.go items pageSize p <= count)%Z) ∧
  (∀ p, (1 <= p <= count)%Z ->
        (1 <= Pagination.next items pageSize p <= count)%Z ∧
        (1 <= Pagination.prev p <= count)%Z).
Proof.
  intros Hs count data.
  pose proof (Qceiling_div_bounds (Z.of_nat (length items)) pageSize ltac:(lia)) as Hc.
  cbv zeta in Hc.
  assert (Hcount : count = Z.max 1 (Qceiling (inject_Z (Z.of_nat (length items))
                                              / inject_Z pageSize))) by done.
  set (c := Qceiling _) in *. clearbody c.
  assert (H1 : (1 <= count)%Z) by lia.
  split; [done|]. split; [|split; [|split; [|split]]].
  - unfold seqZ. rewrite <- list_fmap_compose.
    rewrite (list_fmap_ext _ (fun i => take (Z.to_nat pageSize)
                                         (drop (i * Z.to_nat pageSize) items))).
    + rewrite pages_concat. apply take_ge. nia.
    + intros _ i _. simpl. by apply data_nonneg.
  - intros p Hp.
    assert (Hdata : data p = take (Z.to_nat pageSize)
                               (drop (Z.to_nat (p - 1) * Z.to_nat pageSize) items)).
    { replace p with (Z.of_nat (Z.to_nat (p - 1)) + 1)%Z at 1 by lia.
      by apply data_nonneg. }
    rewrite Hdata, length_take, length_drop.
    split; [lia|]. split.
    + intros Hlt. nia.
    + intros Hne. destruct (take _ _) eqn:Ht; [|done].
      apply (f_equal length) in Ht. rewrite length_take, length_drop in Ht. simpl in Ht.
      assert (0 < length items) by (destruct items; simpl; [done|lia]).
      nia.
  - intros p Hp.
    assert (Hdata : data p = take (Z.to_nat pageSize)
                               (drop (Z.to_nat (p - 1) * Z.to_nat pageSize) items)).
    { replace p with (Z.of_nat (Z.to_nat (p - 1)) + 1)%Z at 1 by lia.
      by apply data_nonneg. }
    rewrite Hdata, drop_ge; [by rewrite take_nil|nia].
  - intros p. unfold Pagination.go. fold count. lia.
  - intros p Hp. unfold Pagination.next, Pagination.prev. fold count. lia.
Qed.

(** X21 at three items on pages of two. *)
Lemma usePagination_pages_witness :
  (1 <= 2)%Z ∧
  concat (Pagination.data [1; 2; 3]%Z 2 <$> seqZ 1 (Pagination.pageCount [1; 2; 3]%Z 2))
  = [1; 2; 3]%Z.
Proof.
  assert (H : (1 <= 2)%Z) by lia.
  split; [exact H|].
  exact (proj1 (proj2 (usePagination_pages [1; 2; 3]%Z 2 H))).
Defined.

(** * The edit distance *)

Lemma levenshtein_0_r s1 s2 i : levenshtein s1 s2 i 0 = i.
Proof. by destruct i. Qed.

Lemma levenshtein_S s1 s2 i j :
  levenshtein s1 s2 (S i) (S j) =
  if bool_decide (s1 !! i = s2 !! j) then levenshtein s1 s2 i j
  else Nat.min (Nat.min (levenshtein s1 s2 i j) (levenshtein s1 s2 (S i) j))
               (levenshtein s1 s2 i (S j)) + 1.
Proof. done. Qed.

Section EditDistanceFacts.
Variables (s1 s2 : list ascii).

Lemma editInner_row0 k :
  k ≤ S (length s2) ->
  ∀ last, (foldl (editInner s1 s2 0) ([], last) (seq 0 k)) = (seq 0 k, last).
Proof.
  intros Hk last. induction k as [|k IH]; [done|].
  rewrite seq_S, foldl_app, IH by lia. simpl.
  unfold array_set. rewrite length_seq, Nat.ltb_irrefl. done.
Qed.

Lemma editInner_step i k st :
  k ≤ length s2 -> inner_inv s1 s2 i k st ->
  inner_inv s1 s2 i (S k) (editInner s1 s2 (S i) st k).
Proof.
  intros Hk (Hlen & Hlast & Hnew & Hold). destruct st as [costs last].
  cbn [fst snd] in *. unfold inner_inv, editInner.
  change (S i =? 0) with false. cbv iota.
  destruct k as [|k].
  - change (0 <? 0) with false. cbv iota. by split_and!.
  - change (0 <? S k) with true. cbv iota.
    replace (S k - 1) with k in * by lia. replace (S (S k) - 1) with (S k) by lia.
    replace (S i - 1) with i by lia.
    unfold array_get, charAt.
    rewrite (Hold k) by lia. rewrite (Hold (S k)) by lia. cbn [default from_option].
    unfold array_set. rewrite (proj2 (Nat.ltb_lt k (length costs))) by lia.
    split_and!; cbn [fst snd].
    + by rewrite length_insert.
    + rewrite levenshtein_S, Hlast. unfold id. by destruct (bool_decide _).
    + intros x Hx. destruct (decide (x = k)) as [->|Hne].
      * rewrite list_lookup_insert_eq by lia. by rewrite Hlast.
      * rewrite list_lookup_insert_ne by done. apply Hnew. lia.
    + intros x Hx. rewrite list_lookup_insert_ne by lia. apply Hold. lia.
Qed.

Lemma editInner_loop i costs k :
  k ≤ S (length s2) ->
  inner_inv s1 s2 i 0 (costs, S i) ->
  inner_inv s1 s2 i k (foldl (editInner s1 s2 (S i)) (costs, S i) (seq 0 k)).
Proof.
  intros Hk H0. induction k as [|k IH]; [done|].
  rewrite seq_S, foldl_app. simpl. apply editInner_step; [lia|]. apply IH. lia.
Qed.

Lemma editOuter_step i :
  editOuter s1 s2 (levenshtein s1 s2 i <$> seq 0 (S (length s2))) (S i) =
  levenshtein s1 s2 (S i) <$> seq 0 (S (length s2)).
Proof.
  unfold editOuter.
  assert (H0 : inner_inv s1 s2 i 0 (levenshtein s1 s2 i <$> seq 0 (S (length s2)), S i)).
  { unfold inner_inv. split_and!; cbn [fst snd].
    - by rewrite length_fmap, length_seq.
    - done.
    - intros x Hx. lia.
    - intros x Hx. rewrite list_lookup_fmap, lookup_seq_lt by lia. done. }
  pose proof (editInner_loop i _ (S (length s2)) (le_n _) H0) as Hinv.
  destruct (foldl _ _ _) as [costs last]. destruct Hinv as (Hlen & Hlast & Hnew & Hold).
  cbn [fst snd] in *. change (0 <? S i) with true. cbv iota.
  replace (S (length s2) - 1) with (length s2) in * by lia.
  unfold array_set. rewrite (proj2 (Nat.ltb_lt (length s2) (length costs))) by lia.
  apply list_eq. intros x.
  destruct (decide (x < length s2)) as [Hlt|Hge].
  - rewrite list_lookup_insert_ne by lia. rewrite (Hnew x Hlt).
    by rewrite list_lookup_fmap, lookup_seq_lt by lia.
  - destruct (decide (x = length s2)) as [->|Hne].
    + rewrite list_lookup_insert_eq by lia.
      rewrite list_lookup_fmap, lookup_seq_lt by lia. simpl. by rewrite Hlast.
    + rewrite !lookup_ge_None_2; [done|..].
      * rewrite length_fmap, length_seq. lia.
      * rewrite length_insert. lia.
Qed.

Lemma editOuter_row0 : editOuter s1 s2 [] 0 = levenshtein s1 s2 0 <$> seq 0 (S (length s2)).
Proof.
  unfold editOuter. rewrite editInner_row0 by done. simpl. f_equal.
  by rewrite list_fmap_id.
Qed.

Lemma editCosts_rows k :
  foldl (editOuter s1 s2) [] (seq 0 (S k)) = levenshtein s1 s2 k <$> seq 0 (S (length s2)).
Proof.
  induction k as [|k IH].
  - simpl. apply editOuter_row0.
  - rewrite seq_S, foldl_app, IH. simpl. apply editOuter_step.
Qed.

Lemma editCosts_levenshtein :
  array_get (editCosts s1 s2) (length s2) = levenshtein s1 s2 (length s1) (length s2).
Proof.
  unfold editCosts, array_get. rewrite editCosts_rows.
  by rewrite list_lookup_fmap, lookup_seq_lt by lia.
Qed.
End EditDistanceFacts.

Lemma levenshtein_bounds s1 s2 i : ∀ j,
  levenshtein s1 s2 i j ≤ Nat.max i j ∧ i - j ≤ levenshtein s1 s2 i j ∧
  j - i ≤ levenshtein s1 s2 i j.
Proof.
  induction i as [|i IHi]; intros j; [simpl; lia|].
  induction j as [|j IHj]; [rewrite levenshtein_0_r; lia|].
  rewrite levenshtein_S.
  pose proof (IHi j). pose proof (IHi (S j)).
  destruct (bool_decide _); lia.
Qed.

Lemma levenshtein_sym s1 s2 i : ∀ j, levenshtein s1 s2 i j = levenshtein s2 s1 j i.
Proof.
  induction i as [|i IHi]; intros j; [by rewrite levenshtein_0_r|].
  induction j as [|j IHj]; [by rewrite levenshtein_0_r|].
  rewrite !levenshtein_S, IHj, !IHi.
  destruct (bool_decide (s1 !! i = s2 !! j)) eqn:He.
  - apply bool_decide_eq_true in He. by rewrite bool_decide_true.
  - apply bool_decide_eq_false in He. rewrite bool_decide_false by done. lia.
Qed.

Lemma levenshtein_diag s n : levenshtein s s n n = 0.
Proof.
  induction n as [|n IH]; [done|].
  rewrite levenshtein_S, bool_decide_true by done. exact IH.
Qed.

Lemma levenshtein_zero s1 s2 i : ∀ j,
  i ≤ length s1 -> j ≤ length s2 ->
  levenshtein s1 s2 i j = 0 -> i = j ∧ take i s1 = take j s2.
Proof.
  induction i as [|i IHi]; intros j Hi Hj; [simpl; by intros ->|].
  destruct j as [|j]; [by rewrite levenshtein_0_r|].
  rewrite levenshtein_S. destruct (bool_decide _) eqn:He; [|lia].
  apply bool_decide_eq_true in He. intros H0.
  destruct (IHi j ltac:(lia) ltac:(lia) H0) as [-> Htake]. split; [done|].
  destruct (lookup_lt_is_Some_2 s1 j Hi) as [x Hx].
  destruct (lookup_lt_is_Some_2 s2 j Hj) as [y Hy].
  rewrite (take_S_r _ _ _ Hx), (take_S_r _ _ _ Hy), Htake. congruence.
Qed.

Lemma editDistance_lev a b :
  editDistance a b =
  levenshtein (list_ascii_of_string (toLowerCase a)) (list_ascii_of_string (toLowerCase b))
              (String.length a) (String.length b).
Proof.
  unfold editDistance. rewrite editCosts_levenshtein.
  assert (Hlen : ∀ s, length (list_ascii_of_string (toLowerCase s)) = String.length s).
  { intros s. induction s as [|c s IH]; simpl; [done|]. by rewrite IH. }
  by rewrite !Hlen.
Qed.

Lemma length_list_ascii_lower s :
  length (list_ascii_of_string (toLowerCase s)) = String.length s.
Proof. induction s as [|c s IH]; simpl; [done|]. by rewrite IH. Qed.

(** X22 (editDistance, reconciliation-workspace.tsx 225-245).  The loop
    over the single array [costs] computes the Levenshtein table: the
    result is the entry of the textbook recurrence for the two strings in
    lower case, at their full lengths. *)
Theorem editDistance_levenshtein a b :
  editDistance a b =
  levenshtein (list_ascii_of_string (toLowerCase a)) (list_ascii_of_string (toLowerCase b))
              (String.length a) (String.length b).
Proof. apply editDistance_lev. Qed.

Lemma length_toLowerCase s : String.length (toLowerCase s) = String.length s.
Proof. induction s as [|c s IH]; simpl; [done|]. by rewrite IH. Qed.

Lemma editDistance_facts a b :
  let la := String.length (toLowerCase a) in
  let lb := String.length (toLowerCase b) in
  editDistance a b = editDistance b a ∧
  la - lb ≤ editDistance a b ∧
  lb - la ≤ editDistance a b ∧
  editDistance a b ≤ Nat.max la lb ∧
  (editDistance a b = 0 <-> toLowerCase a = toLowerCase b).
Proof.
  intros la lb. unfold la, lb. rewrite !length_toLowerCase. clear la lb.
  rewrite !editDistance_lev.
  pose proof (levenshtein_bounds (list_ascii_of_string (toLowerCase a))
                (list_ascii_of_string (toLowerCase b)) (String.length a) (String.length b))
    as (Hub & Hl1 & Hl2).
  split_and!; try done.
  - apply levenshtein_sym.
  - split.
    + intros H0. apply levenshtein_zero in H0 as [Hlen Htake];
        [|by rewrite length_list_ascii_lower..].
      apply list_ascii_of_string_inj.
      rewrite <- (length_list_ascii_lower a), <- (length_list_ascii_lower b) in Htake.
      by rewrite !firstn_all in Htake.
    + intros Heq. rewrite Heq.
      assert (String.length a = String.length b) as ->.
      { by rewrite <- (length_list_ascii_lower a), <- (length_list_ascii_lower b), Heq. }
      apply levenshtein_diag.
Qed.

(** X23 (editDistance, reconciliation-workspace.tsx 225-245).  The edit
    distance does not depend on the order of the two strings, lies between
    the difference of the lengths of the two strings in lower case and the
    greater of these lengths, and is 0 exactly for strings that are equal up
    to the case of their letters. *)
Theorem editDistance_distance a b :
  let la := String.length (toLowerCase a) in
  let lb := String.length (toLowerCase b) in
  editDistance a b = editDistance b a ∧
  la - lb ≤ editDistance a b ∧
  lb - la ≤ editDistance a b ∧
  editDistance a b ≤ Nat.max la lb ∧
  (editDistance a b = 0 <-> toLowerCase a = toLowerCase b).
Proof. apply editDistance_facts. Qed.

Lemma similarity_unfold s1 s2 :
  ∃ longer shorter,
    ((longer = s1 ∧ shorter = s2) ∨ (longer = s2 ∧ shorter = s1)) ∧
    String.length shorter ≤ String.length longer ∧
    calculateStringSimilarity s1 s2 =
    if String.length longer =? 0 then 1%Q
    else (inject_Z (Z.of_nat (String.length longer) - Z.of_nat (editDistance longer shorter))
          / inject_Z (Z.of_nat (String.length longer)))%Q.
Proof.
  unfold calculateStringSimilarity.
  destruct (String.length s2 <? String.length s1) eqn:Hlt.
  - apply Nat.ltb_lt in Hlt. exists s1, s2. split_and!; [by left|lia|done].
  - apply Nat.ltb_ge in Hlt. exists s2, s1. split_and!; [by right|lia|done].
Qed.

Lemma string_length_zero s : String.length s = 0 -> s = "".
Proof. by destruct s. Qed.

Lemma similarity_le_1 a b :
  String.length b ≤ String.length a ->
  let v := if String.length a =? 0 then 1%Q
           else (inject_Z (Z.of_nat (String.length a) - Z.of_nat (editDistance a b))
                 / inject_Z (Z.of_nat (String.length a)))%Q in
  (v <= 1)%Q ∧ ((v == 1)%Q <-> toLowerCase a = toLowerCase b) ∧
  (editDistance a b ≤ String.length a -> (0 <= v)%Q).
Proof.
  intros Hlen v. unfold v. clear v.
  destruct (String.length a =? 0) eqn:H0.
  - apply Nat.eqb_eq in H0. split; [lra|]. split; [|intros; lra].
    split; [|reflexivity]. intros _.
    assert (String.length b = 0) as Hb by lia.
    by rewrite (string_length_zero a H0), (string_length_zero b Hb).
  - apply Nat.eqb_neq in H0.
    assert (HL : (0 < inject_Z (Z.of_nat (String.length a)))%Q).
    { change 0%Q with (inject_Z 0). rewrite <- Zlt_Qlt. lia. }
    destruct (editDistance_facts a b) as (_ & _ & _ & _ & Hzero).
    remember (String.length a) as L eqn:HeqL. remember (editDistance a b) as d eqn:Heqd.
    assert (Hd0 : (0 <= inject_Z (Z.of_nat d))%Q).
    { change 0%Q with (inject_Z 0). rewrite <- Zle_Qle. lia. }
    assert (Hv : ((inject_Z (Z.of_nat L - Z.of_nat d) / inject_Z (Z.of_nat L))
                  == 1 - inject_Z (Z.of_nat d) / inject_Z (Z.of_nat L))%Q).
    { unfold Z.sub. rewrite inject_Z_plus, inject_Z_opp. field.
      intros Hz. rewrite Hz in HL. by apply Qlt_irrefl in HL. }
    assert (Hq : (0 <= inject_Z (Z.of_nat d) / inject_Z (Z.of_nat L))%Q).
    { apply Qle_shift_div_l; [done|]. lra. }
    rewrite Hv. split; [lra|]. split.
    + rewrite <- Hzero. split.
      * intros H1.
        assert (inject_Z (Z.of_nat d) / inject_Z (Z.of_nat L) == 0)%Q as Hz by lra.
        assert (inject_Z (Z.of_nat d) == 0)%Q as Hz'.
        { rewrite <- (Qmult_div_r (inject_Z (Z.of_nat d)) (inject_Z (Z.of_nat L)));
            [|intros Hx; rewrite Hx in HL; by apply Qlt_irrefl in HL].
          rewrite Hz. ring. }
        unfold Qeq in Hz'; simpl in Hz'; lia.
      * intros ->. simpl. unfold Qdiv. rewrite Qmult_0_l. reflexivity.
    + intros HdL.
      assert (inject_Z (Z.of_nat d) / inject_Z (Z.of_nat L) <= 1)%Q.
      { apply Qle_shift_div_r; [done|]. rewrite Qmult_1_l, <- Zle_Qle. lia. }
      lra.
Qed.

(** X24 (calculateStringSimilarity, reconciliation-workspace.tsx 218-223).
    The similarity of two strings is at most 1, does not depend on their
    order, and is 1 exactly for strings that are equal up to the case of
    their letters.  It is at least 0 for strings that lower-casing leaves
    at their length, as it does every string of the characters modelled
    here: the code divides by a length taken before lower-casing. *)
Theorem calculateStringSimilarity_range s1 s2 :
  (calculateStringSimilarity s1 s2 <= 1)%Q ∧
  (calculateStringSimilarity s1 s2 == calculateStringSimilarity s2 s1)%Q ∧
  ((calculateStringSimilarity s1 s2 == 1)%Q <-> toLowerCase s1 = toLowerCase s2) ∧
  (String.length (toLowerCase s1) = String.length s1 ->
   String.length (toLowerCase s2) = String.length s2 ->
   (0 <= calculateStringSimilarity s1 s2)%Q).
Proof.
  destruct (similarity_unfold s1 s2) as (l & s & Hls & Hlen & ->).
  destruct (similarity_unfold s2 s1) as (l' & s' & Hls' & Hlen' & ->).
  destruct (similarity_le_1 l s Hlen) as (Hr & Hone & Hpos).
  split; [done|]. split; [|split].
  - destruct Hls as [[-> ->]|[-> ->]], Hls' as [[-> ->]|[-> ->]]; try reflexivity.
    + assert (String.length s1 = String.length s2) as Hl by lia.
      rewrite Hl. rewrite !editDistance_lev, (levenshtein_sym _ _ (String.length s1)), Hl.
      reflexivity.
    + assert (String.length s1 = String.length s2) as Hl by lia.
      rewrite Hl. rewrite !editDistance_lev, (levenshtein_sym _ _ (String.length s2)), Hl.
      reflexivity.
  - rewrite Hone. destruct Hls as [[-> ->]|[-> ->]]; [done|]. split; by intros ->.
  - intros H1 H2. apply Hpos.
    destruct (editDistance_facts l s) as (_ & _ & _ & Hub & _).
    assert (String.length (toLowerCase l) = String.length l ∧
            String.length (toLowerCase s) = String.length s) as [Hl Hs]
      by (destruct Hls as [[-> ->]|[-> ->]]; done).
    rewrite Hl, Hs in Hub. lia.
Qed.

(** * The store of records and matches *)

Lemma logAction_records user action entity entityId st :
  AppState.records (logAction user action entity entityId st) = AppState.records st.
Proof. by destruct user. Qed.

Lemma logAction_matches user action entity entityId st :
  AppState.matches (logAction user action entity entityId st) = AppState.matches st.
Proof. by destruct user. Qed.

Lemma find_app_fresh {A} (p : A -> bool) (l : list A) (x : A) :
  (∀ y, y ∈ l -> p y = false) -> p x = true -> List.find p (l ++ [x]) = Some x.
Proof.
  intros Hl Hx. induction l as [|y l IH]; simpl; [by rewrite Hx|].
  rewrite (Hl y) by (by left). apply IH. intros z Hz. apply Hl. by right.
Qed.

Lemma filter_all_elem {A} (P : A -> Prop) `{!∀ x, Decision (P x)} (l : list A) :
  (∀ x, x ∈ l -> P x) -> filter P l = l.
Proof.
  intros HP. induction l as [|x l IH]; [done|].
  rewrite filter_cons_True by (apply HP; by left).
  rewrite IH; [done|]. intros y Hy. apply HP. by right.
Qed.

Lemma with_status_id s mw r : StoredRecord.id (with_status s mw r) = StoredRecord.id r.
Proof. done. Qed.

Lemma with_status_restore s mw r :
  StoredRecord.status r = StUnmatched -> StoredRecord.matchedWith r = None ->
  with_status StUnmatched None (with_status s mw r) = r.
Proof.
  destruct r as [[id src d a desc ref st] mw']. unfold StoredRecord.status. simpl.
  by intros -> ->.
Qed.

(** X25 (createMatch 194-223 and removeMatch 225-240, part_004).  Removing
    a match that was just created gives back the records and the matches
    there were before, provided the id of the match is new and the records
    it names were unmatched and tied to no match.  (A record that was an
    exception or pending comes back as unmatched instead.) *)
Theorem createMatch_removeMatch records user user' id now bankIds cashbookIds type st :
  AppState.records st = records ->
  Forall (fun m => AppMatch.id m ≠ id) (AppState.matches st) ->
  Forall (fun r => StoredRecord.id r ∈ bankIds ++ cashbookIds ->
                   StoredRecord.status r = StUnmatched ∧ StoredRecord.matchedWith r = None)
         records ->
  let st1 := createMatch records user id now bankIds cashbookIds type st in
  let st2 := removeMatch (AppState.matches st1) user' id st1 in
  AppState.records st2 = AppState.records st ∧
  AppState.matches st2 = AppState.matches st.
Proof.
  intros Hrec Hfresh Hun st1 st2.
  rewrite Forall_forall in Hfresh. rewrite Forall_forall in Hun.
  assert (Hm1 : ∃ m, AppState.matches st1 = AppState.matches st ++ [m] ∧
                     AppMatch.id m = id ∧
                     AppMatch.bankRecords m
                       = filter (fun r => StoredRecord.id r ∈ bankIds) records ∧
                     AppMatch.cashbookRecords m
                       = filter (fun r => StoredRecord.id r ∈ cashbookIds) records).
  { eexists. unfold st1, createMatch. rewrite logAction_matches. simpl.
    split; [reflexivity|]. by simpl. }
  destruct Hm1 as (m & Hmatches & Hid & Hbank & Hcash).
  assert (Hr1 : AppState.records st1 =
                (fun r => if bool_decide (StoredRecord.id r ∈ bankIds ++ cashbookIds)
                          then with_status StMatched (Some [id]) r else r) <$> records).
  { unfold st1, createMatch. rewrite logAction_records. simpl. by rewrite Hrec. }
  unfold st2, removeMatch. clearbody st1. clear st2. rewrite Hmatches.
  rewrite (find_app_fresh _ _ m).
  - rewrite logAction_records, logAction_matches. simpl. split.
    + rewrite Hr1, Hrec, <- list_fmap_compose.
      rewrite <- (list_fmap_id records) at 2. apply list_fmap_ext.
      intros _ r Hr%list_elem_of_lookup_2. simpl.
      rewrite Hbank, Hcash.
      destruct (bool_decide_reflect (StoredRecord.id r ∈ bankIds ++ cashbookIds)) as [Hin|Hout].
      * rewrite with_status_id, bool_decide_true.
        -- destruct (Hun r Hr Hin) as [Hs Hmw]. by apply with_status_restore.
        -- rewrite elem_of_app, !list_elem_of_fmap. apply elem_of_app in Hin as [Hin|Hin].
           ++ left. exists r. split; [done|]. by apply list_elem_of_filter.
           ++ right. exists r. split; [done|]. by apply list_elem_of_filter.
      * rewrite bool_decide_false; [done|].
        rewrite elem_of_app, !list_elem_of_fmap.
        intros [(r' & Hid' & [Hin' _]%list_elem_of_filter)
               |(r' & Hid' & [Hin' _]%list_elem_of_filter)];
          apply Hout; rewrite Hid', elem_of_app; tauto.
    + rewrite filter_app, filter_cons_False, filter_nil, app_nil_r by (by intros ?).
      apply filter_all_elem. intros m' Hm'. by apply Hfresh.
  - intros m' Hm'. apply String.eqb_neq. by apply Hfresh.
  - apply String.eqb_eq. done.
Qed.

(** X25 at a bank record and a cashbook record matched by hand. *)
Lemma createMatch_removeMatch_witness :
  let st := AppState.mk twoRecords [] [] in
  let st1 := createMatch twoRecords None "m1" "2024-01-05" ["b1"] ["c1"] TypeManual st in
  StoredRecord.status <$> AppState.records st1 = [StMatched; StMatched] ∧
  AppState.records (removeMatch (AppState.matches st1) None "m1" st1) = twoRecords.
Proof.
  intros st st1. split; [reflexivity|].
  apply (createMatch_removeMatch twoRecords None None "m1" "2024-01-05" ["b1"] ["c1"]
           TypeManual st).
  - reflexivity.
  - constructor.
  - repeat constructor.
Defined.

(** * Automatic matching in the workspace *)


Section AutoMatch.
Variable Date_getTime : string -> option Z.
Variable match_id : nat -> string.
Variable now : string.
Variables (records : list StoredRecord.t) (user : option User.t).
Variables (amountTolerance dateTolerance : Q).
Variable unmatchedCashbook : list StoredRecord.t.




End AutoMatch.



Lemma login_mock email password u :
  login email password = Some u -> u ∈ MOCK_USERS.
Proof.
  unfold login. intros H. apply find_some in H as [H _]. by apply list_elem_of_In.
Qed.

(** X27 (auth-context.tsx 26-30 and 59-67, 74-76, with the handlers of
    reconciliation-workspace.tsx 110-150).  Whoever is logged in through
    [login] has the permission to match, and to unmatch, exactly when the
    role is reconciler.  For an admin (the user of the automatic demo
    login), a viewer, or nobody logged in, automatic matching, manual
    matching and unmatching leave the store as it is. *)
Theorem only_reconciler_matches (Date_getTime : string -> option Z) (match_id : nat -> string)
        now email password u records visible matches selected matchId
        amountTolerance dateTolerance st :
  login email password = Some u ->
  (hasPermission (Some u) "match" = true <-> User.role u = Reconciler) ∧
  (hasPermission (Some u) "unmatch" = true <-> User.role u = Reconciler) ∧
  (User.role u ≠ Reconciler ->
   handleAutoMatch Date_getTime match_id now records visible (Some u)
                   amountTolerance dateTolerance st = st ∧
   handleManualMatch match_id now records (Some u) selected st = (st, selected) ∧
   handleUnmatch matches (Some u) matchId st = st) ∧
  handleAutoMatch Date_getTime match_id now records visible None
                  amountTolerance dateTolerance st = st ∧
  handleManualMatch match_id now records None selected st = (st, selected) ∧
  handleUnmatch matches None matchId st = st.
Proof.
  intros Hu%login_mock.
  assert (Hcases : (hasPermission (Some u) "match" = true ∧
                    hasPermission (Some u) "unmatch" = true ∧ User.role u = Reconciler) ∨
                   (hasPermission (Some u) "match" = false ∧
                    hasPermission (Some u) "unmatch" = false ∧ User.role u ≠ Reconciler)).
  { unfold MOCK_USERS in Hu.
    repeat (apply elem_of_cons in Hu as [->|Hu]); [right|left|right|by apply elem_of_nil in Hu];
      split_and!; done. }
  unfold handleAutoMatch, handleManualMatch, handleUnmatch.
  destruct Hcases as [(H1 & H2 & H3)|(H1 & H2 & H3)]; rewrite H1, H2; simpl.
  - split_and!; try done; by split.
  - split_and!; try done; (split; [done|intros Hr; by destruct H3]).
Qed.

(** X27 at the administrator of the demo. *)
Lemma only_reconciler_matches_witness :
  let admin := User.mk "1" "Admin User" "admin@company.com" Admin (ROLE_PERMISSIONS Admin) in
  let st := AppState.mk twoRecords [] [] in
  login "admin@company.com" "" = Some admin ∧
  handleAutoMatch isoDate_getTime numbered_match "" twoRecords twoRecords (Some admin) 0 0 st
  = st.
Proof.
  intros admin st.
  assert (Hlogin : login "admin@company.com" "" = Some admin) by reflexivity.
  split; [exact Hlogin|].
  destruct (only_reconciler_matches isoDate_getTime numbered_match "" "admin@company.com" ""
              admin twoRecords twoRecords [] [] "" 0 0 st Hlogin) as (_ & _ & Hno & _).
  apply Hno. discriminate.
Defined.

(** * The summary of the amounts *)

Lemma sum_amounts_cons {A} (f : A -> Q) (x : A) (l : list A) :
  (sum_amounts f (x :: l) == f x + sum_amounts f l)%Q.
Proof. unfold sum_amounts. simpl. rewrite !sum_amounts_from. lra. Qed.

Lemma is_cents_plus x y : is_cents x -> is_cents y -> is_cents (x + y).
Proof.
  intros [k Hk] [l Hl]. exists (k + l)%Z. rewrite Hk, Hl, inject_Z_plus. field.
Qed.

Lemma is_cents_proper x y : (x == y)%Q -> is_cents x -> is_cents y.
Proof. intros Hxy [k Hk]. exists k. by rewrite <- Hxy. Qed.

Lemma is_cents_sum {A} (f : A -> Q) (l : list A) :
  Forall (fun x => is_cents (f x)) l -> is_cents (sum_amounts f l).
Proof.
  induction 1 as [|x l Hx _ IH].
  - exists 0%Z. reflexivity.
  - eapply is_cents_proper; [symmetry; apply sum_amounts_cons|]. by apply is_cents_plus.
Qed.

Lemma produced_sums tol window (ps : list MatchPair.t) :
  Forall (produced tol window) ps ->
  Forall (fun t => is_cents (MappedRow.amount t)) (omap MatchPair.bank ps) ->
  Forall (fun t => is_cents (MappedRow.amount t)) (omap MatchPair.cashbook ps) ->
  let bankOnly := sum_amounts (fun p => from_option MappedRow.amount 0%Q (MatchPair.bank p))
                              (filter (fun p => is_bank_only p = true) ps) in
  let cashOnly := sum_amounts (fun p => from_option MappedRow.amount 0%Q (MatchPair.cashbook p))
                              (filter (fun p => is_cash_only p = true) ps) in
  (sum_amounts MatchPair.amountDiff ps ==
   sum_amounts MappedRow.amount (omap MatchPair.bank ps)
   - sum_amounts MappedRow.amount (omap MatchPair.cashbook ps))%Q ∧
  (sum_amounts MatchPair.amountDiff ps ==
   sum_amounts MatchPair.amountDiff (filter (fun p => is_matched p = true) ps)
   + bankOnly - cashOnly)%Q ∧
  is_cents bankOnly ∧ is_cents cashOnly.
Proof.
  induction 1 as [|p ps Hp _ IH]; intros Hb Hc.
  - simpl. split_and!; try (unfold sum_amounts; simpl; lra); by exists 0%Z.
  - destruct Hp as [b c dd _ _ _|b|c]; simpl in Hb, Hc.
    + apply Forall_cons in Hb as [Hb1 Hb]. apply Forall_cons in Hc as [Hc1 Hc].
      destruct (IH Hb Hc) as (H1 & H2 & H3 & H4).
      rewrite (filter_cons_True (fun p => is_matched p = true)) by done.
      rewrite (filter_cons_False (fun p => is_bank_only p = true)) by done.
      rewrite (filter_cons_False (fun p => is_cash_only p = true)) by done.
      pose proof (round2_cents _ (is_cents_minus _ _ Hb1 Hc1)) as Hr.
      simpl. rewrite !sum_amounts_cons. simpl.
      change (list_omap _ _ ?f ?l) with (omap f l).
      split_and!; [lra|lra|done|done].
    + apply Forall_cons in Hb as [Hb1 Hb].
      destruct (IH Hb Hc) as (H1 & H2 & H3 & H4).
      rewrite (filter_cons_False (fun p => is_matched p = true)) by done.
      rewrite (filter_cons_True (fun p => is_bank_only p = true)) by done.
      rewrite (filter_cons_False (fun p => is_cash_only p = true)) by done.
      simpl. rewrite !sum_amounts_cons. simpl.
      change (list_omap _ _ ?f ?l) with (omap f l).
      pose proof (sum_amounts_cons
                    (fun p => from_option MappedRow.amount 0%Q (MatchPair.bank p))
                    (bankOnlyPair b) (filter (fun p => is_bank_only p = true) ps)) as Hs.
      simpl in Hs.
      split_and!; [lra|lra| |done].
      eapply is_cents_proper; [symmetry; exact Hs|].
      by apply is_cents_plus.
    + apply Forall_cons in Hc as [Hc1 Hc].
      destruct (IH Hb Hc) as (H1 & H2 & H3 & H4).
      rewrite (filter_cons_False (fun p => is_matched p = true)) by done.
      rewrite (filter_cons_False (fun p => is_bank_only p = true)) by done.
      rewrite (filter_cons_True (fun p => is_cash_only p = true)) by done.
      simpl. rewrite !sum_amounts_cons. simpl.
      change (list_omap _ _ ?f ?l) with (omap f l).
      pose proof (sum_amounts_cons
                    (fun p => from_option MappedRow.amount 0%Q (MatchPair.cashbook p))
                    (cashOnlyPair c) (filter (fun p => is_cash_only p = true) ps)) as Hs.
      simpl in Hs.
      split_and!; [lra|lra|done|].
      eapply is_cents_proper; [symmetry; exact Hs|].
      by apply is_cents_plus.
Qed.

(** X28 (summarize 287-311 with reconcileSmart 330 and 344-358,
    part_001).  For amounts with two decimals, as they come from the
    normalizer, the totals of the summary are the exact sums, and the net
    difference is fully explained by the pairs: it is the sum of the amount
    differences of all pairs, that is the differences of the matched pairs
    plus the unmatched bank amount minus the unmatched cashbook amount. *)
Theorem reconcileSmart_netDiff_explained bank cash settings :
  Forall (fun t => is_cents (MappedRow.amount t)) bank ->
  Forall (fun t => is_cents (MappedRow.amount t)) cash ->
  let r := reconcileSmart bank cash settings in
  let t := Result.stats r in
  (Totals.totalBank t == sum_amounts MappedRow.amount bank)%Q ∧
  (Totals.totalCash t == sum_amounts MappedRow.amount cash)%Q ∧
  (Totals.netDiff t == sum_amounts MatchPair.amountDiff (Result.pairs r))%Q ∧
  (Totals.netDiff t ==
   sum_amounts MatchPair.amountDiff (filter (fun p => is_matched p = true) (Result.pairs r))
   + Totals.unmatchedBankAmount t - Totals.unmatchedCashAmount t)%Q.
Proof.
  intros Hbank Hcash r t.
  destruct (reconcileSmart_pairs bank cash settings) as (Hall & Hb & Hc).
  fold r in Hall, Hb, Hc.
  assert (Hbank' : Forall (fun t => is_cents (MappedRow.amount t))
                          (omap MatchPair.bank (Result.pairs r))) by (by rewrite Hb).
  assert (Hcash' : Forall (fun t => is_cents (MappedRow.amount t))
                          (omap MatchPair.cashbook (Result.pairs r))) by (by rewrite Hc).
  destruct (produced_sums _ _ _ Hall Hbank' Hcash') as (H1 & H2 & H3 & H4).
  rewrite (sum_amounts_perm _ _ _ Hb), (sum_amounts_perm _ _ _ Hc) in H1.
  assert (HtB : (Totals.totalBank t == sum_amounts MappedRow.amount bank)%Q).
  { unfold t, r. simpl. etransitivity.
    - apply round2_cents, is_cents_sum. by rewrite js_sort_perm.
    - apply sum_amounts_perm, js_sort_perm. }
  assert (HtC : (Totals.totalCash t == sum_amounts MappedRow.amount cash)%Q).
  { unfold t, r. simpl. etransitivity.
    - apply round2_cents, is_cents_sum. by rewrite js_sort_perm.
    - apply sum_amounts_perm, js_sort_perm. }
  assert (HnD : (Totals.netDiff t == Totals.totalBank t - Totals.totalCash t)%Q).
  { unfold t, r. simpl. apply round2_cents. apply is_cents_minus; apply round2_is_cents. }
  assert (HuB : (Totals.unmatchedBankAmount t ==
                 sum_amounts (fun p => from_option MappedRow.amount 0%Q (MatchPair.bank p))
                   (filter (fun p => is_bank_only p = true) (Result.pairs r)))%Q)
    by (by apply round2_cents).
  assert (HuC : (Totals.unmatchedCashAmount t ==
                 sum_amounts (fun p => from_option MappedRow.amount 0%Q (MatchPair.cashbook p))
                   (filter (fun p => is_cash_only p = true) (Result.pairs r)))%Q)
    by (by apply round2_cents).
  split_and!; [done|done|lra|lra].
Qed.

(** X28 at one bank row and one cashbook row of 100.00 that are not
    matched. *)
Lemma reconcileSmart_netDiff_witness :
  Forall (fun t => is_cents (MappedRow.amount t)) [bankJan5] ∧
  Forall (fun t => is_cents (MappedRow.amount t)) [cashJan8] ∧
  (Totals.netDiff (Result.stats (reconcileSmart [bankJan5] [cashJan8] strictExact)) ==
   sum_amounts MatchPair.amountDiff
               (Result.pairs (reconcileSmart [bankJan5] [cashJan8] strictExact)))%Q.
Proof.
  assert (Hb : Forall (fun t => is_cents (MappedRow.amount t)) [bankJan5]).
  { repeat constructor. exists 10000%Z. reflexivity. }
  assert (Hc : Forall (fun t => is_cents (MappedRow.amount t)) [cashJan8]).
  { repeat constructor. exists 10000%Z. reflexivity. }
  split; [exact Hb|]. split; [exact Hc|].
  exact (proj1 (proj2 (proj2 (reconcileSmart_netDiff_explained [bankJan5] [cashJan8]
                                 strictExact Hb Hc)))).
Defined.

(** * The gate of the reconciliation *)

Lemma validateDataset_ok_true toISODate Number_toString rate_high parsed mapping settings :
  from_option ValidationReport.ok true
    (validateDataset toISODate Number_toString rate_high (Some parsed) (Some mapping) settings)
  = true <-> required_present parsed mapping.
Proof.
  destruct (validateDataset_report toISODate Number_toString rate_high parsed mapping settings)
    as (rep & -> & Hok & _).
  done.
Qed.

(** X29 (canReconcile 553-554 and runReconcile 556-589 with
    validateDataset, normalizeRows and summarize, part_001).  Reconciling
    is allowed exactly when both files are parsed, both mappings are there
    and each mapping names its required columns among the headers of its
    file; warnings about invalid dates or amounts never close the gate.
    When it is open [runReconcile] gives a result whose two row counts are
    the numbers of rows with a date that parses and an amount that is not
    [null]; when it is closed it does nothing. *)
Theorem runReconcile_gate
        (toISODate : string -> DateFormat -> option (string * string))
        (Number_toString : Q -> string) (rate_high : nat -> nat -> bool)
        bankParsed cashParsed bankMap cashMap settings :
  let can := canReconcile toISODate Number_toString rate_high
                          bankParsed cashParsed bankMap cashMap settings in
  (can = true <->
   ∃ bp cp bm cm, bankParsed = Some bp ∧ cashParsed = Some cp ∧
                  bankMap = Some bm ∧ cashMap = Some cm ∧
                  required_present bp bm ∧ required_present cp cm) ∧
  ∀ bankRows cashRows bm cm,
    if can
    then ∃ r,
      runReconcile toISODate Number_toString can bankRows cashRows bm cm settings = Some r ∧
      Totals.bankCount (Result.stats r) =
        length (filter (fun row => dateOk toISODate Number_toString bm settings row = true ∧
                                   is_Some (rowAmount row bm)) bankRows) ∧
      Totals.cashbookCount (Result.stats r) =
        length (filter (fun row => dateOk toISODate Number_toString cm settings row = true ∧
                                   is_Some (rowAmount row cm)) cashRows)
    else runReconcile toISODate Number_toString can bankRows cashRows bm cm settings = None.
Proof.
  intros can. split.
  - unfold can, canReconcile.
    assert (Hd : ∀ A (o : option A),
              bool_decide (is_Some o) = if o is Some _ then true else false)
      by (by intros A [x|]).
    rewrite !Hd.
    destruct bankParsed as [bp|], cashParsed as [cp|], bankMap as [bm|], cashMap as [cm|];
      cbn [andb]; try (split; [done|by intros (? & ? & ? & ? & ? & ? & ? & ? & _)]).
    rewrite andb_true_iff, !validateDataset_ok_true. split.
    + intros [H1 H2]. by exists bp, cp, bm, cm.
    + intros (? & ? & ? & ? & [= <-] & [= <-] & [= <-] & [= <-] & H1 & H2). done.
  - intros bankRows cashRows bm cm. unfold runReconcile, reconcile.
    destruct can; [|done]. eexists. split; [reflexivity|].
    cbn [negb Result.stats reconcileSmart summarize Totals.bankCount Totals.cashbookCount].
    rewrite !(Permutation_length (js_sort_perm _ _)).
    rewrite <- (normalizeRows_raw toISODate Number_toString bm settings Bank bankRows).
    rewrite <- (normalizeRows_raw toISODate Number_toString cm settings Cashbook cashRows).
    by rewrite !length_fmap.
Qed.

(** * Document numbers *)

Lemma match_here_prefix re : ∀ prev s m,
  match_here re prev s = Some m ->
  (∃ rest, s = m +:+ rest) ∧ pattern_min re ≤ String.length m.
Proof.
  induction re as [|a re IH]; intros prev s m.
  - simpl. intros [= <-]. split; [by exists s|done].
  - destruct a as [p lo hi|c|].
    + simpl match_here.
      assert (Hrep : ∀ s prev n m,
        (fix rep (prev : option ascii) (s : string) (n : nat) {struct s} : option string :=
           let stop := if lo <=? n then match_here re prev s else None in
           match s with
           | String d s' =>
               if p d && below n hi then
                 match rep (Some d) s' (S n) with
                 | Some m => Some (String d m)
                 | None => stop
                 end
               else stop
           | EmptyString => stop
           end) prev s n = Some m ->
        (∃ rest, s = m +:+ rest) ∧ lo + pattern_min re ≤ n + String.length m).
      { clear s m prev. intros s. induction s as [|d s IHs]; intros prev n m.
        - destruct (lo <=? n) eqn:Hlo; [|done].
          intros H%IH. apply Nat.leb_le in Hlo. destruct H as [H1 H2]. split; [done|lia].
        - assert (Hstop : (if lo <=? n then match_here re prev (String d s) else None) = Some m ->
                          (∃ rest, String d s = m +:+ rest) ∧
                          lo + pattern_min re ≤ n + String.length m).
          { destruct (lo <=? n) eqn:Hlo; [|done].
            intros H%IH. apply Nat.leb_le in Hlo. destruct H as [H1 H2]. split; [done|lia]. }
          destruct (p d && below n hi); [|exact Hstop].
          match goal with |- context [match ?r with Some _ => _ | None => _ end] =>
            destruct r as [m'|] eqn:Hr end; [|exact Hstop].
          intros [= <-]. apply IHs in Hr as [[rest ->] Hlen].
          split; [by exists rest|]. simpl. lia. }
      intros H%Hrep. destruct H as [H1 H2]. split; [done|]. simpl. lia.
    + simpl. destruct s as [|d s]; [done|].
      destruct (Ascii.eqb c d); [|done].
      destruct (match_here re (Some d) s) as [m'|] eqn:Hm; [|done].
      simpl. intros [= <-]. apply IH in Hm as [[rest ->] Hlen].
      split; [by exists rest|]. simpl. lia.
    + simpl. destruct (xorb _ _); [|done]. apply IH.
Qed.

Lemma prefix_append m rest : String.prefix m (m +:+ rest) = true.
Proof.
  induction m as [|c m IH]; [by destruct rest|].
  change (String.prefix (String c m) (String c (m +:+ rest)) = true).
  simpl. destruct (ascii_dec c c); [exact IH|done].
Qed.

Lemma includes_append pre m rest : includes (pre +:+ m +:+ rest) m = true.
Proof.
  induction pre as [|c pre IH].
  - change (includes (m +:+ rest) m = true).
    pose proof (prefix_append m rest) as H.
    destruct (m +:+ rest); unfold includes; fold includes; by rewrite H.
  - change (includes (String c (pre +:+ m +:+ rest)) m = true).
    unfold includes; fold includes. rewrite IH. apply orb_true_r.
Qed.

Lemma match_all_substring re : ∀ s prev skip m,
  m ∈ match_all re prev s skip ->
  (∃ pre rest, s = pre +:+ m +:+ rest) ∧ pattern_min re ≤ String.length m.
Proof.
  intros s. induction s as [|c s IH]; intros prev skip m; simpl.
  - destruct skip; [|by intros ?%elem_of_nil].
    destruct (match_here re prev "") as [m'|] eqn:Hm; [|by intros ?%elem_of_nil].
    intros ->%list_elem_of_singleton. apply match_here_prefix in Hm as [[rest Hrest] Hlen].
    split; [|done]. by exists "", rest.
  - assert (Hrec : ∀ prev skip, m ∈ match_all re prev s skip ->
                   (∃ pre rest, String c s = pre +:+ m +:+ rest) ∧
                   pattern_min re ≤ String.length m).
    { intros prev' skip' [(pre & rest & ->) Hlen]%IH. split; [|done].
      by exists (String c pre), rest. }
    destruct skip; [|apply Hrec].
    destruct (match_here re prev (String c s)) as [m'|] eqn:Hm; [|apply Hrec].
    intros [->|Hin]%elem_of_cons; [|by eapply Hrec].
    apply match_here_prefix in Hm as [[rest Hrest] Hlen].
    split; [|done]. by exists "", rest.
Qed.

Lemma dedup_first_spec l : ∀ seen,
  NoDup (dedup_first seen l) ∧
  ∀ x, x ∈ dedup_first seen l <-> x ∈ l ∧ x ∉ seen.
Proof.
  induction l as [|y l IH]; intros seen; simpl.
  - split; [constructor|]. intros x. rewrite elem_of_nil. tauto.
  - destruct (bool_decide_reflect (y ∈ seen)) as [Hin|Hout].
    + destruct (IH seen) as [Hnd Hel]. split; [done|].
      intros x. rewrite Hel, elem_of_cons. split; [tauto|].
      intros [[->|Hx] Hns]; [done|tauto].
    + destruct (IH (y :: seen)) as [Hnd Hel]. split.
      * constructor; [|done]. rewrite Hel, elem_of_cons. tauto.
      * intros x. rewrite elem_of_cons, Hel, !elem_of_cons.
        destruct (decide (x = y)) as [->|Hne]; tauto.
Qed.

(** X30 (extractDocNumbers, reconciliation-workspace.tsx 211-216).  The
    document numbers found in a description are listed once each, every one
    of them occurs in the description as written, and every one has at
    least four characters. *)
Theorem extractDocNumbers_found description :
  NoDup (extractDocNumbers description) ∧
  ∀ doc, doc ∈ extractDocNumbers description ->
         includes description doc = true ∧ 4 ≤ String.length doc.
Proof.
  unfold extractDocNumbers.
  destruct (dedup_first_spec
              (flat_map (fun p => match_all p None description 0) docPatterns) [])
    as [Hnd Hel].
  split; [done|]. intros doc [Hin _]%Hel.
  apply list_elem_of_In, in_flat_map in Hin as (re & Hre & Hin).
  apply list_elem_of_In in Hre, Hin.
  apply match_all_substring in Hin as [(pre & rest & ->) Hlen].
  split; [apply includes_append|].
  unfold docPatterns in Hre.
  repeat (apply elem_of_cons in Hre as [->|Hre]); [..|by apply elem_of_nil in Hre];
    simpl in Hlen; lia.
Qed.
